(** * Dominator template compiler: tokenizer, parser, SSA builder, code generator

    A shallow embedding of the compiler pipeline of the repository: the
    tokenizer and parser (src/compiler/parser.ts, read in its compiled form
    dist/compiler/parser.js), the SSA builder and its optimizer
    (src/compiler/ssa.ts) and the code generator (src/compiler/codegen.ts),
    together with the properties of its specification that can be stated
    over it.

    Conventions of the embedding.
    - A JavaScript string is a [string]: a sequence of 8-bit code units.  The
      compiler inspects code units one at a time and only distinguishes
      ASCII punctuation, the identifier class and white space, so the
      behaviour on the Latin-1 range is the behaviour shown here.
    - [undefined] is [None] for optional fields and [VUndefined] for values
      of type any.
    - Every class instance is a record that is threaded explicitly through
      its methods; a method that can throw returns a [Completion]. *)

From Stdlib Require Import Ascii.
From stdpp Require Import gmap strings list pretty.
From Equations Require Import Equations.

Set Default Proof Using "Type".
Set Warnings "-register-all".

(** ** JavaScript values and primitives *)

Inductive Exception :=
| TypeError (msg : string)
| Error (msg : string).

Inductive Completion (A : Type) :=
| Normal (a : A)
| Throw (e : Exception).
Arguments Normal {A} a.
Arguments Throw {A} e.

(** The double quote character, for building program text. *)
Definition dq : string := String "034"%char EmptyString.

(** The values the pipeline stores in an instruction's [value] field:
    nothing, a boolean attribute flag, a string, or an attribute object
    (own properties in property order). *)
Inductive JSValue :=
| VUndefined
| VBool (b : bool)
| VString (s : string)
| VObject (props : list (string * JSValue)).

(** Truthiness of an optional string: [undefined] and the empty string
    are falsy. *)
Definition truthy (o : option string) : bool :=
  match o with
  | Some (String _ _) => true
  | _ => false
  end.

(** Interpolation of a possibly undefined string in a template literal. *)
Definition tpl (o : option string) : string := default "undefined" o.

(** [String(v)], as performed by template literal interpolation. *)
Definition toString (v : JSValue) : string :=
  match v with
  | VUndefined => "undefined"
  | VBool true => "true"
  | VBool false => "false"
  | VString s => s
  | VObject _ => "[object Object]"
  end.

Definition hex_digit (n : N) : ascii :=
  if (n <? 10)%N then ascii_of_N (48 + n) else ascii_of_N (87 + n).

(** [QuoteJSONString]: the escape of one code unit. *)
Definition json_escape (c : ascii) : string :=
  let n := N_of_ascii c in
  if (n =? 8)%N then "\b"
  else if (n =? 9)%N then "\t"
  else if (n =? 10)%N then "\n"
  else if (n =? 12)%N then "\f"
  else if (n =? 13)%N then "\r"
  else if (n =? 34)%N then "\" +:+ dq
  else if (n =? 92)%N then "\\"
  else if (n <? 32)%N then
    "\u00" +:+ String (hex_digit (n / 16)) (String (hex_digit (n mod 16)) EmptyString)
  else String c EmptyString.

Fixpoint json_escape_all (s : string) : string :=
  match s with
  | EmptyString => EmptyString
  | String c s' => json_escape c +:+ json_escape_all s'
  end.

Definition json_quote (s : string) : string := dq +:+ json_escape_all s +:+ dq.

(** [Array.prototype.join]. *)
Definition join (sep : string) (l : list string) : string := String.concat sep l.

(** [JSON.stringify(v)]; [None] is the result [undefined].  A property
    whose value serializes to [undefined] is left out of its object. *)
Fixpoint JSON_stringify (v : JSValue) : option string :=
  match v with
  | VUndefined => None
  | VBool true => Some "true"
  | VBool false => Some "false"
  | VString s => Some (json_quote s)
  | VObject props =>
      Some ("{" +:+
            join ","
              ((fix members (ps : list (string * JSValue)) : list string :=
                  match ps with
                  | [] => []
                  | (k, v') :: ps' =>
                      match JSON_stringify v' with
                      | Some s => (json_quote k +:+ ":" +:+ s) :: members ps'
                      | None => members ps'
                      end
                  end) props) +:+
            "}")
  end.

(** [JSON.stringify] of an array of strings; an [undefined] element is
    written [null], and no array at all gives [undefined]. *)
Definition JSON_stringify_strings (a : option (list (option string))) : option string :=
  (fun l => "[" +:+ join "," (from_option json_quote "null" <$> l) +:+ "]") <$> a.

(** ** The intermediate representation (src/compiler/ssa.ts) *)

Inductive SSAOpType :=
| alloc | assign | load | store | call | branch | phi | return_
| create_element | create_text | set_prop | append_child | mount | patch.

#[global] Instance SSAOpType_eq_dec : EqDecision SSAOpType.
Proof. solve_decision. Defined.

(** The metadata keys the builder writes. *)
Record Metadata := {
  md_tag : option string;
  md_isStatic : option bool;
  md_key : option string;
  md_component : option string;
  md_type : option string;
}.

Record SSAInstruction := {
  op : SSAOpType;
  dest : option string;
  args : option (list (option string));
  value : JSValue;
  metadata : option Metadata;
  blockId : option nat;
}.

Record SSABasicBlock := {
  id : nat;
  instructions : list SSAInstruction;
  predecessors : list nat;
  successors : list nat;
  dominates : gset nat;
}.

(** [blocks] is a JavaScript [Map]: keys in insertion order. *)
Record SSAIR := {
  blocks : list (nat * SSABasicBlock);
  entry : nat;
  variables : gmap string string;
  nextVarId : nat;
  nextBlockId : nat;
}.

(** [Map.prototype.get] and [Map.prototype.set] on an insertion-ordered map. *)
Fixpoint Map_get {V} (m : list (nat * V)) (k : nat) : option V :=
  match m with
  | [] => None
  | (k', v) :: m' => if decide (k' = k) then Some v else Map_get m' k
  end.

Fixpoint Map_set {V} (m : list (nat * V)) (k : nat) (v : V) : list (nat * V) :=
  match m with
  | [] => [(k, v)]
  | (k', v') :: m' =>
      if decide (k' = k) then (k, v) :: m' else (k', v') :: Map_set m' k v
  end.

(** [inst.metadata?.isStatic] and [inst.metadata?.component], as conditions. *)
Definition metadata_isStatic (inst : SSAInstruction) : bool :=
  match metadata inst with
  | Some md => bool_decide (md_isStatic md = Some true)
  | None => false
  end.

Definition metadata_component (inst : SSAInstruction) : option string :=
  match metadata inst with
  | Some md => if truthy (md_component md) then md_component md else None
  | None => None
  end.

(** ** State and exceptions

    A method of an instance with state [S] that returns an [A] or throws.
    The state is kept when the method throws, as the mutations of a
    JavaScript object are. *)
Definition M (S A : Type) : Type := S -> Completion A * S.

Definition ret {S A} (a : A) : M S A := fun s => (Normal a, s).

Definition bind {S A B} (m : M S A) (f : A -> M S B) : M S B :=
  fun s =>
    match m s with
    | (Normal a, s') => f a s'
    | (Throw e, s') => (Throw e, s')
    end.

Definition throw {S A} (e : Exception) : M S A := fun s => (Throw e, s).
Definition get {S} : M S S := fun s => (Normal s, s).
Definition modify {S} (f : S -> S) : M S unit := fun s => (Normal tt, f s).

Notation "'let*' x ':=' c1 'in' c2" := (bind c1 (fun x => c2))
  (at level 10, x name, c1 at level 100, c2 at level 200).
Notation "c1 >> c2" := (bind c1 (fun _ => c2))
  (at level 100, c2 at level 200, right associativity).

(** [for (const x of l) body(x)]. *)
Definition for_each {S A} (body : A -> M S unit) : list A -> M S unit :=
  fix go (l : list A) : M S unit :=
    match l with
    | [] => ret tt
    | x :: l' => body x >> go l'
    end.

(** [l.map(x => f(x))] for an effectful callback, left to right. *)
Definition map_each {S A B} (f : A -> M S B) : list A -> M S (list B) :=
  fix go (l : list A) : M S (list B) :=
    match l with
    | [] => ret []
    | x :: l' => let* y := f x in let* ys := go l' in ret (y :: ys)
    end.

(** ** The code generator (src/compiler/codegen.ts) *)

Inductive Target := js | wasm.

Record CodeGenOptions := {
  target : Target;
  minify : bool;
  inlineCache : bool;
  staticOptimization : bool;
}.

(** [Partial<CodeGenOptions>]. *)
Record PartialCodeGenOptions := {
  opt_target : option Target;
  opt_minify : option bool;
  opt_inlineCache : option bool;
  opt_staticOptimization : option bool;
}.

Record CodeGenerator := {
  options : CodeGenOptions;
  output : list string;
  indent : nat;
  varMap : gmap (option string) string;
  staticCache : gmap string (option string);
}.

Definition CG := M CodeGenerator.

Definition new_CodeGenerator (o : PartialCodeGenOptions) : CodeGenerator :=
  {| options :=
       {| target := default js (opt_target o);
          minify := default true (opt_minify o);
          inlineCache := default true (opt_inlineCache o);
          staticOptimization := default true (opt_staticOptimization o) |};
     output := [];
     indent := 0;
     varMap := ∅;
     staticCache := ∅ |}.

Definition set_output (f : list string -> list string) (g : CodeGenerator) :=
  {| options := options g; output := f (output g); indent := indent g;
     varMap := varMap g; staticCache := staticCache g |}.
Definition set_indent (f : nat -> nat) (g : CodeGenerator) :=
  {| options := options g; output := output g; indent := f (indent g);
     varMap := varMap g; staticCache := staticCache g |}.
Definition set_varMap (f : gmap (option string) string -> gmap (option string) string)
    (g : CodeGenerator) :=
  {| options := options g; output := output g; indent := indent g;
     varMap := f (varMap g); staticCache := staticCache g |}.
Definition set_staticCache
    (f : gmap string (option string) -> gmap string (option string))
    (g : CodeGenerator) :=
  {| options := options g; output := output g; indent := indent g;
     varMap := varMap g; staticCache := f (staticCache g) |}.

Definition chars : string := "abcdefghijklmnopqrstuvwxyz".

(** [chars[i] + name]; an index out of range reads [undefined]. *)
Definition prepend_char (i : nat) (name : string) : string :=
  match String.get i chars with
  | Some c => String c name
  | None => "undefined" +:+ name
  end.

(** The do-while loop of [generateShortName]. *)
Equations? shortNameLoop (n : nat) (name : string) : string by wf n lt :=
  shortNameLoop n name with decide (0 < n / 26) := {
    | left _ => shortNameLoop (n / 26) (prepend_char (n mod 26) name)
    | right _ => prepend_char (n mod 26) name }.
Proof.
  match goal with
  | H : 0 < _ |- _ => change (0 < n / 26) in H; change (n / 26 < n)
  end.
  apply Nat.div_lt; [|lia].
  destruct n; [|lia]. exfalso. cbn in *. lia.
Qed.

Definition generateShortName (index : nat) : string :=
  shortNameLoop index EmptyString.

Definition getVarName (original : option string) : CG (option string) :=
  let* g := get in
  match varMap g !! original with
  | Some short => ret (Some short)
  | None =>
      if minify (options g) then
        let short := generateShortName (size (varMap g)) in
        modify (set_varMap <[original := short]>) >>
        ret (Some short)
      else ret original
  end.

Fixpoint repeat_string (s : string) (n : nat) : string :=
  match n with
  | 0 => EmptyString
  | S n' => s +:+ repeat_string s n'
  end.

Definition emit (code : string) : CG unit :=
  let* g := get in
  if minify (options g) then modify (set_output (fun o => o ++ [code]))
  else
    let padding := repeat_string "  " (indent g) in
    modify (set_output (fun o => o ++ [padding +:+ code])).

Definition indentInc : CG unit := modify (set_indent S).
Definition indentDec : CG unit := modify (set_indent (fun i => Nat.max 0 (i - 1))).

(** [a[i]]: an index out of range reads [undefined]. *)
Definition item (a : list (option string)) (i : nat) : option string :=
  match a !! i with
  | Some x => x
  | None => None
  end.

(** [inst.args!] where the code destructures or indexes it. *)
Definition args_of (inst : SSAInstruction) : CG (list (option string)) :=
  match args inst with
  | Some l => ret l
  | None => throw (TypeError "undefined is not iterable")
  end.

Definition emitHeader : CG unit :=
  emit "(function(h, mount, patch) {" >>
  indentInc >>
  emit (dq +:+ "use strict" +:+ dq +:+ ";") >>
  let* g := get in
  if staticOptimization (options g) then emit "const _cache = new Map();"
  else ret tt.

Definition emitFooter : CG unit :=
  indentDec >> emit "})(h, mount, patch);".

Definition emitAlloc (inst : SSAInstruction) : CG unit :=
  let* dest := getVarName (dest inst) in
  let value := JSON_stringify (value inst) in
  let* g := get in
  if metadata_isStatic inst && staticOptimization (options g) then
    let cacheKey := "alloc_" +:+ tpl value in
    match staticCache g !! cacheKey with
    | Some cached => emit ("const " +:+ tpl dest +:+ " = " +:+ tpl cached +:+ ";")
    | None =>
        emit ("const " +:+ tpl dest +:+ " = " +:+ tpl value +:+ ";") >>
        modify (set_staticCache <[cacheKey := dest]>)
    end
  else emit ("const " +:+ tpl dest +:+ " = " +:+ tpl value +:+ ";").

Definition emitLoad (inst : SSAInstruction) : CG unit :=
  let* dest := getVarName (dest inst) in
  let expr := value inst in
  emit ("const " +:+ tpl dest +:+ " = " +:+ toString expr +:+ ";").

Definition emitStore (inst : SSAInstruction) : CG unit :=
  let* a := args_of inst in
  let* target := getVarName (item a 0) in
  let* value := getVarName (item a 1) in
  emit (tpl target +:+ " = " +:+ tpl value +:+ ";").

Definition emitCall (inst : SSAInstruction) : CG unit :=
  let* dest :=
    (if truthy (dest inst) then getVarName (dest inst) else ret (Some "_")) in
  let* a := args_of inst in
  let fn := item a 0 in
  let args := tail a in
  let* names := map_each getVarName args in
  let argStr := join ", " (default EmptyString <$> names) in
  match metadata_component inst with
  | Some component =>
      emit ("const " +:+ tpl dest +:+ " = " +:+ component +:+ "(" +:+ argStr +:+ ");")
  | None =>
      let* fnVar := getVarName fn in
      emit ("const " +:+ tpl dest +:+ " = " +:+ tpl fnVar +:+ "(" +:+ argStr +:+ ");")
  end.

Definition emitCreateElement (inst : SSAInstruction) : CG unit :=
  let* dest := getVarName (dest inst) in
  let* a := args_of inst in
  let tag := item a 0 in
  let* g := get in
  if metadata_isStatic inst && inlineCache (options g) then
    let cacheKey := "el_" +:+ tpl tag in
    emit ("const " +:+ tpl dest +:+ " = _cache.has('" +:+ cacheKey +:+
          "') ? _cache.get('" +:+ cacheKey +:+
          "').cloneNode(true) : (function() {") >>
    indentInc >>
    emit ("const el = h('" +:+ tpl tag +:+ "', {});") >>
    emit ("_cache.set('" +:+ cacheKey +:+ "', el.cloneNode(true));") >>
    emit "return el;" >>
    indentDec >>
    emit "})();"
  else emit ("const " +:+ tpl dest +:+ " = h('" +:+ tpl tag +:+ "', {});").

Definition emitCreateText (inst : SSAInstruction) : CG unit :=
  let* dest := getVarName (dest inst) in
  let text := JSON_stringify (value inst) in
  let* g := get in
  if minify (options g) then
    emit ("const " +:+ tpl dest +:+ " = " +:+ tpl text +:+ ";")
  else emit ("const " +:+ tpl dest +:+ " = createTextVNode(" +:+ tpl text +:+ ");").

Definition emitSetProp (inst : SSAInstruction) : CG unit :=
  let* a := args_of inst in
  let el := item a 0 in
  let key := item a 1 in
  let value := item a 2 in
  let* elVar := getVarName el in
  let* valVar := getVarName value in
  if metadata_isStatic inst then
    emit (tpl elVar +:+ ".props = " +:+ tpl elVar +:+ ".props || {}; " +:+
          tpl elVar +:+ ".props['" +:+ tpl key +:+ "'] = " +:+ tpl valVar +:+ ";")
  else
    emit ("if (!" +:+ tpl elVar +:+ ".props) " +:+ tpl elVar +:+ ".props = {};") >>
    emit (tpl elVar +:+ ".props['" +:+ tpl key +:+ "'] = " +:+ tpl valVar +:+ ";").

Definition emitAppendChild (inst : SSAInstruction) : CG unit :=
  let* a := args_of inst in
  let parent := item a 0 in
  let child := item a 1 in
  let* parentVar := getVarName parent in
  let* childVar := getVarName child in
  emit ("if (!" +:+ tpl parentVar +:+ ".children) " +:+ tpl parentVar +:+
        ".children = [];") >>
  emit (tpl parentVar +:+ ".children.push(" +:+ tpl childVar +:+ ");").

Definition emitMount (inst : SSAInstruction) : CG unit :=
  let* a := args_of inst in
  let* vnode := getVarName (item a 0) in
  let* container := getVarName (item a 1) in
  emit ("mount(" +:+ tpl vnode +:+ ", " +:+ tpl container +:+ ");").

Definition emitPatch (inst : SSAInstruction) : CG unit :=
  let* a := args_of inst in
  let* oldVNode := getVarName (item a 0) in
  let* newVNode := getVarName (item a 1) in
  let* container := getVarName (item a 2) in
  emit ("patch(" +:+ tpl oldVNode +:+ ", " +:+ tpl newVNode +:+ ", " +:+
        tpl container +:+ ");").

Definition emitReturn (inst : SSAInstruction) : CG unit :=
  match args inst with
  | Some (a0 :: _) =>
      let* v := getVarName a0 in
      emit ("return " +:+ tpl v +:+ ";")
  | _ => emit "return;"
  end.

Definition emitInstruction (inst : SSAInstruction) : CG unit :=
  match op inst with
  | alloc => emitAlloc inst
  | load => emitLoad inst
  | store => emitStore inst
  | call => emitCall inst
  | create_element => emitCreateElement inst
  | create_text => emitCreateText inst
  | set_prop => emitSetProp inst
  | append_child => emitAppendChild inst
  | mount => emitMount inst
  | patch => emitPatch inst
  | return_ => emitReturn inst
  | assign | branch | phi => ret tt
  end.

Definition emitBlocks (ir : SSAIR) : CG unit :=
  match Map_get (blocks ir) (entry ir) with
  | None => ret tt
  | Some entryBlock =>
      emit "return (function render(props, state) {" >>
      indentInc >>
      for_each emitInstruction (instructions entryBlock) >>
      indentDec >>
      emit "});"
  end.

Definition newline : string := String "010"%char EmptyString.

Definition generate (ir : SSAIR) : CG string :=
  modify (set_output (fun _ => [])) >>
  modify (set_indent (fun _ => 0)) >>
  emitHeader >>
  emitBlocks ir >>
  emitFooter >>
  let* g := get in
  ret (join (if minify (options g) then EmptyString else newline) (output g)).

Definition generateCode (ir : SSAIR) (o : PartialCodeGenOptions) : Completion string :=
  fst (generate ir (new_CodeGenerator o)).

Definition generateOptimizedCode (ir : SSAIR) : Completion string :=
  generateCode ir
    {| opt_target := None; opt_minify := Some true; opt_inlineCache := Some true;
       opt_staticOptimization := Some true |}.

Definition generateDebugCode (ir : SSAIR) : Completion string :=
  generateCode ir
    {| opt_target := None; opt_minify := Some false; opt_inlineCache := Some false;
       opt_staticOptimization := Some false |}.


(** ** The syntax tree (src/compiler/parser.ts) *)

Record Position := { line : nat; column : nat }.
Record SourceLocation := { start : Position; end_ : Position }.

Inductive ASTNodeType :=
| Program | Element | Text | Expression | Component | Fragment.

(** [ASTNode]: a node type and the optional fields the compiler reads.
    An attribute object is the list of its own properties in property
    order. *)
Inductive ASTNode := mkASTNode {
  node_type : ASTNodeType;
  node_tag : option string;
  node_attributes : option (list (string * JSValue));
  node_children : option (list ASTNode);
  node_value : option string;
  node_expression : option string;
  node_isStatic : option bool;
  node_loc : option SourceLocation;
}.

(** ** The SSA builder (src/compiler/ssa.ts) *)

(** [currentBlock] refers to a block object that [ir.blocks] also holds:
    it is kept as the id under which the block is stored, and a write
    through it updates the stored block. *)
Record SSABuilder := {
  ir : SSAIR;
  currentBlock : nat;
  varCounter : nat;
  blockCounter : nat;
}.

Definition B := M SSABuilder.

Definition set_ir (f : SSAIR -> SSAIR) (b : SSABuilder) : SSABuilder :=
  {| ir := f (ir b); currentBlock := currentBlock b;
     varCounter := varCounter b; blockCounter := blockCounter b |}.
Definition set_varCounter (f : nat -> nat) (b : SSABuilder) : SSABuilder :=
  {| ir := ir b; currentBlock := currentBlock b;
     varCounter := f (varCounter b); blockCounter := blockCounter b |}.
Definition set_blocks (f : list (nat * SSABasicBlock) -> list (nat * SSABasicBlock))
    (i : SSAIR) : SSAIR :=
  {| blocks := f (blocks i); entry := entry i; variables := variables i;
     nextVarId := nextVarId i; nextBlockId := nextBlockId i |}.
Definition set_variables (f : gmap string string -> gmap string string)
    (i : SSAIR) : SSAIR :=
  {| blocks := blocks i; entry := entry i; variables := f (variables i);
     nextVarId := nextVarId i; nextBlockId := nextBlockId i |}.
Definition set_instructions (f : list SSAInstruction -> list SSAInstruction)
    (b : SSABasicBlock) : SSABasicBlock :=
  {| id := id b; instructions := f (instructions b);
     predecessors := predecessors b; successors := successors b;
     dominates := dominates b |}.
Definition set_args (f : list (option string) -> list (option string))
    (inst : SSAInstruction) : SSAInstruction :=
  {| op := op inst; dest := dest inst; args := f <$> args inst;
     value := value inst; metadata := metadata inst; blockId := blockId inst |}.

(** A write to the block object stored under [k]. *)
Definition update_block (k : nat) (f : SSABasicBlock -> SSABasicBlock)
    (m : list (nat * SSABasicBlock)) : list (nat * SSABasicBlock) :=
  (fun kb => if decide (kb.1 = k) then (kb.1, f kb.2) else kb) <$> m.

(** The constructor: an empty IR, then [createBlock] for the entry. *)
Definition new_SSABuilder : SSABuilder :=
  let block :=
    {| id := 0; instructions := []; predecessors := []; successors := [];
       dominates := ∅ |} in
  {| ir := {| blocks := Map_set [] 0 block; entry := id block; variables := ∅;
              nextVarId := 0; nextBlockId := 0 |};
     currentBlock := id block;
     varCounter := 0;
     blockCounter := 1 |}.

Definition newVar (prefix : string) : B string :=
  let* b := get in
  modify (set_varCounter S) >>
  ret (prefix +:+ pretty (varCounter b)).

(** [emit] of the builder: push onto the current block. *)
Definition emitInst (instruction : SSAInstruction) : B string :=
  let* b := get in
  modify (set_ir (set_blocks
    (update_block (currentBlock b) (set_instructions (fun l => l ++ [instruction]))))) >>
  ret (default EmptyString (dest instruction)).

Definition starts_with_brace (s : string) : bool :=
  match s with
  | String c _ => (c =? "{")%char
  | EmptyString => false
  end.

Fixpoint ends_with_brace (s : string) : bool :=
  match s with
  | EmptyString => false
  | String c EmptyString => (c =? "}")%char
  | String _ s' => ends_with_brace s'
  end.

(** [value.slice(1, -1)]. *)
Definition slice_1_m1 (s : string) : string :=
  String.substring 1 (String.length s - 2) s.

Definition visitValue (v : JSValue) : B string :=
  match v with
  | VString s =>
      if starts_with_brace s && ends_with_brace s then
        let expr := slice_1_m1 s in
        let* dest := newVar "val" in
        emitInst {| op := load; dest := Some dest; args := None;
                    value := VString expr;
                    metadata := Some {| md_tag := None; md_isStatic := Some false;
                                        md_key := None; md_component := None;
                                        md_type := None |};
                    blockId := None |} >>
        ret dest
      else
        let* dest := newVar "const" in
        emitInst {| op := alloc; dest := Some dest; args := None; value := v;
                    metadata := Some {| md_tag := None; md_isStatic := Some true;
                                        md_key := None; md_component := None;
                                        md_type := None |};
                    blockId := None |} >>
        ret dest
  | _ =>
      let* dest := newVar "const" in
      emitInst {| op := alloc; dest := Some dest; args := None; value := v;
                  metadata := Some {| md_tag := None; md_isStatic := Some true;
                                      md_key := None; md_component := None;
                                      md_type := None |};
                  blockId := None |} >>
      ret dest
  end.

(** [typeof value !== 'string' || !value.startsWith('{')]. *)
Definition static_attribute (v : JSValue) : bool :=
  match v with
  | VString s => negb (starts_with_brace s)
  | _ => true
  end.

Definition visitText (node : ASTNode) : B string :=
  let* dest := newVar "txt" in
  emitInst {| op := create_text; dest := Some dest; args := None;
              value := from_option VString VUndefined (node_value node);
              metadata := Some {| md_tag := None; md_isStatic := Some true;
                                  md_key := None; md_component := None;
                                  md_type := None |};
              blockId := None |} >>
  ret dest.

Definition visitExpression (node : ASTNode) : B string :=
  let* dest := newVar "expr" in
  emitInst {| op := load; dest := Some dest; args := None;
              value := from_option VString VUndefined (node_expression node);
              metadata := Some {| md_tag := None; md_isStatic := Some false;
                                  md_key := None; md_component := None;
                                  md_type := None |};
              blockId := None |} >>
  ret dest.

Definition visitComponent (node : ASTNode) : B string :=
  let* dest := newVar "comp" in
  let* propsVar := newVar "props" in
  emitInst {| op := alloc; dest := Some propsVar; args := None;
              value := VObject (default [] (node_attributes node));
              metadata := None; blockId := None |} >>
  emitInst {| op := call; dest := Some dest;
              args := Some [node_tag node; Some propsVar]; value := VUndefined;
              metadata := Some {| md_tag := None; md_isStatic := None;
                                  md_key := None; md_component := node_tag node;
                                  md_type := None |};
              blockId := None |} >>
  ret dest.

Section visitors.
(** The recursive calls of the visitors go through [visitNode]. *)
Variable visitNode : ASTNode -> B string.

Definition visitProgram (children : option (list ASTNode)) : B string :=
  let* visited :=
    match children with
    | Some cs => map_each visitNode cs
    | None => ret []
    end in
  let results := filter (fun r => r ≠ EmptyString) visited in
  ret (default EmptyString (last results)).

Definition visitElement (tag : option string)
    (attributes : option (list (string * JSValue)))
    (children : option (list ASTNode)) (isStatic : option bool) : B string :=
  if truthy tag then
    let* dest := newVar "el" in
    emitInst {| op := create_element; dest := Some dest;
                args := Some [Some (tpl tag)]; value := VUndefined;
                metadata := Some {| md_tag := tag; md_isStatic := isStatic;
                                    md_key := None; md_component := None;
                                    md_type := None |};
                blockId := None |} >>
    match attributes with
    | Some entries =>
        for_each (fun kv : string * JSValue =>
          let* valueVar := visitValue kv.2 in
          emitInst {| op := set_prop; dest := None;
                      args := Some [Some dest; Some kv.1; Some valueVar];
                      value := VUndefined;
                      metadata := Some {| md_tag := None;
                                          md_isStatic := Some (static_attribute kv.2);
                                          md_key := Some kv.1;
                                          md_component := None;
                                          md_type := None |};
                      blockId := None |} >> ret tt) entries
    | None => ret tt
    end >>
    match children with
    | Some cs =>
        for_each (fun child =>
          let* childVar := visitNode child in
          if truthy (Some childVar) then
            emitInst {| op := append_child; dest := None;
                        args := Some [Some dest; Some childVar];
                        value := VUndefined; metadata := None;
                        blockId := None |} >> ret tt
          else ret tt) cs
    | None => ret tt
    end >>
    ret dest
  else throw (Error "Element node missing tag").

Definition visitFragment (children : option (list ASTNode)) : B string :=
  let* dest := newVar "frag" in
  let* visited :=
    match children with
    | Some cs => map_each visitNode cs
    | None => ret []
    end in
  emitInst {| op := alloc; dest := Some dest; args := Some (Some <$> visited);
              value := VUndefined;
              metadata := Some {| md_tag := None; md_isStatic := None;
                                  md_key := None; md_component := None;
                                  md_type := Some "fragment" |};
              blockId := None |} >>
  ret dest.
End visitors.

Fixpoint visitNode (node : ASTNode) : B string :=
  match node with
  | mkASTNode ty tag attributes children _ _ isStatic _ =>
      match ty with
      | Program => visitProgram visitNode children
      | Element => visitElement visitNode tag attributes children isStatic
      | Text => visitText node
      | Expression => visitExpression node
      | Component => visitComponent node
      | Fragment => visitFragment visitNode children
      end
  end.

(** *** The optimizer passes *)

(** The instructions of all blocks, in the order of [ir.blocks.values()]. *)
Definition all_instructions (i : SSAIR) : list SSAInstruction :=
  blocks i ≫= fun kb => instructions kb.2.

Definition arg_names (insts : list SSAInstruction) : list (option string) :=
  insts ≫= fun inst => default [] (args inst).

(** The set [used] of [deadCodeElimination]. *)
Definition used_names (i : SSAIR) : gset (option string) :=
  list_to_set (arg_names (all_instructions i)).

(** The filter of [deadCodeElimination]. *)
Definition dce_keep (used : gset (option string)) (inst : SSAInstruction) : bool :=
  negb (truthy (dest inst)) || bool_decide (dest inst ∈ used)
  || bool_decide (op inst = call) || bool_decide (op inst = store).

Definition deadCodeElimination : B unit :=
  modify (set_ir (fun i =>
    let used := used_names i in
    set_blocks (fmap (fun kb => (kb.1, set_instructions (filter (dce_keep used)) kb.2))) i)).

(** The table [constants] after the first loop of [constantFolding]. *)
Definition collect_constants (insts : list SSAInstruction)
  : gmap (option string) JSValue :=
  foldl (fun constants inst =>
           if bool_decide (op inst = alloc) && metadata_isStatic inst
           then <[dest inst := value inst]> constants
           else constants) ∅ insts.

(** [inst.args.map(arg => ...)] of [constantFolding]: the callback mints a
    name and extends [constants] as it goes. *)
Fixpoint fold_args (a : list (option string)) (constants : gmap (option string) JSValue)
  : B (list (option string) * gmap (option string) JSValue) :=
  match a with
  | [] => ret ([], constants)
  | arg :: rest =>
      match constants !! arg with
      | Some val =>
          let* newVar := newVar "fold" in
          let* r := fold_args rest (<[Some newVar := val]> constants) in
          ret (Some newVar :: r.1, r.2)
      | None =>
          let* r := fold_args rest constants in
          ret (arg :: r.1, r.2)
      end
  end.

Definition fold_inst (inst : SSAInstruction) (constants : gmap (option string) JSValue)
  : B (SSAInstruction * gmap (option string) JSValue) :=
  match args inst with
  | Some a =>
      let* r := fold_args a constants in
      ret (set_args (fun _ => r.1) inst, r.2)
  | None => ret (inst, constants)
  end.

Fixpoint fold_insts (insts : list SSAInstruction)
    (constants : gmap (option string) JSValue)
  : B (list SSAInstruction * gmap (option string) JSValue) :=
  match insts with
  | [] => ret ([], constants)
  | inst :: rest =>
      let* r := fold_inst inst constants in
      let* rs := fold_insts rest r.2 in
      ret (r.1 :: rs.1, rs.2)
  end.

Fixpoint fold_blocks (bs : list (nat * SSABasicBlock))
    (constants : gmap (option string) JSValue)
  : B (list (nat * SSABasicBlock) * gmap (option string) JSValue) :=
  match bs with
  | [] => ret ([], constants)
  | kb :: rest =>
      let* r := fold_insts (instructions kb.2) constants in
      let* rs := fold_blocks rest r.2 in
      ret ((kb.1, set_instructions (fun _ => r.1) kb.2) :: rs.1, rs.2)
  end.

Definition constantFolding : B unit :=
  let* b := get in
  let constants := collect_constants (all_instructions (ir b)) in
  let* r := fold_blocks (blocks (ir b)) constants in
  modify (set_ir (set_blocks (fun _ => r.1))).

Definition op_name (o : SSAOpType) : string :=
  match o with
  | alloc => "alloc" | assign => "assign" | load => "load" | store => "store"
  | call => "call" | branch => "branch" | phi => "phi" | return_ => "return"
  | create_element => "create_element" | create_text => "create_text"
  | set_prop => "set_prop" | append_child => "append_child"
  | mount => "mount" | patch => "patch"
  end.

Definition cse_key (inst : SSAInstruction) : string :=
  op_name (op inst) +:+ ":" +:+ tpl (JSON_stringify_strings (args inst)) +:+ ":" +:+
  toString (value inst).

(** One iteration of the loop of [commonSubexpressionElimination] over the
    map [expressions] and the alias table [ir.variables]. *)
Definition cse_step (st : gmap string string * gmap string string)
    (inst : SSAInstruction) : gmap string string * gmap string string :=
  let (expressions, variables) := st in
  if bool_decide (op inst = create_element) || bool_decide (op inst = create_text) then
    let key := cse_key inst in
    match expressions !! key, truthy (dest inst) with
    | Some first, true => (expressions, <[tpl (dest inst) := first]> variables)
    | _, true => (<[key := tpl (dest inst)]> expressions, variables)
    | _, false => st
    end
  else st.

Definition commonSubexpressionElimination : B unit :=
  modify (set_ir (fun i =>
    set_variables (fun v => (foldl cse_step (∅, v) (all_instructions i)).2) i)).

Definition optimize : B unit :=
  deadCodeElimination >> constantFolding >> commonSubexpressionElimination.

Definition build (ast : ASTNode) : B SSAIR :=
  visitNode ast >>
  optimize >>
  let* b := get in
  ret (ir b).

Definition buildSSA (ast : ASTNode) : Completion SSAIR :=
  fst (build ast new_SSABuilder).


(** ** The tokenizer (src/compiler/parser.ts, dist/compiler/parser.js) *)

Inductive TokenType :=
| tk_open | tk_selfClose | tk_close | tk_text | tk_expr | tk_eof.

(** The [value] of a token.  For an open or self-closing tag it is
    [JSON.stringify({ tag, attributes })], which the parser reads back with
    [JSON.parse]; the pair is kept as it is instead of its JSON text. *)
Inductive TokenValue :=
| TStr (s : string)
| TTag (tag : string) (attributes : list (string * JSValue)).

Record Token := {
  tok_type : TokenType;
  tok_value : TokenValue;
  tok_loc : SourceLocation;
}.

(** The character classes the tokenizer tests. *)
Definition is_space (c : ascii) : bool :=
  let n := N_of_ascii c in
  ((9 <=? n) && (n <=? 13) || (n =? 32) || (n =? 160))%N.

(** [/[a-zA-Z0-9_]/]. *)
Definition is_word (c : ascii) : bool :=
  let n := N_of_ascii c in
  ((97 <=? n) && (n <=? 122) || (65 <=? n) && (n <=? 90)
   || (48 <=? n) && (n <=? 57) || (n =? 95))%N.

(** [/[a-zA-Z0-9_-]/]. *)
Definition is_ident (c : ascii) : bool :=
  is_word c || (c =? "-")%char.

Definition is_upper (c : ascii) : bool :=
  let n := N_of_ascii c in ((65 <=? n) && (n <=? 90))%N.

Fixpoint trimStart (s : string) : string :=
  match s with
  | String c s' => if is_space c then trimStart s' else s
  | EmptyString => EmptyString
  end.

Fixpoint trimEnd (s : string) : string :=
  match s with
  | String c s' =>
      match trimEnd s' with
      | EmptyString => if is_space c then EmptyString else String c EmptyString
      | r => String c r
      end
  | EmptyString => EmptyString
  end.

(** [String.prototype.trim]. *)
Definition trim (s : string) : string := trimEnd (trimStart s).

(** The array index a property key denotes, if it is one: a canonical
    decimal numeral below 2^32 - 1. *)
Fixpoint decimal_value (s : string) (acc : N) : option N :=
  match s with
  | EmptyString => Some acc
  | String c s' =>
      let n := N_of_ascii c in
      if ((48 <=? n) && (n <=? 57))%N then decimal_value s' (10 * acc + (n - 48))%N
      else None
  end.

Definition array_index (k : string) : option N :=
  match k with
  | EmptyString => None
  | String c EmptyString => decimal_value k 0
  | String c _ =>
      if (c =? "0")%char then None
      else
        match decimal_value k 0 with
        | Some n => if (n <? 4294967295)%N then Some n else None
        | None => None
        end
  end.

(** Where a new own property goes: array indices first, in ascending
    order, then the other keys in the order of their creation. *)
Fixpoint insert_property (k : string) (v : JSValue) (o : list (string * JSValue))
  : list (string * JSValue) :=
  match o with
  | [] => [(k, v)]
  | (k', v') :: o' =>
      match array_index k, array_index k' with
      | Some n, Some n' =>
          if (n <? n')%N then (k, v) :: o else (k', v') :: insert_property k v o'
      | Some _, None => (k, v) :: o
      | None, _ => (k', v') :: insert_property k v o'
      end
  end.

Fixpoint has_property (k : string) (o : list (string * JSValue)) : bool :=
  match o with
  | [] => false
  | (k', _) :: o' => bool_decide (k' = k) || has_property k o'
  end.

(** [attributes[name] = value] on an object created by [{}]: an own
    property keeps its place when it is written again, and the key
    [__proto__] reaches the setter of [Object.prototype], which ignores a
    value that is not an object. *)
Definition set_property (k : string) (v : JSValue) (o : list (string * JSValue))
  : list (string * JSValue) :=
  if bool_decide (k = "__proto__") then o
  else if has_property k o then
    (fun kv => if bool_decide (kv.1 = k) then (k, v) else kv) <$> o
  else insert_property k v o.

Module Tokenizer.

(** [rest] is [source.slice(pos)]: the tokenizer reads [source] only at
    [pos] and [pos + 1] and compares [pos] only with [source.length]. *)
Record t := { rest : string; line : nat; column : nat }.

Definition new (source : string) : t :=
  {| rest := trim source; line := 1; column := 1 |}.

Definition peek (st : t) : option ascii :=
  match rest st with
  | String c _ => Some c
  | EmptyString => None
  end.

(** The cursor after [advance] has read [char]. *)
Definition bump (char : option ascii) (st : t) (rest' : string) : t :=
  if bool_decide (char = Some "010"%char)
  then {| rest := rest'; line := S (line st); column := 1 |}
  else {| rest := rest'; line := line st; column := S (column st) |}.

(** Past the end [advance] reads [undefined] and still moves on. *)
Definition advance (st : t) : option ascii * t :=
  match rest st with
  | String c r => (Some c, bump (Some c) st r)
  | EmptyString => (None, bump None st EmptyString)
  end.

Definition getLocation (st : t) : SourceLocation :=
  {| start := Build_Position (line st) (column st);
     end_ := Build_Position (line st) (column st) |}.

(** [while (this.peek() && p(this.peek())) acc += this.advance()]:
    the text read and the cursor after it. *)
Fixpoint read_while_from (p : ascii -> bool) (s : string) (st : t) : string * t :=
  match s with
  | String c s' =>
      if p c then
        let r := read_while_from p s' (bump (Some c) st s') in
        (String c r.1, r.2)
      else (EmptyString, st)
  | EmptyString => (EmptyString, st)
  end.

Definition read_while (p : ascii -> bool) (st : t) : string * t :=
  read_while_from p (rest st) st.

Definition skipWhitespace (st : t) : t := (read_while is_space st).2.

Definition peek_is (c : ascii) (st : t) : bool :=
  bool_decide (peek st = Some c).

(** The depth after one character of a brace scan. *)
Definition brace_depth (char : option ascii) (depth : nat) : nat :=
  let depth := if bool_decide (char = Some "{"%char) then S depth else depth in
  if bool_decide (char = Some "}"%char) then depth - 1 else depth.

(** [expr += char]. *)
Definition append_char (char : option ascii) (expr : string) : string :=
  match char with
  | Some c => String c expr
  | None => "undefined" +:+ expr
  end.

(** The loop of [readExpression]:
    [while (depth > 0 && this.pos < this.source.length)]. *)
Fixpoint expression_loop (s : string) (st : t) (depth : nat) : string * t :=
  match depth, s with
  | S _, String c s' =>
      let depth' := brace_depth (Some c) depth in
      let r := expression_loop s' (bump (Some c) st s') depth' in
      (if bool_decide (0 < depth') then String c r.1 else r.1, r.2)
  | _, _ => (EmptyString, st)
  end.

Definition readExpression (st : t) : Token * t :=
  let loc := getLocation st in
  let st := (advance st).2 in
  let r := expression_loop (rest st) st 1 in
  ({| tok_type := tk_expr; tok_value := TStr (trim r.1); tok_loc := loc |}, r.2).

Definition readText (st : t) : Token * t :=
  let loc := getLocation st in
  let r := read_while (fun c => negb (c =? "<")%char && negb (c =? "{")%char) st in
  ({| tok_type := tk_text; tok_value := TStr (trim r.1); tok_loc := loc |}, r.2).

Definition readCloseTag (st : t) : Token * t :=
  let loc := getLocation st in
  let st := (advance st).2 in
  let st := (advance st).2 in
  let r := read_while (fun c => negb (c =? ">")%char) st in
  let st := if peek_is ">" r.2 then (advance r.2).2 else r.2 in
  ({| tok_type := tk_close; tok_value := TStr (trim r.1); tok_loc := loc |}, st).

(** The loop [while (depth > 0)] of [readAttribute].  It has no test for
    the end of the input, so it is run on fuel: [None] when the fuel is
    used up before the loop is left. *)
Fixpoint attribute_brace_loop (fuel : nat) (st : t) (depth : nat)
  : option (string * t) :=
  match depth with
  | 0 => Some (EmptyString, st)
  | S _ =>
      match fuel with
      | 0 => None
      | S fuel' =>
          let (char, st') := advance st in
          let depth' := brace_depth char depth in
          match attribute_brace_loop fuel' st' depth' with
          | Some r =>
              Some (if bool_decide (0 < depth') then append_char char r.1 else r.1, r.2)
          | None => None
          end
      end
  end.

Definition readAttribute (fuel : nat) (st : t) : option ((string * JSValue) * t) :=
  let (name, st) := read_while is_ident st in
  let st := skipWhitespace st in
  if negb (peek_is "=" st) then Some ((name, VBool true), st)
  else
    let st := (advance st).2 in
    let st := skipWhitespace st in
    if peek_is "034" st || peek_is "'" st then
      let (quote, st) := advance st in
      let (value, st) := read_while (fun c => negb (bool_decide (Some c = quote))) st in
      let st := (advance st).2 in
      Some ((name, VString value), st)
    else if peek_is "{" st then
      let st := (advance st).2 in
      match attribute_brace_loop fuel st 1 with
      | Some (expr, st) => Some ((name, VString ("{" +:+ expr +:+ "}")), st)
      | None => None
      end
    else
      let (value, st) := read_while is_word st in
      Some ((name, VString value), st).

(** The attribute loop of [readOpenTag]:
    [while (this.peek() && this.peek() !== '>' && this.peek() !== '/')]. *)
Fixpoint attributes_loop (fuel : nat) (st : t) (attributes : list (string * JSValue))
  : option (list (string * JSValue) * t) :=
  match peek st with
  | Some c =>
      if negb (c =? ">")%char && negb (c =? "/")%char then
        match fuel with
        | 0 => None
        | S fuel' =>
            match readAttribute fuel' st with
            | Some (attr, st) =>
                attributes_loop fuel' (skipWhitespace st)
                  (set_property attr.1 attr.2 attributes)
            | None => None
            end
        end
      else Some (attributes, st)
  | None => Some (attributes, st)
  end.

Definition readOpenTag (fuel : nat) (st : t) : option (Token * t) :=
  let loc := getLocation st in
  let st := (advance st).2 in
  let st := skipWhitespace st in
  let (tagName, st) := read_while is_ident st in
  let st := skipWhitespace st in
  match attributes_loop fuel st [] with
  | Some (attributes, st) =>
      let (type, st) :=
        if peek_is "/" st then (tk_selfClose, (advance st).2) else (tk_open, st) in
      let st := if peek_is ">" st then (advance st).2 else st in
      Some ({| tok_type := type; tok_value := TTag tagName attributes;
               tok_loc := loc |}, st)
  | None => None
  end.

(** [this.source[this.pos + 1] === '/']. *)
Definition next_is_slash (st : t) : bool :=
  match rest st with
  | String _ (String c _) => (c =? "/")%char
  | _ => false
  end.

(** The main loop [while (this.pos < this.source.length)]. *)
Fixpoint tokenize_loop (fuel : nat) (st : t) (tokens : list Token)
  : option (list Token * t) :=
  match rest st with
  | EmptyString => Some (tokens, st)
  | String _ _ =>
      match fuel with
      | 0 => None
      | S fuel' =>
          let st := skipWhitespace st in
          if peek_is "<" st then
            if next_is_slash st then
              let (token, st) := readCloseTag st in
              tokenize_loop fuel' st (tokens ++ [token])
            else
              match readOpenTag fuel' st with
              | Some (token, st) => tokenize_loop fuel' st (tokens ++ [token])
              | None => None
              end
          else if peek_is "{" st then
            let (token, st) := readExpression st in
            tokenize_loop fuel' st (tokens ++ [token])
          else
            let (token, st) := readText st in
            tokenize_loop fuel' st (tokens ++ [token])
      end
  end.

(** [tokenize] run for at most [fuel] iterations of each of its
    unbounded loops; [None] when it has not returned by then. *)
Definition tokenize (fuel : nat) (st : t) : option (list Token) :=
  match tokenize_loop fuel st [] with
  | Some (tokens, st) =>
      Some (tokens ++ [{| tok_type := tk_eof; tok_value := TStr EmptyString;
                          tok_loc := getLocation st |}])
  | None => None
  end.

End Tokenizer.


(** ** The parser (src/compiler/parser.ts, dist/compiler/parser.js) *)

(** [token.value] as the string it is. *)
Definition token_text (v : TokenValue) : string :=
  match v with
  | TStr s => s
  | TTag tag attributes =>
      tpl (JSON_stringify
             (VObject [("tag", VString tag); ("attributes", VObject attributes)]))
  end.

(** [JSON.parse(token.value)], read at [.tag] and [.attributes].  Only open
    and self-closing tokens reach it, and [readOpenTag] writes their value;
    a payload that is no such object is read as having neither field. *)
Definition JSON_parse_tag (v : TokenValue)
  : option string * option (list (string * JSValue)) :=
  match v with
  | TTag tag attributes => (Some tag, Some attributes)
  | TStr _ => (None, None)
  end.

(** [/^[A-Z]/.test(data.tag)]. *)
Definition starts_upper (tag : option string) : bool :=
  match tpl tag with
  | String c _ => is_upper c
  | EmptyString => false
  end.

Module Parser.

(** The state is [tokens.slice(pos)]; the functions run on fuel, one
    unit for each call of [parseNode] or [parseChildren] that a call
    nests. *)
Definition parseText (token : Token) : ASTNode :=
  {| node_type := Text; node_tag := None; node_attributes := None;
     node_children := None; node_value := Some (token_text (tok_value token));
     node_expression := None; node_isStatic := Some true;
     node_loc := Some (tok_loc token) |}.

Definition parseExpression (token : Token) : ASTNode :=
  {| node_type := Expression; node_tag := None; node_attributes := None;
     node_children := None; node_value := None;
     node_expression := Some (token_text (tok_value token));
     node_isStatic := Some false; node_loc := Some (tok_loc token) |}.

(** The node [parseElement] builds, once its children are known. *)
Definition element_node (token : Token) (children : list ASTNode) : ASTNode :=
  let data := JSON_parse_tag (tok_value token) in
  {| node_type := if starts_upper data.1 then Component else Element;
     node_tag := data.1; node_attributes := data.2;
     node_children := Some children; node_value := None;
     node_expression := None; node_isStatic := None;
     node_loc := Some (tok_loc token) |}.

Definition is_type (ty : TokenType) (token : Token) : bool :=
  match ty, tok_type token with
  | tk_open, tk_open | tk_selfClose, tk_selfClose | tk_close, tk_close
  | tk_text, tk_text | tk_expr, tk_expr | tk_eof, tk_eof => true
  | _, _ => false
  end.

Fixpoint parseChildren (fuel : nat) (ts : list Token)
  : option (list ASTNode * list Token) :=
  match ts with
  | [] => Some ([], ts)
  | token :: _ =>
      if is_type tk_close token || is_type tk_eof token then Some ([], ts)
      else
        match fuel with
        | 0 => None
        | S fuel' =>
            match parseNode fuel' ts with
            | Some (node, ts1) =>
                match parseChildren fuel' ts1 with
                | Some (children, ts2) =>
                    Some (match node with
                          | Some n => n :: children
                          | None => children
                          end, ts2)
                | None => None
                end
            | None => None
            end
        end
  end
with parseNode (fuel : nat) (ts : list Token)
  : option (option ASTNode * list Token) :=
  match ts with
  | [] => Some (None, ts)
  | token :: ts1 =>
      match tok_type token with
      | tk_text => Some (Some (parseText token), ts1)
      | tk_expr => Some (Some (parseExpression token), ts1)
      | tk_selfClose => Some (Some (element_node token []), ts1)
      | tk_open =>
          match fuel with
          | 0 => None
          | S fuel' =>
              match parseChildren fuel' ts1 with
              | Some (children, ts2) =>
                  Some (Some (element_node token children),
                        match ts2 with
                        | closing :: ts3 =>
                            if is_type tk_close closing then ts3 else ts2
                        | [] => ts2
                        end)
              | None => None
              end
          end
      | tk_eof => Some (None, ts)
      | tk_close => Some (None, ts1)
      end
  end.

Definition parse (fuel : nat) (source : string) : option ASTNode :=
  match Tokenizer.tokenize fuel (Tokenizer.new source) with
  | Some tokens =>
      match parseChildren fuel tokens with
      | Some (children, _) =>
          Some {| node_type := Program; node_tag := None; node_attributes := None;
                  node_children := Some children; node_value := None;
                  node_expression := None; node_isStatic := None;
                  node_loc := None |}
      | None => None
      end
  | None => None
  end.

End Parser.

Definition parse := Parser.parse.

(** ** The entry points (src/compiler/codegen.ts)

    [None] when the tokenizer or the parser has not returned within the
    fuel; otherwise the string returned or the exception thrown. *)
Definition compile (fuel : nat) (source : string) : option (Completion string) :=
  match parse fuel source with
  | Some ast =>
      Some (match buildSSA ast with
            | Normal ir => generateOptimizedCode ir
            | Throw e => Throw e
            end)
  | None => None
  end.

Definition compileWithOptions (fuel : nat) (source : string)
    (options : PartialCodeGenOptions) : option (Completion string) :=
  match parse fuel source with
  | Some ast =>
      Some (match buildSSA ast with
            | Normal ir => generateCode ir options
            | Throw e => Throw e
            end)
  | None => None
  end.


(** ** Reading a short name back

    The value of a name as a numeral in base 26 with the digits a = 0,
    ..., z = 25, most significant digit first. *)
Definition letter_index (c : ascii) : nat := N.to_nat (N_of_ascii c) - 97.

Fixpoint numeral_value_from (acc : nat) (s : string) : nat :=
  match s with
  | EmptyString => acc
  | String c s' => numeral_value_from (acc * 26 + letter_index c) s'
  end.

Definition numeral_value (s : string) : nat := numeral_value_from 0 s.


Definition minify_on : PartialCodeGenOptions :=
  {| opt_target := None; opt_minify := Some true; opt_inlineCache := None;
     opt_staticOptimization := None |}.


(** ** Sample intermediate representations *)

(** An IR whose only block, the entry, holds [insts]. *)
Definition single_block (insts : list SSAInstruction) : SSAIR :=
  {| blocks := [(0, {| id := 0; instructions := insts; predecessors := [];
                       successors := []; dominates := ∅ |})];
     entry := 0; variables := ∅; nextVarId := 0; nextBlockId := 0 |}.

(** An IR whose block map has no entry under its entry id. *)
Definition no_entry_block : SSAIR :=
  {| blocks := []; entry := 0; variables := ∅; nextVarId := 0; nextBlockId := 0 |}.

Definition load_inst (d v : string) : SSAInstruction :=
  {| op := load; dest := Some d; args := None; value := VString v;
     metadata := None; blockId := None |}.

(** [hay.includes(needle)]. *)
Fixpoint contains (needle hay : string) : bool :=
  String.prefix needle hay ||
  match hay with
  | String _ hay' => contains needle hay'
  | EmptyString => false
  end.

(** The text of a factory function that defines nothing: the opening
    line, the directive, the cache declaration when static optimization is
    on, and the closing line. *)
Definition factory_only (o : CodeGenOptions) : string :=
  let pad := if minify o then EmptyString else "  " in
  join (if minify o then EmptyString else newline)
    (["(function(h, mount, patch) {"; pad +:+ dq +:+ "use strict" +:+ dq +:+ ";"] ++
     (if staticOptimization o then [pad +:+ "const _cache = new Map();"] else []) ++
     ["})(h, mount, patch);"]).

(** ** Scoping of names in the IR *)

(** The positions of an instruction's arguments that hold a literal tag
    or key, not a value name: the tag of [create_element], the component
    of [call], the key of [set_prop]. *)
Definition literal_positions (o : SSAOpType) : list nat :=
  match o with
  | create_element | call => [0]
  | set_prop => [1]
  | _ => []
  end.

(** The arguments of an instruction that name a value. *)
Definition name_args (inst : SSAInstruction) : list (option string) :=
  concat
    (imap (fun i a => if bool_decide (i ∈ literal_positions (op inst)) then [] else [a])
          (default [] (args inst))).

(** Every value name an instruction of the list reads is the destination
    of an instruction before it ([defined] holds the destinations so far). *)
Fixpoint defined_before_use (defined : gset (option string))
    (insts : list SSAInstruction) : bool :=
  match insts with
  | [] => true
  | inst :: rest =>
      forallb (fun a => bool_decide (a ∈ defined)) (name_args inst)
      && defined_before_use
           (if truthy (dest inst) then {[dest inst]} ∪ defined else defined) rest
  end.

Definition well_scoped (i : SSAIR) : bool :=
  forallb (fun kb => defined_before_use ∅ (instructions kb.2)) (blocks i).

(** The destinations of the instructions of an IR. *)
Definition dest_names (i : SSAIR) : gset (option string) :=
  list_to_set (dest <$> all_instructions i).

(** The instructions without side effect that an IR holds although no
    instruction of it reads their destination. *)
Definition is_pure_value_op (o : SSAOpType) : bool :=
  match o with
  | alloc | load | create_element | create_text => true
  | _ => false
  end.

Definition unreferenced (i : SSAIR) : list SSAInstruction :=
  filter (fun inst => is_pure_value_op (op inst) && truthy (dest inst)
                      && negb (bool_decide (dest inst ∈ used_names i)))
         (all_instructions i).

(** ** Sample syntax trees *)

Definition program_of (children : list ASTNode) : ASTNode :=
  {| node_type := Program; node_tag := None; node_attributes := None;
     node_children := Some children; node_value := None; node_expression := None;
     node_isStatic := None; node_loc := None |}.

Definition text_of (s : string) : ASTNode :=
  {| node_type := Text; node_tag := None; node_attributes := None;
     node_children := None; node_value := Some s; node_expression := None;
     node_isStatic := Some true; node_loc := None |}.

Definition fragment_of (children : list ASTNode) : ASTNode :=
  {| node_type := Fragment; node_tag := None; node_attributes := None;
     node_children := Some children; node_value := None; node_expression := None;
     node_isStatic := None; node_loc := None |}.

Definition element_of (tag : string) (attributes : list (string * JSValue))
    (children : list ASTNode) : ASTNode :=
  {| node_type := Element; node_tag := Some tag; node_attributes := Some attributes;
     node_children := Some children; node_value := None; node_expression := None;
     node_isStatic := None; node_loc := None |}.

(** The builder after [visitNode], and after each pass of [optimize]. *)
Definition after_visit (ast : ASTNode) : SSABuilder := (visitNode ast new_SSABuilder).2.
Definition after_dce (ast : ASTNode) : SSABuilder :=
  (deadCodeElimination (after_visit ast)).2.
Definition after_folding (ast : ASTNode) : SSABuilder :=
  (constantFolding (after_dce ast)).2.

(** Two instructions with the same operation and destination. *)
Definition same_head (i i' : SSAInstruction) : Prop :=
  op i' = op i ∧ dest i' = dest i.

(** The IR [buildSSA] returns, for the trees on which it returns. *)
Definition optimized (ast : ASTNode) : SSAIR :=
  match buildSSA ast with
  | Normal i => i
  | Throw _ => no_entry_block
  end.

(** What dead-code elimination grants for an instruction that stays. *)
Definition read_before_optimization (ast : ASTNode) (inst : SSAInstruction) : Prop :=
  truthy (dest inst) = true → op inst ≠ call → op inst ≠ store →
  dest inst ∈ used_names (ir (after_visit ast)).

(** The text [compile] returns for the source [<div>{msg}</div>]. *)
Definition compiled_div_msg : string :=
  "(function(h, mount, patch) {" +:+ dq +:+ "use strict" +:+ dq +:+ ";" +:+
  "const _cache = new Map();" +:+
  "return (function render(props, state) {" +:+
  "const a = h('div', {});" +:+
  "const b = msg;" +:+
  "if (!a.children) a.children = [];" +:+
  "a.children.push(b);" +:+
  "});" +:+
  "})(h, mount, patch);".

(** The text [compile] returns for the source [hi]. *)
Definition compiled_hi : string :=
  "(function(h, mount, patch) {" +:+ dq +:+ "use strict" +:+ dq +:+ ";" +:+
  "const _cache = new Map();" +:+
  "return (function render(props, state) {" +:+
  "});" +:+
  "})(h, mount, patch);".

(** The builder has emitted no [return] instruction. *)
Definition no_return (b : SSABuilder) : Prop :=
  Forall (fun inst => op inst ≠ return_) (all_instructions (ir b)).

(** A method of the builder that keeps a property of its state. *)
Definition keeps (P : SSABuilder → Prop) {A} (m : B A) : Prop :=
  ∀ b, P b → P (m b).2.

(** No character of [s] closes a brace. *)
Fixpoint no_closing_brace (s : string) : bool :=
  match s with
  | EmptyString => true
  | String c s' => negb (c =? "}")%char && no_closing_brace s'
  end.

(** ** Inputs that end before a terminator *)

Fixpoint all_chars (p : ascii -> bool) (s : string) : bool :=
  match s with
  | EmptyString => true
  | String c s' => p c && all_chars p s'
  end.

Definition is_brace (c : ascii) : bool := (c =? "{")%char || (c =? "}")%char.

(** The cursor after [advance] has read all of [s]. *)
Fixpoint cursor_after (s : string) (st : Tokenizer.t) : Tokenizer.t :=
  match s with
  | EmptyString => st
  | String c s' => cursor_after s' (Tokenizer.bump (Some c) st s')
  end.

(** The location of the end of a source that is read to its end. *)
Definition end_of (source : string) : SourceLocation :=
  Tokenizer.getLocation
    (cursor_after source
       {| Tokenizer.rest := source; Tokenizer.line := 1; Tokenizer.column := 1 |}).

Definition first_location : SourceLocation :=
  {| start := Build_Position 1 1; end_ := Build_Position 1 1 |}.

(** The tokens for an open tag cut off after its name, and for an
    expression cut off before its closing brace. *)
Definition truncated_tag_tokens (name : string) : list Token :=
  [{| tok_type := tk_open; tok_value := TTag name []; tok_loc := first_location |};
   {| tok_type := tk_eof; tok_value := TStr EmptyString;
      tok_loc := end_of ("<" +:+ name) |}].

Definition truncated_expression_tokens (body : string) : list Token :=
  [{| tok_type := tk_expr; tok_value := TStr (trim body); tok_loc := first_location |};
   {| tok_type := tk_eof; tok_value := TStr EmptyString;
      tok_loc := end_of ("{" +:+ trimEnd body) |}].

(** ** Relations between generator instances *)

Definition with_target (t : Target) (g : CodeGenerator) : CodeGenerator :=
  {| options := {| target := t; minify := minify (options g);
                   inlineCache := inlineCache (options g);
                   staticOptimization := staticOptimization (options g) |};
     output := output g; indent := indent g; varMap := varMap g;
     staticCache := staticCache g |}.

(** A method is blind to the target when changing the target of the
    instance changes nothing but the target of the instance it leaves. *)
Definition target_blind {A} (m : CG A) : Prop :=
  ∀ t g, m (with_target t g) = ((m g).1, with_target t (m g).2).

(** What [getVarName] maintains: every short name in the map is the name
    of an index below the size of the map, and no short name is held by
    two keys. *)
Definition short_names_ok (m : gmap (option string) string) : Prop :=
  (∀ k s, m !! k = Some s → ∃ i, i < size m ∧ s = generateShortName i) ∧
  (∀ k1 k2 s, m !! k1 = Some s → m !! k2 = Some s → k1 = k2).

(** How a method may change the instance: the options stay, the renaming
    map only gains entries, and it stays well formed. *)
Definition extends (g g' : CodeGenerator) : Prop :=
  options g' = options g ∧ varMap g ⊆ varMap g' ∧
  (short_names_ok (varMap g) → short_names_ok (varMap g')).

Definition stepwise {A} (m : CG A) : Prop := ∀ g, extends g (m g).2.

(** A static alloc of the string x, for a generator that is used twice. *)
Definition static_alloc (d v : string) : SSAInstruction :=
  {| op := alloc; dest := Some d; args := None; value := VString v;
     metadata := Some {| md_tag := None; md_isStatic := Some true; md_key := None;
                         md_component := None; md_type := None |};
     blockId := None |}.

(** ** The exported helpers [isStaticNode], [analyzeSSA] and [printSSA] *)

(** [typeof value === 'string' && value.startsWith('{')]. *)
Definition dynamic_attribute (v : JSValue) : bool := negb (static_attribute v).

(** [isStaticNode] (src/compiler/parser.ts).  The [for ... in] loop over
    the attributes returns [false] at the first dynamic value. *)
Fixpoint isStaticNode (node : ASTNode) : bool :=
  match node with
  | mkASTNode ty _ attributes children _ _ _ _ =>
      match ty with
      | Expression => false
      | Text => true
      | _ =>
          if match attributes with
             | Some entries => existsb (fun kv => dynamic_attribute kv.2) entries
             | None => false
             end
          then false
          else match children with
               | Some cs => forallb isStaticNode cs
               | None => true
               end
      end
  end.

(** [inst.metadata?.isStatic === false]. *)
Definition metadata_isDynamic (inst : SSAInstruction) : bool :=
  match metadata inst with
  | Some md => bool_decide (md_isStatic md = Some false)
  | None => false
  end.

Record SSAAnalysis := {
  instructionCount : nat;
  blockCount : nat;
  staticNodes : nat;
  dynamicNodes : nat;
}.

(** [analyzeSSA] (src/compiler/ssa.ts). *)
Definition analyzeSSA (i : SSAIR) : SSAAnalysis :=
  {| instructionCount := length (all_instructions i);
     blockCount := length (blocks i);
     staticNodes := length (filter (fun inst => metadata_isStatic inst) (all_instructions i));
     dynamicNodes :=
       length (filter (fun inst => negb (metadata_isStatic inst) && metadata_isDynamic inst)
                      (all_instructions i)) |}.

(** The line [printSSA] prints for an instruction, before its indentation. *)
Definition printSSA_line (inst : SSAInstruction) : string :=
  let line := if truthy (dest inst)
              then tpl (dest inst) +:+ " = " +:+ op_name (op inst)
              else op_name (op inst) in
  let line := match args inst with
              | Some (a :: rest) =>
                  line +:+ " " +:+ join ", " (default EmptyString <$> (a :: rest))
              | _ => line
              end in
  match JSON_stringify (value inst) with
  | Some text => line +:+ " [" +:+ text +:+ "]"
  | None => line
  end.

Definition printSSA_lines (i : SSAIR) : list string :=
  blocks i ≫= fun kb =>
    ("Block " +:+ pretty kb.1 +:+ ":")
    :: (((fun inst => "  " +:+ printSSA_line inst) <$> instructions kb.2) ++ [EmptyString]).

(** [printSSA] (src/compiler/ssa.ts). *)
Definition printSSA (i : SSAIR) : string := join newline (printSSA_lines i).

(** The payload of a token fits its type: a tag for an open or
    self-closing token, a string for the others. *)
Definition payload_fits (token : Token) : Prop :=
  match tok_type token with
  | tk_open | tk_selfClose => ∃ tag attributes, tok_value token = TTag tag attributes
  | _ => ∃ s, tok_value token = TStr s
  end.

(** ** Token lists of simple inputs *)

(** The characters that [readText] reads. *)
Definition is_text_char (c : ascii) : bool :=
  negb (c =? "<")%char && negb (c =? "{")%char.

(** The tokens for a source without markup: the trimmed text, if any is
    left, then eof. *)
Definition plain_text_tokens (source : string) : list Token :=
  match trim source with
  | EmptyString =>
      [{| tok_type := tk_eof; tok_value := TStr EmptyString; tok_loc := first_location |}]
  | text =>
      [{| tok_type := tk_text; tok_value := TStr text; tok_loc := first_location |};
       {| tok_type := tk_eof; tok_value := TStr EmptyString; tok_loc := end_of text |}]
  end.

(** The tree for a source without markup. *)
Definition plain_text_tree (source : string) : ASTNode :=
  program_of
    match trim source with
    | EmptyString => []
    | text =>
        [{| node_type := Text; node_tag := None; node_attributes := None;
            node_children := None; node_value := Some text;
            node_expression := None; node_isStatic := Some true;
            node_loc := Some first_location |}]
    end.

(** The braces of [s] are matched, when [depth] braces are open before it:
    no closing brace comes before its opening one and none is left open. *)
Fixpoint balanced (depth : nat) (s : string) : bool :=
  match s with
  | EmptyString => bool_decide (depth = 0)
  | String c s' =>
      if (c =? "{")%char then balanced (S depth) s'
      else if (c =? "}")%char then
        match depth with
        | 0 => false
        | S depth' => balanced depth' s'
        end
      else balanced depth s'
  end.

(** The tokens for an expression in braces. *)
Definition expression_tokens (body : string) : list Token :=
  [{| tok_type := tk_expr; tok_value := TStr (trim body); tok_loc := first_location |};
   {| tok_type := tk_eof; tok_value := TStr EmptyString;
      tok_loc := end_of ("{" +:+ body +:+ "}") |}].

(** ** The input left to read *)

(** The cursor [st'] is at or after the cursor [st] in the same source:
    what is left at [st'] is the end of what is left at [st]. *)
Definition reads_on (st st' : Tokenizer.t) : Prop :=
  ∃ read, Tokenizer.rest st = read +:+ Tokenizer.rest st'.

(** Every [<] of [s] is followed by [/]: [s] has closing tags only. *)
Fixpoint no_open_tag (s : string) : bool :=
  match s with
  | EmptyString => true
  | String c s' =>
      (if (c =? "<")%char then
         match s' with
         | String d _ => (d =? "/")%char
         | EmptyString => false
         end
       else true) && no_open_tag s'
  end.

(** The value of a token is a trimmed string, not empty for a text. *)
Definition trimmed_value (token : Token) : Prop :=
  match tok_type token with
  | tk_text => ∃ v, tok_value token = TStr v ∧ v ≠ EmptyString ∧ trim v = v
  | tk_expr | tk_close => ∃ v, tok_value token = TStr v ∧ trim v = v
  | _ => True
  end.

(** ** The trees the parser builds *)

(** An attribute value as [readAttribute] makes it: [true] or a string. *)
Definition attribute_value_ok (v : JSValue) : bool :=
  match v with
  | VBool true | VString _ => true
  | _ => false
  end.

(** An open or self-closing token whose value is a tag with such
    attributes. *)
Definition tag_token_ok (token : Token) : Prop :=
  match tok_type token with
  | tk_open | tk_selfClose =>
      ∃ tag attributes, tok_value token = TTag tag attributes
        ∧ Forall (fun kv => attribute_value_ok kv.2 = true) attributes
  | _ => True
  end.

(** A node below the root of a parsed tree: a text with its value, an
    expression with its text, or an element or component with a tag,
    attributes and children of the same kind, and no [isStatic] field; the
    tag of a component, and of no element, starts with an upper-case
    letter. *)
Fixpoint parsed_node (node : ASTNode) : bool :=
  match node with
  | mkASTNode ty tag attributes children value expression isStatic _ =>
      match ty with
      | Text =>
          match value, children, isStatic with
          | Some _, None, Some true => true
          | _, _, _ => false
          end
      | Expression =>
          match expression, children, isStatic with
          | Some _, None, Some false => true
          | _, _, _ => false
          end
      | Element =>
          match tag, attributes, children, isStatic with
          | Some name, Some entries, Some cs, None =>
              negb (starts_upper tag)
              && forallb (fun kv => attribute_value_ok kv.2) entries
              && forallb parsed_node cs
          | _, _, _, _ => false
          end
      | Component =>
          match tag, attributes, children, isStatic with
          | Some name, Some entries, Some cs, None =>
              starts_upper tag
              && forallb (fun kv => attribute_value_ok kv.2) entries
              && forallb parsed_node cs
          | _, _, _, _ => false
          end
      | Program | Fragment => false
      end
  end.

(** A parsed tree: a program of such nodes. *)
Definition parsed_tree (ast : ASTNode) : bool :=
  match node_type ast, node_children ast with
  | Program, Some cs => forallb parsed_node cs
  | _, _ => false
  end.



(** ** How a method completes *)

(** The method returns from every state. *)
Definition returns {S A} (m : M S A) : Prop :=
  ∀ s, ∃ a s', m s = (Normal a, s').

(** The method throws [e] from every state. *)
Definition throws {S A} (e : Exception) (m : M S A) : Prop :=
  ∀ s, ∃ s', m s = (Throw e, s').

(** [throws e m] or [returns m], as [c] says. *)
Definition completes {S A} (e : Exception) (c : bool) (m : M S A) : Prop :=
  if c then throws e m else returns m.

(** The builder visits an element without a tag, or with the empty tag.
    The children of a component are not visited. *)
Fixpoint missing_tag (node : ASTNode) : bool :=
  match node with
  | mkASTNode ty tag _ children _ _ _ _ =>
      match ty with
      | Program | Fragment =>
          match children with
          | Some cs => existsb missing_tag cs
          | None => false
          end
      | Element =>
          negb (truthy tag)
          || match children with
             | Some cs => existsb missing_tag cs
             | None => false
             end
      | Text | Expression | Component => false
      end
  end.

(** ** The instructions of the builder *)

(** The optimizer may change the names in [args], not their number,
    and nothing else of an instruction. *)
Definition same_but_args (i i' : SSAInstruction) : Prop :=
  op i' = op i ∧ dest i' = dest i ∧ value i' = value i
  ∧ metadata i' = metadata i ∧ blockId i' = blockId i
  ∧ length <$> args i' = length <$> args i.

(** The operations the builder emits, each with a destination or none and
    with as many arguments as the visitor gives it: the tag for
    create_element; the element, the key and the value for set_prop; the
    parent and the child for append_child; the component and its props for
    call. *)
Definition builder_shape (inst : SSAInstruction) : bool :=
  match op inst with
  | alloc => bool_decide (is_Some (dest inst))
  | load | create_text =>
      bool_decide (is_Some (dest inst)) && bool_decide (length <$> args inst = None)
  | create_element =>
      bool_decide (is_Some (dest inst)) && bool_decide (length <$> args inst = Some 1)
  | call =>
      bool_decide (is_Some (dest inst)) && bool_decide (length <$> args inst = Some 2)
  | set_prop =>
      bool_decide (dest inst = None) && bool_decide (length <$> args inst = Some 3)
  | append_child =>
      bool_decide (dest inst = None) && bool_decide (length <$> args inst = Some 2)
  | _ => false
  end.

(** The builder state holds the entry block 0 and no other, and every
    instruction in it has the builder's shape. *)
Definition one_block (b : SSABuilder) : Prop :=
  (blocks (ir b)).*1 = [0] ∧ entry (ir b) = 0 ∧ currentBlock b = 0.

Definition shaped (b : SSABuilder) : Prop :=
  Forall (fun inst => builder_shape inst = true) (all_instructions (ir b)).

(** [/[a-z]/]. *)
Definition is_lower (c : ascii) : bool :=
  let n := N_of_ascii c in ((97 <=? n) && (n <=? 122))%N.

(** No instruction in the builder state is marked dynamic. *)
Definition calm (b : SSABuilder) : Prop :=
  Forall (fun inst => metadata_isDynamic inst = false) (all_instructions (ir b)).

(** ** The lines a generator writes *)

(** A method of the generator that keeps the options, only appends to
    the output and, when it returns, has moved the indentation by [f]. *)
Definition shift (f : nat → nat) {A} (m : CG A) : Prop :=
  ∀ g, options (m g).2 = options g
       ∧ (∃ new, output (m g).2 = output g ++ new)
       ∧ ∀ a, (m g).1 = Normal a → indent (m g).2 = f (indent g).

(** The same, with the indentation as it was. *)
Definition tidy {A} (m : CG A) : Prop := shift (fun i => i) m.

(** The factory function around the lines [lines]. *)
Definition factory_around (o : CodeGenOptions) (lines : list string) : string :=
  let pad := if minify o then EmptyString else "  " in
  join (if minify o then EmptyString else newline)
    (["(function(h, mount, patch) {"; pad +:+ dq +:+ "use strict" +:+ dq +:+ ";"] ++
     lines ++ ["})(h, mount, patch);"]).

(** ** The names the builder mints *)

(** [/[0-9]/]. *)
Definition is_digit (c : ascii) : bool :=
  let n := N_of_ascii c in ((48 <=? n) && (n <=? 57))%N.

(** The destinations of the instructions in [insts], in order. *)
Definition dest_list (insts : list SSAInstruction) : list string :=
  omap dest insts.

(** The name [d] is a prefix without digits followed by the numeral of a
    counter value from [lo] up to, but not including, [hi]. *)
Definition minted (lo hi : nat) (d : string) : Prop :=
  ∃ p k, d = p +:+ pretty k
         ∧ all_chars (fun c => negb (is_digit c)) p = true ∧ lo ≤ k < hi.

(** The destinations of [new] are distinct names minted between [lo] and
    [hi]. *)
Definition fresh (lo hi : nat) (new : list SSAInstruction) : Prop :=
  NoDup (dest_list new) ∧ Forall (minted lo hi) (dest_list new).

(** A method of the builder that only appends instructions whose
    destinations it mints. *)
Definition mints {A} (m : B A) : Prop :=
  ∀ b, one_block b →
    one_block (m b).2 ∧ varCounter b ≤ varCounter (m b).2
    ∧ ∃ new, all_instructions (ir (m b).2) = all_instructions (ir b) ++ new
             ∧ fresh (varCounter b) (varCounter (m b).2) new.

(** A name of the builder: a prefix without digits, then a numeral. *)
Definition builder_name (d : string) : Prop :=
  ∃ p (k : nat), d = p +:+ pretty k
                 ∧ all_chars (fun c => negb (is_digit c)) p = true.

(** ** Constants and their readers *)

(** A static alloc, the instruction [constantFolding] records. *)
Definition is_constant (inst : SSAInstruction) : Prop :=
  op inst = alloc ∧ metadata_isStatic inst = true.

(** The destination of a static alloc is a const name of [visitValue]. *)
Definition const_named (inst : SSAInstruction) : Prop :=
  is_constant inst → ∃ k : nat, dest inst = Some ("const" +:+ pretty k).

(** A name that [constantFolding] mints. *)
Definition is_fold (x : option string) : Prop :=
  ∃ k : nat, x = Some ("fold" +:+ pretty k).

(** A character that, where an attribute is awaited, starts none and ends
    no tag: no identifier character, no white space, none of [>], [/]
    and [=]. *)
Definition stray_char (c : ascii) : bool :=
  negb (is_ident c) && negb (is_space c)
  && negb (c =? ">")%char && negb (c =? "/")%char && negb (c =? "=")%char.

(** ** The places of the tokens *)

(** The position [p] comes before [q] in the source. *)
Definition pos_lt (p q : Position) : Prop :=
  line p < line q ∨ (line p = line q ∧ column p < column q).

(** The position of the cursor. *)
Definition cursor (st : Tokenizer.t) : Position :=
  Build_Position (Tokenizer.line st) (Tokenizer.column st).

(** The cursor [st'] is at the place of [st] or after it. *)
Definition not_before (st st' : Tokenizer.t) : Prop :=
  cursor st = cursor st' ∨ pos_lt (cursor st) (cursor st').

(** Every token of the list starts before the tokens after it. *)
Fixpoint ascending (tokens : list Token) : Prop :=
  match tokens with
  | [] => True
  | token :: rest =>
      Forall (fun later => pos_lt (start (tok_loc token)) (start (tok_loc later))) rest
      ∧ ascending rest
  end.

(** A token located at one point, before the cursor [st]. *)
Definition placed_before (st : Tokenizer.t) (token : Token) : Prop :=
  end_ (tok_loc token) = start (tok_loc token)
  ∧ pos_lt (start (tok_loc token)) (cursor st).

(** An open tag with one attribute whose value opens a brace:
    [<name attr={body]. *)
Definition brace_attribute_source (name attr body : string) : string :=
  String "<" (name +:+ String " " (attr +:+ String "=" (String "{" body))).

(** ** The alias table of common-subexpression elimination *)

(** The table entry [d -> d0] is sound for [insts]: [d] is the
    destination of a create_element or create_text, [d0] that of an
    earlier instruction, and the two instructions have the same key (the
    same operation, arguments and printed value). *)
Definition alias_ok (insts : list SSAInstruction) (d d0 : string) : Prop :=
  ∃ j0 j inst0 inst,
    j0 < j ∧ insts !! j0 = Some inst0 ∧ insts !! j = Some inst
    ∧ dest inst0 = Some d0 ∧ dest inst = Some d
    ∧ cse_key inst = cse_key inst0
    ∧ (op inst = create_element ∨ op inst = create_text).

(** The entry [key -> first] of the map [expressions]. *)
Definition first_ok (insts : list SSAInstruction) (key first : string) : Prop :=
  ∃ j0 inst0, insts !! j0 = Some inst0 ∧ dest inst0 = Some first
              ∧ cse_key inst0 = key.

(** ** Names defined before they are read *)

(** The names defined after [insts], when [defined] were before. *)
Fixpoint defined_after (defined : gset (option string))
    (insts : list SSAInstruction) : gset (option string) :=
  match insts with
  | [] => defined
  | inst :: rest =>
      defined_after (if truthy (dest inst) then {[dest inst]} ∪ defined else defined)
                    rest
  end.

(** A method of the builder that only appends instructions, each of which
    reads names that are in [needs] or that an instruction appended before
    it defines; [post] holds of the value returned and of the names the
    appended instructions define. *)
Definition scoped {A : Type} (needs : gset (option string)) (m : B A)
    (post : A → gset (option string) → Prop) : Prop :=
  ∀ b, one_block b →
    one_block (m b).2
    ∧ ∃ new, all_instructions (ir (m b).2) = all_instructions (ir b) ++ new
             ∧ (∀ D, needs ⊆ D → defined_before_use D new = true)
             ∧ ∀ a, (m b).1 = Normal a → post a (defined_after ∅ new).

(** ** Names read after constant folding *)

(** A name [fold<k>] minted when the counter of the builder was at least
    [lo]. *)
Definition folded_name (lo : nat) (x : option string) : Prop :=
  ∃ k : nat, lo ≤ k ∧ x = Some ("fold" +:+ pretty k).

(** The instruction [i'] is [i] with some arguments replaced by such
    names. *)
Definition folded_from (lo : nat) (i i' : SSAInstruction) : Prop :=
  op i' = op i ∧ dest i' = dest i
  ∧ Forall2 (fun x y => y = x ∨ folded_name lo y)
            (default [] (args i)) (default [] (args i')).

(** Every value name an instruction of [insts] reads is the destination of
    an instruction before it, or a fold name that no instruction of [all]
    defines. *)
Fixpoint defined_or_folded (all : list SSAInstruction)
    (defined : gset (option string)) (insts : list SSAInstruction) : Prop :=
  match insts with
  | [] => True
  | inst :: rest =>
      Forall (fun a => a ∈ defined ∨ (is_fold a ∧ a ∉ dest <$> all)) (name_args inst)
      ∧ defined_or_folded all
          (if truthy (dest inst) then {[dest inst]} ∪ defined else defined) rest
  end.

(** ** Plain numerals *)


(** ** Nested tokens *)






(** ** Input that ends inside a tag or an expression *)






(** ** Calls in a running program

    The module declares classes and functions only, no variable of its
    own: the state a call can find or leave behind is in the instances of
    its classes.  [Instances] holds those a program has made so far, each
    class in the order of creation; a reference to an instance is its
    index, and [new] appends.  The state of a parser is
    [tokens.slice(pos)]. *)
Record Instances := {
  tokenizers : list Tokenizer.t;
  parsers : list (list Token);
  builders : list SSABuilder;
  generators : list CodeGenerator;
}.

Definition no_instances : Instances :=
  {| tokenizers := []; parsers := []; builders := []; generators := [] |}.

Definition set_tokenizers (f : list Tokenizer.t → list Tokenizer.t) (h : Instances) :=
  {| tokenizers := f (tokenizers h); parsers := parsers h; builders := builders h;
     generators := generators h |}.
Definition set_parsers (f : list (list Token) → list (list Token)) (h : Instances) :=
  {| tokenizers := tokenizers h; parsers := f (parsers h); builders := builders h;
     generators := generators h |}.
Definition set_builders (f : list SSABuilder → list SSABuilder) (h : Instances) :=
  {| tokenizers := tokenizers h; parsers := parsers h; builders := f (builders h);
     generators := generators h |}.
Definition set_generators (f : list CodeGenerator → list CodeGenerator) (h : Instances) :=
  {| tokenizers := tokenizers h; parsers := parsers h; builders := builders h;
     generators := f (generators h) |}.

(** A call made while the instances [h] exist: [None] when it has not
    returned within the fuel, otherwise its completion and the instances
    that exist after it. *)
Definition Call (A : Type) : Type := Instances → option (Completion A * Instances).

Definition call_ret {A} (a : A) : Call A := fun h => Some (Normal a, h).

Definition call_bind {A C} (m : Call A) (f : A → Call C) : Call C :=
  fun h =>
    match m h with
    | Some (Normal a, h') => f a h'
    | Some (Throw e, h') => Some (Throw e, h')
    | None => None
    end.

Notation "'do*' x ':=' c1 'in' c2" := (call_bind c1 (fun x => c2))
  (at level 10, x name, c1 at level 100, c2 at level 200).

(** A method called on what is no instance. *)
Definition no_such_instance : Exception :=
  TypeError "Cannot read properties of undefined".

(** [new Tokenizer(source)], [new Parser()], [new SSABuilder()] and
    [new CodeGenerator(options)]: the reference to the new instance. *)
Definition new_tokenizer (source : string) : Call nat :=
  fun h => Some (Normal (length (tokenizers h)),
                 set_tokenizers (fun l => l ++ [Tokenizer.new source]) h).
Definition new_parser : Call nat :=
  fun h => Some (Normal (length (parsers h)), set_parsers (fun l => l ++ [[]]) h).
Definition new_builder : Call nat :=
  fun h => Some (Normal (length (builders h)),
                 set_builders (fun l => l ++ [new_SSABuilder]) h).
Definition new_generator (o : PartialCodeGenOptions) : Call nat :=
  fun h => Some (Normal (length (generators h)),
                 set_generators (fun l => l ++ [new_CodeGenerator o]) h).

(** [tokenizer.tokenize()] on the instance [t]. *)
Definition tokenizer_tokenize (fuel : nat) (t : nat) : Call (list Token) :=
  fun h =>
    match tokenizers h !! t with
    | Some st =>
        match Tokenizer.tokenize_loop fuel st [] with
        | Some (tokens, st') =>
            Some (Normal (tokens ++
                          [{| tok_type := tk_eof; tok_value := TStr EmptyString;
                              tok_loc := Tokenizer.getLocation st' |}]),
                  set_tokenizers (<[t := st']>) h)
        | None => None
        end
    | None => Some (Throw no_such_instance, h)
    end.

(** [this.tokens = tokens; this.pos = 0] and [this.parseChildren()] on the
    parser [p]. *)
Definition parser_set_tokens (p : nat) (tokens : list Token) : Call unit :=
  fun h => Some (Normal tt, set_parsers (<[p := tokens]>) h).

Definition parser_parseChildren (fuel : nat) (p : nat) : Call (list ASTNode) :=
  fun h =>
    match parsers h !! p with
    | Some ts =>
        match Parser.parseChildren fuel ts with
        | Some (children, ts') =>
            Some (Normal children, set_parsers (<[p := ts']>) h)
        | None => None
        end
    | None => Some (Throw no_such_instance, h)
    end.

(** [parser.parse(source)] on the parser [p]. *)
Definition parser_parse (fuel : nat) (p : nat) (source : string) : Call ASTNode :=
  do* t := new_tokenizer source in
  do* tokens := tokenizer_tokenize fuel t in
  do* _ := parser_set_tokens p tokens in
  do* children := parser_parseChildren fuel p in
  call_ret {| node_type := Program; node_tag := None; node_attributes := None;
              node_children := Some children; node_value := None;
              node_expression := None; node_isStatic := None;
              node_loc := None |}.

(** A method of the builder or of the generator called on the instance
    with the given reference. *)
Definition on_builder {A} (b : nat) (m : B A) : Call A :=
  fun h =>
    match builders h !! b with
    | Some st => Some ((m st).1, set_builders (<[b := (m st).2]>) h)
    | None => Some (Throw no_such_instance, h)
    end.

Definition on_generator {A} (g : nat) (m : CG A) : Call A :=
  fun h =>
    match generators h !! g with
    | Some st => Some ((m st).1, set_generators (<[g := (m st).2]>) h)
    | None => Some (Throw no_such_instance, h)
    end.

(** The exported functions, called while instances exist. *)
Definition parse_call (fuel : nat) (source : string) : Call ASTNode :=
  do* p := new_parser in
  parser_parse fuel p source.

Definition buildSSA_call (ast : ASTNode) : Call SSAIR :=
  do* b := new_builder in
  on_builder b (build ast).

Definition generateCode_call (ir : SSAIR) (o : PartialCodeGenOptions) : Call string :=
  do* g := new_generator o in
  on_generator g (generate ir).

Definition generateOptimizedCode_call (ir : SSAIR) : Call string :=
  generateCode_call ir
    {| opt_target := None; opt_minify := Some true; opt_inlineCache := Some true;
       opt_staticOptimization := Some true |}.

Definition compile_call (fuel : nat) (source : string) : Call string :=
  do* ast := parse_call fuel source in
  do* ir := buildSSA_call ast in
  generateOptimizedCode_call ir.

Definition compileWithOptions_call (fuel : nat) (source : string)
    (options : PartialCodeGenOptions) : Call string :=
  do* ast := parse_call fuel source in
  do* ir := buildSSA_call ast in
  generateCode_call ir options.

(** Every instance of [h] is in [h'], in the state it has in [h]. *)
Definition keeps_instances (h h' : Instances) : Prop :=
  tokenizers h `prefix_of` tokenizers h'
  ∧ parsers h `prefix_of` parsers h'
  ∧ builders h `prefix_of` builders h'
  ∧ generators h `prefix_of` generators h'.

(** The instances that exist after a call. *)
Definition instances_after {A} (c : Call A) (h : Instances) : Instances :=
  match c h with
  | Some (_, h') => h'
  | None => h
  end.

(** * Properties *)

(** ** The target option is never read *)

Lemma blind_ret {A} (a : A) : target_blind (ret a).
Proof. done. Qed.

Lemma blind_throw {A} e : target_blind (@throw _ A e).
Proof. done. Qed.

Lemma blind_bind {A B} (m : CG A) (f : A → CG B) :
  target_blind m → (∀ a, target_blind (f a)) → target_blind (bind m f).
Proof.
  intros Hm Hf t g. unfold bind. rewrite Hm.
  destruct (m g) as [[a|e] g']; simpl; [apply Hf | done].
Qed.

Lemma blind_get_bind {B} (f : CodeGenerator → CG B) :
  (∀ t g, f (with_target t g) = f g) → (∀ g, target_blind (f g)) →
  target_blind (bind get f).
Proof.
  intros Hf1 Hf2 t g. unfold bind, get. simpl. rewrite Hf1. apply Hf2.
Qed.

Lemma blind_for_each {A} (body : A → CG unit) l :
  (∀ x, target_blind (body x)) → target_blind (for_each body l).
Proof.
  intros Hb. induction l as [|x l IH]; simpl; [apply blind_ret|].
  apply blind_bind; [apply Hb | intros _; apply IH].
Qed.

Lemma blind_map_each {A B} (f : A → CG B) l :
  (∀ x, target_blind (f x)) → target_blind (map_each f l).
Proof.
  intros Hf. induction l as [|x l IH]; simpl; [apply blind_ret|].
  apply blind_bind; [apply Hf | intros y].
  apply blind_bind; [apply IH | intros ys; apply blind_ret].
Qed.

Lemma blind_modify_output f : target_blind (modify (set_output f)).
Proof. done. Qed.
Lemma blind_modify_indent f : target_blind (modify (set_indent f)).
Proof. done. Qed.
Lemma blind_modify_varMap f : target_blind (modify (set_varMap f)).
Proof. done. Qed.
Lemma blind_modify_staticCache f : target_blind (modify (set_staticCache f)).
Proof. done. Qed.

Ltac blind_step :=
  match goal with
  | |- target_blind (bind get _) =>
      apply blind_get_bind; [intros ??; reflexivity | intros ?]
  | |- target_blind (bind _ _) => apply blind_bind; [| intros ?]
  | |- target_blind (ret _) => apply blind_ret
  | |- target_blind (throw _) => apply blind_throw
  | |- target_blind (modify (set_output _)) => apply blind_modify_output
  | |- target_blind (modify (set_indent _)) => apply blind_modify_indent
  | |- target_blind (modify (set_varMap _)) => apply blind_modify_varMap
  | |- target_blind (modify (set_staticCache _)) => apply blind_modify_staticCache
  | |- target_blind (for_each _ _) => apply blind_for_each; intros ?
  | |- target_blind (map_each _ _) => apply blind_map_each; intros ?
  | |- target_blind (if ?b then _ else _) => destruct b
  | |- target_blind (match ?x with _ => _ end) => destruct x
  | H : _ |- _ => apply H
  end.

Lemma blind_getVarName o : target_blind (getVarName o).
Proof. unfold getVarName. repeat blind_step. Qed.

Lemma blind_emit code : target_blind (emit code).
Proof. unfold emit. repeat blind_step. Qed.

Lemma blind_indentInc : target_blind indentInc.
Proof. apply blind_modify_indent. Qed.
Lemma blind_indentDec : target_blind indentDec.
Proof. apply blind_modify_indent. Qed.

Lemma blind_args_of inst : target_blind (args_of inst).
Proof. unfold args_of. repeat blind_step. Qed.

Ltac blind :=
  repeat first
    [ apply blind_getVarName | apply blind_emit | apply blind_indentInc
    | apply blind_indentDec | apply blind_args_of | blind_step ].

Lemma blind_emitInstruction inst : target_blind (emitInstruction inst).
Proof.
  unfold emitInstruction.
  destruct (op inst);
    unfold emitAlloc, emitLoad, emitStore, emitCall, emitCreateElement,
      emitCreateText, emitSetProp, emitAppendChild, emitMount, emitPatch,
      emitReturn; blind.
Qed.

Lemma blind_generate ir : target_blind (generate ir).
Proof.
  unfold generate, emitHeader, emitBlocks, emitFooter.
  repeat first [ apply blind_emitInstruction | blind ].
Qed.

(** C8: for every IR and every setting of minify, inlineCache and
    staticOptimization, generateCode returns the same result (the same
    string, or the same exception) for target 'js' and for target 'wasm'. *)
Theorem target_js_wasm_same_output (ir : SSAIR) (m ic so : option bool) :
  generateCode ir
    {| opt_target := Some js; opt_minify := m; opt_inlineCache := ic;
       opt_staticOptimization := so |} =
  generateCode ir
    {| opt_target := Some wasm; opt_minify := m; opt_inlineCache := ic;
       opt_staticOptimization := so |}.
Proof.
  unfold generateCode.
  change (new_CodeGenerator
            {| opt_target := Some wasm; opt_minify := m; opt_inlineCache := ic;
               opt_staticOptimization := so |})
    with (with_target wasm
            (new_CodeGenerator
               {| opt_target := Some js; opt_minify := m; opt_inlineCache := ic;
                  opt_staticOptimization := so |})).
  by rewrite blind_generate.
Qed.

(** ** Short names *)

Lemma prepend_char_letter k name :
  k < 26 → ∃ c, prepend_char k name = String c name ∧ letter_index c = k.
Proof.
  intros Hk.
  do 26 (destruct k as [|k]; [eexists; split; reflexivity|]). lia.
Qed.

Lemma append_cons c s1 s2 : String c s1 +:+ s2 = String c (s1 +:+ s2).
Proof. reflexivity. Qed.

Lemma append_nil_l s : EmptyString +:+ s = s.
Proof. reflexivity. Qed.

Lemma numeral_value_from_app acc d1 d2 :
  numeral_value_from acc (d1 +:+ d2) = numeral_value_from (numeral_value_from acc d1) d2.
Proof.
  revert acc. induction d1 as [|c d1 IH]; intros acc; [done|].
  rewrite append_cons. simpl. apply IH.
Qed.

Lemma append_assoc_cons d c name :
  d +:+ String c name = (d +:+ String c EmptyString) +:+ name.
Proof. induction d as [|c' d IH]; [done|]. rewrite !append_cons. by f_equal. Qed.

Lemma append_nil_r s : s +:+ EmptyString = s.
Proof. induction s as [|c s IH]; [done|]. rewrite append_cons. by f_equal. Qed.

Lemma shortNameLoop_spec n name :
  ∃ d, shortNameLoop n name = d +:+ name ∧ numeral_value_from 0 d = n.
Proof.
  funelim (shortNameLoop n name).
  - destruct (prepend_char_letter (n mod 26) name) as (c & Hc & Hi);
      [apply Nat.mod_upper_bound; lia|].
    rewrite Hc in *.
    match goal with
    | IH : ∃ d, shortNameLoop _ _ = _ ∧ _ |- _ => destruct IH as (d & Hd & Hv)
    end.
    exists (d +:+ String c EmptyString). split.
    + rewrite Hd. apply append_assoc_cons.
    + rewrite numeral_value_from_app, Hv.
      change (n `div` 26 * 26 + letter_index c = n). rewrite Hi.
      pose proof (Nat.div_mod_eq n 26). lia.
  - destruct (prepend_char_letter (n mod 26) name) as (c & Hc & Hi);
      [apply Nat.mod_upper_bound; lia|].
    exists (String c EmptyString). split; [by rewrite Hc|].
    change (0 * 26 + letter_index c = n). rewrite Hi.
    pose proof (Nat.div_mod_eq n 26). lia.
Qed.

Lemma numeral_value_generateShortName n :
  numeral_value (generateShortName n) = n.
Proof.
  unfold generateShortName, numeral_value.
  destruct (shortNameLoop_spec n EmptyString) as (d & Hd & Hv).
  by rewrite Hd, append_nil_r.
Qed.

Lemma generateShortName_inj n1 n2 :
  generateShortName n1 = generateShortName n2 → n1 = n2.
Proof.
  intros H. rewrite <- (numeral_value_generateShortName n1), H.
  apply numeral_value_generateShortName.
Qed.

(** ** The renaming map of one generator instance *)

Lemma short_names_ok_empty : short_names_ok ∅.
Proof. split; intros *; by rewrite lookup_empty. Qed.

Lemma short_names_ok_insert (m : gmap (option string) string) k :
  m !! k = None → short_names_ok m →
  short_names_ok (<[k := generateShortName (size m)]> m).
Proof.
  intros Hk [Hr Hi]. split.
  - intros k' s. rewrite map_size_insert_None by done.
    rewrite lookup_insert. case_decide as Hkk.
    + intros [= <-]. exists (size m). split; [lia|done].
    + intros (i & ? & ?)%Hr. exists i. split; [lia|done].
  - intros k1 k2 s. rewrite !lookup_insert.
    repeat case_decide; subst; try done.
    + intros [= Hs] (i & Hlt & ->)%Hr.
      apply generateShortName_inj in Hs. lia.
    + intros (i & Hlt & ->)%Hr [= Hs].
      apply generateShortName_inj in Hs. lia.
    + apply Hi.
Qed.

Lemma extends_refl g : extends g g.
Proof. by split_and!. Qed.

Lemma extends_trans g1 g2 g3 : extends g1 g2 → extends g2 g3 → extends g1 g3.
Proof.
  intros (Ho1 & Hs1 & Hk1) (Ho2 & Hs2 & Hk2). split_and!.
  - congruence.
  - by etrans.
  - auto.
Qed.

Lemma stepwise_ret {A} (a : A) : stepwise (ret a).
Proof. intros g. apply extends_refl. Qed.

Lemma stepwise_throw {A} e : stepwise (@throw _ A e).
Proof. intros g. apply extends_refl. Qed.

Lemma stepwise_bind {A B} (m : CG A) (f : A → CG B) :
  stepwise m → (∀ a, stepwise (f a)) → stepwise (bind m f).
Proof.
  intros Hm Hf g. unfold bind. specialize (Hm g).
  destruct (m g) as [[a|e] g']; simpl in *; [|done].
  eapply extends_trans; [done|apply Hf].
Qed.

Lemma stepwise_get_bind {B} (f : CodeGenerator → CG B) :
  (∀ g, stepwise (f g)) → stepwise (bind get f).
Proof. intros Hf g. apply Hf. Qed.

Lemma stepwise_for_each {A} (body : A → CG unit) l :
  (∀ x, stepwise (body x)) → stepwise (for_each body l).
Proof.
  intros Hb. induction l as [|x l IH]; simpl; [apply stepwise_ret|].
  apply stepwise_bind; [apply Hb | intros _; apply IH].
Qed.

Lemma stepwise_map_each {A B} (f : A → CG B) l :
  (∀ x, stepwise (f x)) → stepwise (map_each f l).
Proof.
  intros Hf. induction l as [|x l IH]; simpl; [apply stepwise_ret|].
  apply stepwise_bind; [apply Hf | intros y].
  apply stepwise_bind; [apply IH | intros ys; apply stepwise_ret].
Qed.

Lemma stepwise_modify_output f : stepwise (modify (set_output f)).
Proof. intros g. by split_and!. Qed.
Lemma stepwise_modify_indent f : stepwise (modify (set_indent f)).
Proof. intros g. by split_and!. Qed.
Lemma stepwise_modify_staticCache f : stepwise (modify (set_staticCache f)).
Proof. intros g. by split_and!. Qed.

Lemma stepwise_getVarName o : stepwise (getVarName o).
Proof.
  intros g. unfold getVarName, bind, get. simpl.
  destruct (varMap g !! o) as [s|] eqn:Hs; [apply extends_refl|].
  destruct (minify (options g)); [|apply extends_refl].
  simpl. split_and!; [done| |].
  - by apply insert_subseteq.
  - by apply short_names_ok_insert.
Qed.

Ltac stepwise_step :=
  match goal with
  | |- stepwise (bind get _) => apply stepwise_get_bind; intros ?
  | |- stepwise (bind _ _) => apply stepwise_bind; [| intros ?]
  | |- stepwise (ret _) => apply stepwise_ret
  | |- stepwise (throw _) => apply stepwise_throw
  | |- stepwise (getVarName _) => apply stepwise_getVarName
  | |- stepwise (modify (set_output _)) => apply stepwise_modify_output
  | |- stepwise (modify (set_indent _)) => apply stepwise_modify_indent
  | |- stepwise (modify (set_staticCache _)) => apply stepwise_modify_staticCache
  | |- stepwise (for_each _ _) => apply stepwise_for_each; intros ?
  | |- stepwise (map_each _ _) => apply stepwise_map_each; intros ?
  | |- stepwise (if ?b then _ else _) => destruct b
  | |- stepwise (match ?x with _ => _ end) => destruct x
  end.

Lemma stepwise_emit code : stepwise (emit code).
Proof. unfold emit. repeat stepwise_step. Qed.

Lemma stepwise_emitInstruction inst : stepwise (emitInstruction inst).
Proof.
  unfold emitInstruction.
  destruct (op inst);
    unfold emitAlloc, emitLoad, emitStore, emitCall, emitCreateElement,
      emitCreateText, emitSetProp, emitAppendChild, emitMount, emitPatch,
      emitReturn, indentInc, indentDec, args_of;
    repeat first [ apply stepwise_emit | stepwise_step ].
Qed.

Lemma stepwise_generate ir : stepwise (generate ir).
Proof.
  unfold generate, emitHeader, emitBlocks, emitFooter, indentInc, indentDec.
  repeat first [ apply stepwise_emit | apply stepwise_emitInstruction | stepwise_step ].
Qed.

(** A lookup in a minifying generator returns the entry the map then
    holds for the name. *)
Lemma getVarName_recorded o g :
  minify (options g) = true →
  ∃ s, (getVarName o g).1 = Normal (Some s) ∧ varMap (getVarName o g).2 !! o = Some s.
Proof.
  intros Hm. unfold getVarName, bind, get. simpl.
  destruct (varMap g !! o) as [s|] eqn:Hs; [by exists s|].
  rewrite Hm. simpl. eexists. split; [done|]. by rewrite lookup_insert_eq.
Qed.

Lemma map_each_cons {S A C} (f : A → M S C) x l :
  map_each f (x :: l) =
  bind (f x) (fun y => bind (map_each f l) (fun ys => ret (y :: ys))).
Proof. reflexivity. Qed.

(** A sequence of lookups in a minifying generator returns, for each
    name, the entry that the map holds for it at the end. *)
Lemma map_each_getVarName_recorded (l : list (option string)) :
  ∀ g, minify (options g) = true →
  ∃ names g', map_each getVarName l g = (Normal names, g') ∧ extends g g'
    ∧ Forall2 (fun o r => ∃ s, r = Some s ∧ varMap g' !! o = Some s) l names.
Proof.
  induction l as [|o l IH]; intros g Hm.
  - eexists _, _. split_and!; [done|apply extends_refl|constructor].
  - destruct (getVarName_recorded o g Hm) as (s & Hres & Hrec).
    pose proof (stepwise_getVarName o g) as Hext1.
    destruct (getVarName o g) as [res g1] eqn:Hrun. cbn [fst snd] in *. subst res.
    destruct (IH g1) as (names & g' & Hrun' & Hext2 & Hall).
    { destruct Hext1 as (-> & _). done. }
    exists (Some s :: names), g'. split_and!.
    + rewrite map_each_cons. unfold bind. by rewrite Hrun, Hrun'.
    + by eapply extends_trans.
    + constructor; [|done]. exists s. split; [done|].
      destruct Hext2 as (_ & Hsub & _).
      by eapply lookup_weaken.
Qed.

(** C6: with minify on, the renaming built by one generator is injective:
    in the renaming map that a generate call leaves, two distinct original
    names never hold the same short name; and in any sequence of lookups
    on a new generator, two distinct original names never receive the same
    short name. *)
Theorem minified_renaming_injective (ir : SSAIR) (o : PartialCodeGenOptions)
    (o1 o2 : option string) (s1 s2 : string) :
  minify (options (new_CodeGenerator o)) = true →
  varMap (generate ir (new_CodeGenerator o)).2 !! o1 = Some s1 →
  varMap (generate ir (new_CodeGenerator o)).2 !! o2 = Some s2 →
  o1 ≠ o2 →
  s1 ≠ s2
  ∧ ∀ (l : list (option string)) i j,
      l !! i = Some o1 → l !! j = Some o2 →
      ∃ names, (map_each getVarName l (new_CodeGenerator o)).1 = Normal names
               ∧ names !! i ≠ names !! j ∧ is_Some (names !! i) ∧ is_Some (names !! j).
Proof.
  intros Hm H1 H2 Hne. split.
  - intros ->.
    destruct (stepwise_generate ir (new_CodeGenerator o)) as (_ & _ & Hok).
    destruct (Hok short_names_ok_empty) as [_ Hinj].
    by apply Hne, (Hinj o1 o2 s2).
  - intros l i j Hi Hj.
    destruct (map_each_getVarName_recorded l (new_CodeGenerator o) Hm)
      as (names & g' & Hrun & (_ & _ & Hok) & Hall).
    destruct (Hok short_names_ok_empty) as [_ Hinj].
    exists names. rewrite Hrun. split; [done|].
    destruct (Forall2_lookup_l _ _ _ _ _ Hall Hi) as (r1 & Hr1 & t1 & -> & Ht1).
    destruct (Forall2_lookup_l _ _ _ _ _ Hall Hj) as (r2 & Hr2 & t2 & -> & Ht2).
    rewrite Hr1, Hr2. split_and!; [|done..].
    intros [= ->]. by apply Hne, (Hinj o1 o2 t2).
Qed.




Lemma minified_renaming_injective_witness :
  ("a" : string) ≠ "b"
  ∧ ∀ (l : list (option string)) i j,
      l !! i = Some (Some "x0") → l !! j = Some (Some "x1") →
      ∃ names, (map_each getVarName l (new_CodeGenerator minify_on)).1 = Normal names
               ∧ names !! i ≠ names !! j ∧ is_Some (names !! i) ∧ is_Some (names !! j).
Proof.
  apply (minified_renaming_injective
           (single_block [load_inst "x0" "p"; load_inst "x1" "q"]) minify_on
           (Some "x0") (Some "x1") "a" "b").
  - reflexivity.
  - vm_compute. reflexivity.
  - vm_compute. reflexivity.
  - discriminate.
Defined.

(** ** A missing entry block *)

(** C9, as amended: for every IR whose block map has no entry under its
    entry id, generateCode raises no error and emits the factory function
    alone (opening line, directive, cache declaration when static
    optimization is on, closing line); no render function is emitted. *)
Theorem missing_entry_emits_factory_only (ir : SSAIR) (o : PartialCodeGenOptions) :
  Map_get (blocks ir) (entry ir) = None →
  generateCode ir o = Normal (factory_only (options (new_CodeGenerator o)))
  ∧ contains "render" (factory_only (options (new_CodeGenerator o))) = false.
Proof.
  intros Hentry. unfold generateCode, generate, emitBlocks. rewrite Hentry.
  destruct o as [t [[]|] ic [[]|]]; split; vm_compute; reflexivity.
Qed.

Lemma missing_entry_emits_factory_only_witness :
  generateCode no_entry_block minify_on =
    Normal (factory_only (options (new_CodeGenerator minify_on)))
  ∧ contains "render" (factory_only (options (new_CodeGenerator minify_on))) = false.
Proof.
  apply (missing_entry_emits_factory_only no_entry_block minify_on).
  reflexivity.
Defined.

(** C9, the statement as the specification has it, fails: for an IR with
    no entry block the output holds no render function at all, and it is
    not the output for an entry block without instructions, whose render
    function has an empty body. *)
Lemma missing_entry_has_no_render_function :
  Map_get (blocks no_entry_block) (entry no_entry_block) = None ∧
  generateOptimizedCode no_entry_block ≠ generateOptimizedCode (single_block []) ∧
  (∃ out, generateOptimizedCode (single_block []) = Normal out
          ∧ contains "return (function render(props, state) {});" out = true) ∧
  ∃ out, generateOptimizedCode no_entry_block = Normal out
         ∧ contains "render" out = false.
Proof.
  split_and!.
  - reflexivity.
  - vm_compute. intros [=].
  - eexists. split; [vm_compute; reflexivity | vm_compute; reflexivity].
  - eexists. split; [vm_compute; reflexivity | vm_compute; reflexivity].
Qed.


(** ** The optimizer passes never throw and keep the instruction heads *)

Lemma newVar_run p b :
  newVar p b = (Normal (p +:+ pretty (varCounter b)), set_varCounter S b).
Proof. reflexivity. Qed.

Lemma fold_args_run a :
  ∀ c b, ∃ a' c' b', fold_args a c b = (Normal (a', c'), b') ∧ ir b' = ir b.
Proof.
  induction a as [|arg rest IH]; intros c b; simpl.
  - by eexists _, _, _.
  - destruct (c !! arg) as [val|].
    + unfold bind at 1. rewrite newVar_run.
      destruct (IH (<[Some ("fold" +:+ pretty (varCounter b)) := val]> c)
                  (set_varCounter S b)) as (a' & c' & b' & Hrun & Hir).
      unfold bind. rewrite Hrun. by eexists _, _, _.
    + destruct (IH c b) as (a' & c' & b' & Hrun & Hir).
      unfold bind. rewrite Hrun. by eexists _, _, _.
Qed.

Lemma fold_inst_run inst c b :
  ∃ inst' c' b', fold_inst inst c b = (Normal (inst', c'), b') ∧ ir b' = ir b
                 ∧ same_head inst inst'.
Proof.
  unfold fold_inst. destruct (args inst) as [a|] eqn:Ha.
  - destruct (fold_args_run a c b) as (a' & c' & b' & Hrun & Hir).
    unfold bind. rewrite Hrun. by eexists _, _, _.
  - by eexists _, _, _.
Qed.

Lemma fold_insts_run insts :
  ∀ c b, ∃ insts' c' b', fold_insts insts c b = (Normal (insts', c'), b')
                         ∧ ir b' = ir b ∧ Forall2 same_head insts insts'.
Proof.
  induction insts as [|inst rest IH]; intros c b; simpl.
  - eexists _, _, _. by split_and!.
  - destruct (fold_inst_run inst c b) as (inst' & c1 & b1 & Hrun1 & Hir1 & Hh).
    destruct (IH c1 b1) as (rest' & c2 & b2 & Hrun2 & Hir2 & Hrest).
    unfold bind. rewrite Hrun1. simpl. rewrite Hrun2.
    eexists _, _, _. split_and!; [done|congruence|by constructor].
Qed.

Lemma fold_blocks_run bs :
  ∀ c b, ∃ bs' c' b',
    fold_blocks bs c b = (Normal (bs', c'), b') ∧ ir b' = ir b
    ∧ Forall2 same_head (bs ≫= fun kb => instructions kb.2)
                        (bs' ≫= fun kb => instructions kb.2).
Proof.
  induction bs as [|kb rest IH]; intros c b; simpl.
  - eexists _, _, _. by split_and!.
  - destruct (fold_insts_run (instructions kb.2) c b)
      as (insts' & c1 & b1 & Hrun1 & Hir1 & Hh).
    destruct (IH c1 b1) as (rest' & c2 & b2 & Hrun2 & Hir2 & Hrest).
    unfold bind. rewrite Hrun1. simpl. rewrite Hrun2.
    eexists _, _, _. split_and!; [done|congruence|].
    simpl. by apply Forall2_app.
Qed.

Lemma constantFolding_run b :
  ∃ b', constantFolding b = (Normal tt, b')
        ∧ Forall2 same_head (all_instructions (ir b)) (all_instructions (ir b')).
Proof.
  unfold constantFolding.
  destruct (fold_blocks_run (blocks (ir b))
              (collect_constants (all_instructions (ir b))) b)
    as (bs' & c' & b' & Hrun & Hir & Hh).
  unfold bind, get. simpl. rewrite Hrun. simpl.
  eexists. split; [done|]. done.
Qed.

Lemma deadCodeElimination_run b :
  ∃ b', deadCodeElimination b = (Normal tt, b')
        ∧ all_instructions (ir b') =
          filter (dce_keep (used_names (ir b))) (all_instructions (ir b)).
Proof.
  eexists. split; [reflexivity|].
  unfold all_instructions. simpl.
  induction (blocks (ir b)) as [|kb rest IH]; [done|].
  rewrite fmap_cons, !bind_cons, filter_app. simpl. by rewrite IH.
Qed.

Lemma commonSubexpressionElimination_run b :
  ∃ b', commonSubexpressionElimination b = (Normal tt, b')
        ∧ all_instructions (ir b') = all_instructions (ir b).
Proof. by eexists. Qed.

Lemma optimize_run b :
  ∃ b', optimize b = (Normal tt, b')
        ∧ Forall2 same_head
            (filter (dce_keep (used_names (ir b))) (all_instructions (ir b)))
            (all_instructions (ir b')).
Proof.
  unfold optimize.
  destruct (deadCodeElimination_run b) as (b1 & Hrun1 & H1).
  destruct (constantFolding_run b1) as (b2 & Hrun2 & H2).
  destruct (commonSubexpressionElimination_run b2) as (b3 & Hrun3 & H3).
  exists b3. split; [|by rewrite H3, <- H1].
  unfold bind. by rewrite Hrun1, Hrun2, Hrun3.
Qed.

(** ** Dead-code elimination *)

Lemma buildSSA_run ast i :
  buildSSA ast = Normal i →
  Forall2 same_head
    (filter (dce_keep (used_names (ir (after_visit ast))))
            (all_instructions (ir (after_visit ast))))
    (all_instructions i).
Proof.
  unfold buildSSA, build, after_visit. unfold bind at 1.
  destruct (visitNode ast new_SSABuilder) as [[r|e] b1]; [|done].
  destruct (optimize_run b1) as (b2 & Hrun & Hh).
  unfold bind, get. rewrite Hrun. simpl. by intros [= <-].
Qed.

(** C4, as amended: in the optimized IR returned by buildSSA, every
    instruction with a destination whose op is not call or store (so every
    alloc, load, create_element and create_text) has its destination among
    the argument names of the instructions the builder emitted, before the
    optimizer ran. *)
Theorem dce_keeps_what_was_read (ast : ASTNode) (i : SSAIR) :
  buildSSA ast = Normal i →
  Forall (read_before_optimization ast) (all_instructions i).
Proof.
  intros Hh%buildSSA_run.
  eapply Forall2_Forall_r; [exact Hh|].
  apply Forall_forall. intros inst0 [Hkeep _]%list_elem_of_filter inst [Hop Hdest].
  unfold read_before_optimization. rewrite Hop, Hdest. intros Ht Hc Hs.
  unfold dce_keep in Hkeep. rewrite Ht in Hkeep. simpl in Hkeep.
  rewrite (bool_decide_eq_false_2 _ Hc), (bool_decide_eq_false_2 _ Hs) in Hkeep.
  rewrite !orb_false_r in Hkeep. by apply bool_decide_unpack in Hkeep.
Qed.

Lemma dce_keeps_what_was_read_witness :
  Forall (read_before_optimization
            (program_of [element_of "div" [("id", VString "x")] [text_of "hi"]]))
    (all_instructions
       (optimized (program_of [element_of "div" [("id", VString "x")] [text_of "hi"]]))).
Proof.
  apply (dce_keeps_what_was_read
           (program_of [element_of "div" [("id", VString "x")] [text_of "hi"]])).
  vm_compute. reflexivity.
Defined.

(** C4, the statement as the specification has it, fails.  The pass runs
    once, on the names read before it: in a fragment whose value nobody
    reads, the fragment is dropped and the text it read stays, unread in
    the IR returned; and a text stays when its name is also the tag of an
    element. *)
Lemma unread_value_survives :
  (∃ i, buildSSA (program_of [fragment_of [text_of "a"]]) = Normal i
        ∧ dest <$> all_instructions i = [Some "txt1"]
        ∧ op <$> all_instructions i = [create_text]
        ∧ used_names i = ∅
        ∧ length (unreferenced i) = 1) ∧
  (∃ ast i, parse 10 "<txt1/>hello" = Some ast ∧ buildSSA ast = Normal i
        ∧ dest <$> all_instructions i = [Some "txt1"]
        ∧ op <$> all_instructions i = [create_text]
        ∧ used_names i = ∅
        ∧ length (unreferenced i) = 1).
Proof.
  split.
  - eexists. split_and!; [vm_compute; reflexivity|..]; vm_compute; reflexivity.
  - eexists _, _. split_and!; [vm_compute; reflexivity..| | | |];
      vm_compute; reflexivity.
Qed.

(** ** Names that are read but never defined *)

(** C2 fails on the code: for the source [<div id='x'></div>] the builder
    emits a well scoped block, dead-code elimination keeps it well scoped,
    and constant folding then rewrites the argument const1 of set_prop to
    the fresh name fold2, which no instruction of the IR returned defines. *)
Theorem constant_folding_breaks_scoping :
  ∃ ast i, parse 10 "<div id='x'></div>" = Some ast ∧ buildSSA ast = Normal i
    ∧ well_scoped (ir (after_visit ast)) = true
    ∧ well_scoped (ir (after_dce ast)) = true
    ∧ well_scoped (ir (after_folding ast)) = false
    ∧ well_scoped i = false
    ∧ op <$> all_instructions i = [create_element; alloc; set_prop]
    ∧ dest <$> all_instructions i = [Some "el0"; Some "const1"; None]
    ∧ args <$> all_instructions i =
        [Some [Some "div"]; None; Some [Some "el0"; Some "id"; Some "fold2"]]
    ∧ Some "fold2" ∉ dest_names i.
Proof.
  eexists _, _.
  split_and!; [vm_compute; reflexivity..|].
  apply (bool_decide_unpack _). vm_compute. exact I.
Qed.

(** ** The render function returns nothing *)

(** C1 fails on the code: for the source [<div>{msg}</div>] the builder's
    result is the value el0, yet the render function that compile emits
    ends with the statement that appends the child; it has no return
    statement.  For the source [hi] the result is txt0 and the body of
    render is empty. *)
Theorem render_does_not_return_root :
  (∃ ast, parse 10 "<div>{msg}</div>" = Some ast
          ∧ (visitNode ast new_SSABuilder).1 = Normal "el0"
          ∧ compile 10 "<div>{msg}</div>" = Some (Normal compiled_div_msg)
          ∧ contains "return a" compiled_div_msg = false) ∧
  (∃ ast, parse 10 "hi" = Some ast
          ∧ (visitNode ast new_SSABuilder).1 = Normal "txt0"
          ∧ compile 10 "hi" = Some (Normal compiled_hi)
          ∧ contains "render(props, state) {});" compiled_hi = true).
Proof.
  split; eexists; split_and!; vm_compute; reflexivity.
Qed.

(** Induction on a syntax tree, with the property for all children. *)
Lemma ASTNode_children_ind (P : ASTNode → Prop) :
  (∀ ty tag attributes children v e s l,
     match children with Some cs => Forall P cs | None => True end →
     P (mkASTNode ty tag attributes children v e s l)) →
  ∀ node, P node.
Proof.
  intros H. fix IH 1. intros [ty tag attributes children v e s l].
  apply H. destruct children as [cs|]; [|exact I].
  induction cs as [|c cs IHcs]; constructor; [apply IH | apply IHcs].
Qed.

Section keeps.
Context (P : SSABuilder → Prop).

Lemma keeps_ret {A} (a : A) : keeps P (ret a).
Proof. by intros b. Qed.

Lemma keeps_throw {A} e : keeps P (@throw _ A e).
Proof. by intros b. Qed.

Lemma keeps_bind {A C} (m : B A) (f : A → B C) :
  keeps P m → (∀ a, keeps P (f a)) → keeps P (bind m f).
Proof.
  intros Hm Hf b Hb. unfold bind. specialize (Hm b Hb).
  destruct (m b) as [[a|e] b']; simpl in *; [by apply Hf | done].
Qed.

Lemma keeps_get_bind {C} (f : SSABuilder → B C) :
  (∀ b, keeps P (f b)) → keeps P (bind get f).
Proof. intros Hf b Hb. by apply Hf. Qed.

Lemma keeps_for_each {A} (body : A → B unit) l :
  Forall (fun x => keeps P (body x)) l → keeps P (for_each body l).
Proof.
  induction 1 as [|x l Hx Hl IH]; simpl; [apply keeps_ret|].
  apply keeps_bind; [done | intros _; apply IH].
Qed.

Lemma keeps_map_each {A C} (f : A → B C) l :
  Forall (fun x => keeps P (f x)) l → keeps P (map_each f l).
Proof.
  induction 1 as [|x l Hx Hl IH]; simpl; [apply keeps_ret|].
  apply keeps_bind; [done | intros y].
  apply keeps_bind; [apply IH | intros ys; apply keeps_ret].
Qed.
End keeps.

Lemma elem_of_update_block_push k inst inst' bs :
  inst' ∈ (update_block k (set_instructions (fun l => l ++ [inst])) bs
           ≫= fun kb => instructions kb.2) →
  inst' ∈ (bs ≫= fun kb => instructions kb.2) ∨ inst' = inst.
Proof.
  unfold update_block. induction bs as [|kb bs IH]; [by left|].
  rewrite fmap_cons, !bind_cons, !elem_of_app. intros [Hin|Hin].
  - case_decide; simpl in Hin; [|by left; left].
    apply elem_of_app in Hin as [?|?%list_elem_of_singleton]; [by left; left|by right].
  - destruct (IH Hin); [left; by right | by right].
Qed.

Lemma keeps_no_return_newVar p : keeps no_return (newVar p).
Proof. by intros b. Qed.

Lemma keeps_no_return_emitInst inst :
  op inst ≠ return_ → keeps no_return (emitInst inst).
Proof.
  intros Hop b Hb. unfold no_return, all_instructions in *. simpl.
  apply Forall_forall. intros inst' [Hin| ->]%elem_of_update_block_push; [|done].
  by eapply Forall_forall in Hb.
Qed.

Ltac keeps_step :=
  match goal with
  | |- keeps _ (bind get _) => apply keeps_get_bind; intros ?
  | |- keeps _ (bind _ _) => apply keeps_bind; [| intros ?]
  | |- keeps _ (ret _) => apply keeps_ret
  | |- keeps _ (throw _) => apply keeps_throw
  | |- keeps _ (newVar _) => apply keeps_no_return_newVar
  | |- keeps _ (emitInst _) => apply keeps_no_return_emitInst; discriminate
  | |- keeps _ (if ?c then _ else _) => destruct c
  | |- keeps _ (match ?x with _ => _ end) => destruct x
  end.

Lemma keeps_no_return_visitValue v : keeps no_return (visitValue v).
Proof. unfold visitValue. repeat keeps_step. Qed.

Lemma keeps_no_return_visitNode node : keeps no_return (visitNode node).
Proof.
  induction node as [ty tag attributes children v e s l IH]
    using ASTNode_children_ind.
  destruct ty; simpl.
  - unfold visitProgram. destruct children as [cs|].
    + apply keeps_bind; [by apply keeps_map_each | intros ?; apply keeps_ret].
    + repeat keeps_step.
  - unfold visitElement. destruct (truthy tag); [|apply keeps_throw].
    apply keeps_bind; [apply keeps_no_return_newVar | intros dest].
    apply keeps_bind; [apply keeps_no_return_emitInst; discriminate | intros _].
    apply keeps_bind.
    { destruct attributes as [entries|]; [|apply keeps_ret].
      apply keeps_for_each, Forall_forall. intros kv _.
      apply keeps_bind; [apply keeps_no_return_visitValue | intros ?].
      repeat keeps_step. }
    intros _. apply keeps_bind; [|intros _; apply keeps_ret].
    destruct children as [cs|]; [|apply keeps_ret].
    apply keeps_for_each. eapply Forall_impl; [exact IH|].
    intros child Hchild. simpl.
    apply keeps_bind; [done | intros childVar]. repeat keeps_step.
  - unfold visitText. repeat keeps_step.
  - unfold visitExpression. repeat keeps_step.
  - unfold visitComponent. repeat keeps_step.
  - unfold visitFragment.
    apply keeps_bind; [apply keeps_no_return_newVar | intros dest].
    apply keeps_bind.
    { destruct children as [cs|]; [by apply keeps_map_each | apply keeps_ret]. }
    intros visited. repeat keeps_step.
Qed.

(** For no syntax tree does the IR that buildSSA returns hold a return
    instruction, the one instruction the generator turns into a return
    statement of a value. *)
Lemma buildSSA_emits_no_return ast i :
  buildSSA ast = Normal i →
  Forall (fun inst => op inst ≠ return_) (all_instructions i).
Proof.
  intros Hh%buildSSA_run.
  eapply Forall2_Forall_r; [exact Hh|].
  apply Forall_forall. intros inst0 [_ Hin]%list_elem_of_filter inst [Hop _].
  rewrite Hop.
  assert (no_return new_SSABuilder) as Hnew by apply Forall_nil_2.
  apply (keeps_no_return_visitNode ast) in Hnew.
  by eapply Forall_forall in Hnew.
Qed.

(** ** The brace scan of an attribute value *)

(** Once no closing brace is left to read, the scan never ends: past the
    end of the input [advance] reads [undefined], which changes no depth. *)
Lemma attribute_brace_loop_unclosed fuel :
  ∀ st depth, no_closing_brace (Tokenizer.rest st) = true → 0 < depth →
  Tokenizer.attribute_brace_loop fuel st depth = None.
Proof.
  induction fuel as [|fuel IH]; intros st depth Hs Hd.
  - destruct depth; [lia|done].
  - destruct depth as [|d]; [lia|]. simpl.
    unfold Tokenizer.advance.
    destruct (Tokenizer.rest st) as [|c s] eqn:Hrest.
    + rewrite IH; [done|done|]. unfold Tokenizer.brace_depth. simpl. lia.
    + simpl in Hs. apply andb_prop in Hs as [Hc Hs].
      rewrite IH; [done| |].
      * unfold Tokenizer.bump. by case_bool_decide.
      * unfold Tokenizer.brace_depth.
        rewrite (bool_decide_eq_false_2 (Some c = Some "}"%char)).
        -- case_bool_decide; lia.
        -- intros [= ->]. done.
Qed.

Lemma readAttribute_unclosed fuel :
  Tokenizer.readAttribute fuel
    {| Tokenizer.rest := "a={x"; Tokenizer.line := 1; Tokenizer.column := 6 |} = None.
Proof.
  change (match Tokenizer.attribute_brace_loop fuel
                  {| Tokenizer.rest := "x"; Tokenizer.line := 1;
                     Tokenizer.column := 9 |} 1 with
          | Some (expr, st) => Some (("a", VString ("{" +:+ expr +:+ "}")), st)
          | None => None
          end = None).
  rewrite attribute_brace_loop_unclosed; [reflexivity|reflexivity|lia].
Qed.

Lemma attributes_loop_unclosed fuel :
  Tokenizer.attributes_loop fuel
    {| Tokenizer.rest := "a={x"; Tokenizer.line := 1; Tokenizer.column := 6 |} []
  = None.
Proof.
  destruct fuel as [|fuel]; [reflexivity|].
  change (match Tokenizer.readAttribute fuel
                  {| Tokenizer.rest := "a={x"; Tokenizer.line := 1;
                     Tokenizer.column := 6 |} with
          | Some (attr, st') =>
              Tokenizer.attributes_loop fuel (Tokenizer.skipWhitespace st')
                (set_property attr.1 attr.2 [])
          | None => None
          end = None).
  by rewrite readAttribute_unclosed.
Qed.

Lemma readOpenTag_unclosed fuel :
  Tokenizer.readOpenTag fuel (Tokenizer.new "<div a={x") = None.
Proof.
  change (match Tokenizer.attributes_loop fuel
                  {| Tokenizer.rest := "a={x"; Tokenizer.line := 1;
                     Tokenizer.column := 6 |} [] with
          | Some (attributes, st) =>
              let (type, st) :=
                if Tokenizer.peek_is "/" st
                then (tk_selfClose, (Tokenizer.advance st).2) else (tk_open, st) in
              let st := if Tokenizer.peek_is ">" st then (Tokenizer.advance st).2 else st in
              Some ({| tok_type := type; tok_value := TTag "div" attributes;
                       tok_loc := Tokenizer.getLocation (Tokenizer.new "<div a={x") |},
                    st)
          | None => None
          end = None).
  by rewrite attributes_loop_unclosed.
Qed.

(** The attribute loop makes no progress on a character that starts no
    attribute and ends no tag: [readAttribute] reads nothing and the loop
    tests the same character again. *)
Lemma attributes_loop_stuck fuel :
  ∀ attributes,
  Tokenizer.attributes_loop fuel
    {| Tokenizer.rest := "!>"; Tokenizer.line := 1; Tokenizer.column := 4 |}
    attributes = None.
Proof.
  induction fuel as [|fuel IH]; intros attributes; [done|].
  assert (Tokenizer.readAttribute fuel
            {| Tokenizer.rest := "!>"; Tokenizer.line := 1; Tokenizer.column := 4 |}
          = Some (("", VBool true),
                  {| Tokenizer.rest := "!>"; Tokenizer.line := 1;
                     Tokenizer.column := 4 |})) as Hread by reflexivity.
  change (Tokenizer.attributes_loop (S fuel) ?st attributes)
    with (match Tokenizer.readAttribute fuel st with
          | Some (attr, st') =>
              Tokenizer.attributes_loop fuel (Tokenizer.skipWhitespace st')
                (set_property attr.1 attr.2 attributes)
          | None => None
          end).
  rewrite Hread. apply IH.
Qed.

Lemma readOpenTag_stuck fuel :
  Tokenizer.readOpenTag fuel (Tokenizer.new "<a !>") = None.
Proof.
  change (match Tokenizer.attributes_loop fuel
                  {| Tokenizer.rest := "!>"; Tokenizer.line := 1;
                     Tokenizer.column := 4 |} [] with
          | Some (attributes, st) =>
              let (type, st) :=
                if Tokenizer.peek_is "/" st
                then (tk_selfClose, (Tokenizer.advance st).2) else (tk_open, st) in
              let st := if Tokenizer.peek_is ">" st then (Tokenizer.advance st).2 else st in
              Some ({| tok_type := type; tok_value := TTag "a" attributes;
                       tok_loc := Tokenizer.getLocation (Tokenizer.new "<a !>") |},
                    st)
          | None => None
          end = None).
  by rewrite attributes_loop_stuck.
Qed.

(** One iteration of the main loop on an input that opens a tag. *)
Lemma tokenize_loop_open_tag_None fuel st tokens :
  Tokenizer.rest st ≠ EmptyString →
  Tokenizer.peek_is "<" (Tokenizer.skipWhitespace st) = true →
  Tokenizer.next_is_slash (Tokenizer.skipWhitespace st) = false →
  (∀ fuel', Tokenizer.readOpenTag fuel' (Tokenizer.skipWhitespace st) = None) →
  Tokenizer.tokenize_loop fuel st tokens = None.
Proof.
  intros Hrest Hlt Hslash Hopen.
  destruct fuel as [|fuel]; cbn [Tokenizer.tokenize_loop];
    destruct (Tokenizer.rest st); try done.
  by rewrite Hlt, Hslash, Hopen.
Qed.

(** C10 fails on the code: with an attribute value opened by a brace that
    the input never closes, the tokenizer has not returned after any
    number of iterations; neither has it on a tag that holds a character
    that starts no attribute. *)
Theorem tokenize_does_not_terminate (fuel : nat) :
  Tokenizer.tokenize fuel (Tokenizer.new "<div a={x") = None
  ∧ Tokenizer.tokenize fuel (Tokenizer.new "<a !>") = None.
Proof.
  unfold Tokenizer.tokenize. split.
  - rewrite tokenize_loop_open_tag_None; [done|done|reflexivity..|].
    intros fuel'. apply readOpenTag_unclosed.
  - rewrite tokenize_loop_open_tag_None; [done|done|reflexivity..|].
    intros fuel'. apply readOpenTag_stuck.
Qed.

(** ** More fuel changes no result *)

Lemma attribute_brace_loop_mono fuel :
  ∀ fuel' st depth r, fuel ≤ fuel' →
  Tokenizer.attribute_brace_loop fuel st depth = Some r →
  Tokenizer.attribute_brace_loop fuel' st depth = Some r.
Proof.
  induction fuel as [|fuel IH]; intros fuel' st depth r Hle Hrun.
  - destruct depth; [|done]. by destruct fuel'.
  - destruct depth as [|d]; [by destruct fuel'|].
    destruct fuel' as [|fuel']; [lia|]. simpl in *.
    destruct (Tokenizer.advance st) as [char st'].
    destruct (Tokenizer.attribute_brace_loop fuel st' _) as [r'|] eqn:Hloop; [|done].
    by rewrite (IH fuel' _ _ _ ltac:(lia) Hloop).
Qed.

Lemma readAttribute_mono fuel fuel' st r :
  fuel ≤ fuel' →
  Tokenizer.readAttribute fuel st = Some r →
  Tokenizer.readAttribute fuel' st = Some r.
Proof.
  intros Hle. unfold Tokenizer.readAttribute.
  destruct (Tokenizer.read_while is_ident st) as [name st1].
  destruct (negb _); [done|].
  destruct (_ || _); [done|].
  destruct (Tokenizer.peek_is "{" _); [|done].
  destruct (Tokenizer.attribute_brace_loop fuel _ 1) as [r'|] eqn:Hloop; [|done].
  by rewrite (attribute_brace_loop_mono _ fuel' _ _ _ Hle Hloop).
Qed.

Lemma attributes_loop_mono fuel :
  ∀ fuel' st attributes r, fuel ≤ fuel' →
  Tokenizer.attributes_loop fuel st attributes = Some r →
  Tokenizer.attributes_loop fuel' st attributes = Some r.
Proof.
  induction fuel as [|fuel IH]; intros fuel' st attributes r Hle Hrun.
  - destruct fuel'; [done|]. simpl in *.
    destruct (Tokenizer.peek st) as [c|]; [|done].
    by destruct (negb _ && negb _).
  - destruct fuel' as [|fuel']; [lia|]. simpl in *.
    destruct (Tokenizer.peek st) as [c|]; [|done].
    destruct (negb _ && negb _); [|done].
    destruct (Tokenizer.readAttribute fuel st) as [[attr st']|] eqn:Hattr; [|done].
    rewrite (readAttribute_mono fuel fuel' _ _ ltac:(lia) Hattr).
    apply (IH fuel'); [lia|done].
Qed.

Lemma readOpenTag_mono fuel fuel' st r :
  fuel ≤ fuel' →
  Tokenizer.readOpenTag fuel st = Some r →
  Tokenizer.readOpenTag fuel' st = Some r.
Proof.
  intros Hle. unfold Tokenizer.readOpenTag.
  destruct (Tokenizer.read_while is_ident _) as [tagName st1].
  destruct (Tokenizer.attributes_loop fuel _ []) as [r'|] eqn:Hloop; [|done].
  by rewrite (attributes_loop_mono _ fuel' _ _ _ Hle Hloop).
Qed.

Lemma tokenize_loop_mono fuel :
  ∀ fuel' st tokens r, fuel ≤ fuel' →
  Tokenizer.tokenize_loop fuel st tokens = Some r →
  Tokenizer.tokenize_loop fuel' st tokens = Some r.
Proof.
  induction fuel as [|fuel IH]; intros fuel' st tokens r Hle Hrun.
  - destruct fuel'; [done|]. cbn [Tokenizer.tokenize_loop] in *. by destruct (Tokenizer.rest st).
  - destruct fuel' as [|fuel']; [lia|]. cbn [Tokenizer.tokenize_loop] in *.
    destruct (Tokenizer.rest st); [done|].
    destruct (Tokenizer.peek_is "<" _).
    + destruct (Tokenizer.next_is_slash _).
      * destruct (Tokenizer.readCloseTag _). apply (IH fuel'); [lia|done].
      * destruct (Tokenizer.readOpenTag fuel _) as [[token st']|] eqn:Hopen; [|done].
        rewrite (readOpenTag_mono fuel fuel' _ _ ltac:(lia) Hopen).
        apply (IH fuel'); [lia|done].
    + destruct (Tokenizer.peek_is "{" _).
      * destruct (Tokenizer.readExpression _). apply (IH fuel'); [lia|done].
      * destruct (Tokenizer.readText _). apply (IH fuel'); [lia|done].
Qed.

Lemma tokenize_mono fuel fuel' st tokens :
  fuel ≤ fuel' →
  Tokenizer.tokenize fuel st = Some tokens →
  Tokenizer.tokenize fuel' st = Some tokens.
Proof.
  intros Hle. unfold Tokenizer.tokenize.
  destruct (Tokenizer.tokenize_loop fuel st []) as [r|] eqn:Hloop; [|done].
  by rewrite (tokenize_loop_mono _ fuel' _ _ _ Hle Hloop).
Qed.

Lemma parse_functions_mono fuel :
  (∀ fuel' ts r, fuel ≤ fuel' →
     Parser.parseChildren fuel ts = Some r → Parser.parseChildren fuel' ts = Some r) ∧
  (∀ fuel' ts r, fuel ≤ fuel' →
     Parser.parseNode fuel ts = Some r → Parser.parseNode fuel' ts = Some r).
Proof.
  induction fuel as [|fuel [IHc IHn]]; split; intros fuel' ts r Hle Hrun.
  - destruct fuel'; [done|]. destruct ts as [|token ts]; [done|]. simpl in *.
    by destruct (_ || _).
  - destruct fuel'; [done|]. destruct ts as [|token ts]; [done|]. simpl in *.
    by destruct (tok_type token).
  - destruct fuel' as [|fuel']; [lia|]. destruct ts as [|token ts]; [done|].
    simpl in *. destruct (_ || _); [done|].
    destruct (Parser.parseNode fuel _) as [[node ts1]|] eqn:Hnode; [|done].
    rewrite (IHn fuel' _ _ ltac:(lia) Hnode).
    destruct (Parser.parseChildren fuel ts1) as [[children ts2]|] eqn:Hch; [|done].
    by rewrite (IHc fuel' _ _ ltac:(lia) Hch).
  - destruct fuel' as [|fuel']; [lia|]. destruct ts as [|token ts]; [done|].
    simpl in *. destruct (tok_type token); try done.
    destruct (Parser.parseChildren fuel ts) as [[children ts2]|] eqn:Hch; [|done].
    by rewrite (IHc fuel' _ _ ltac:(lia) Hch).
Qed.

Lemma parse_mono fuel fuel' source ast :
  fuel ≤ fuel' → parse fuel source = Some ast → parse fuel' source = Some ast.
Proof.
  intros Hle. unfold parse, Parser.parse.
  destruct (Tokenizer.tokenize fuel _) as [tokens|] eqn:Htok; [|done].
  rewrite (tokenize_mono _ fuel' _ _ Hle Htok).
  destruct (Parser.parseChildren fuel tokens) as [[children ts]|] eqn:Hch; [|done].
  by rewrite (proj1 (parse_functions_mono fuel) fuel' _ _ Hle Hch).
Qed.

Lemma parse_deterministic fuel1 fuel2 source ast1 ast2 :
  parse fuel1 source = Some ast1 → parse fuel2 source = Some ast2 → ast1 = ast2.
Proof.
  intros H1%(parse_mono _ (fuel1 `max` fuel2)) H2%(parse_mono _ (fuel1 `max` fuel2));
    [congruence|lia..].
Qed.

(** The generator keeps its renaming map and its static cache from one
    [generate] to the next: run twice on one instance it does not emit the
    same text.  [generateCode] makes a new instance for every call. *)
Lemma generator_instance_keeps_state :
  (generate (single_block [static_alloc "c0" "x"]) (new_CodeGenerator minify_on)).1 ≠
  (generate (single_block [static_alloc "c0" "x"])
     (generate (single_block [static_alloc "c0" "x"]) (new_CodeGenerator minify_on)).2).1.
Proof. vm_compute. intros [=]. Qed.

(** The parser always returns: on a token list of length at most [n],
    [2 * n + 1] units of fuel are enough, and the tokens left over are no
    more than the tokens given. *)
Lemma parse_functions_total n :
  ∀ ts, length ts ≤ n →
  (∃ r, Parser.parseNode (2 * n) ts = Some r ∧ length r.2 ≤ length ts
        ∧ ∀ token ts', ts = token :: ts' → Parser.is_type tk_eof token = false →
                       length r.2 < length ts) ∧
  (∃ r, Parser.parseChildren (2 * n + 1) ts = Some r ∧ length r.2 ≤ length ts).
Proof.
  induction n as [|n IH]; intros ts Hlen.
  - destruct ts; [|simpl in Hlen; lia]. split; eexists; by split_and!.
  - assert (∃ r, Parser.parseNode (2 * S n) ts = Some r ∧ length r.2 ≤ length ts
                 ∧ ∀ token ts', ts = token :: ts' →
                     Parser.is_type tk_eof token = false → length r.2 < length ts)
      as Hnode.
    { replace (2 * S n) with (S (S (2 * n))) by lia.
      destruct ts as [|token ts1]; [eexists; by split_and!|].
      simpl in Hlen. cbn [Parser.parseNode].
      destruct (tok_type token) eqn:Hty.
      - destruct (IH ts1 ltac:(lia)) as [_ (r & Hrun & Hr)].
        replace (S (2 * n)) with (2 * n + 1) by lia. rewrite Hrun.
        destruct r as [children ts2]. simpl in Hr.
        eexists. split; [done|].
        assert (length (match ts2 with
                        | [] => ts2
                        | closing :: ts3 =>
                            if Parser.is_type tk_close closing then ts3 else ts2
                        end) ≤ length ts2) as Hdrop.
        { destruct ts2 as [|closing ts3]; [done|].
          destruct (Parser.is_type tk_close closing); simpl; lia. }
        cbn [snd]. change (length (token :: ts1)) with (S (length ts1)).
        split; [lia|]. intros. lia.
      - eexists. split; [done|]. simpl. split; [lia|]. intros. lia.
      - eexists. split; [done|]. simpl. split; [lia|]. intros. lia.
      - eexists. split; [done|]. simpl. split; [lia|]. intros. lia.
      - eexists. split; [done|]. simpl. split; [lia|]. intros. lia.
      - eexists. split; [done|]. simpl. split; [lia|].
        intros token' ts' [= <- <-]. unfold Parser.is_type. by rewrite Hty. }
    split; [done|].
    replace (2 * S n + 1) with (S (2 * S n)) by lia.
    remember (2 * S n) as f eqn:Hf.
    destruct ts as [|token ts1]; [eexists; by split_and!|].
    cbn [Parser.parseChildren].
    destruct (Parser.is_type tk_close token || Parser.is_type tk_eof token) eqn:Hstop;
      [eexists; by split_and!|].
    apply orb_false_elim in Hstop as [_ Heof].
    destruct Hnode as ([node ts2] & Hrun & Hle & Hlt). rewrite Hrun.
    specialize (Hlt token ts1 eq_refl Heof). simpl in *.
    destruct (IH ts2 ltac:(lia)) as [_ ([children ts3] & Hrun2 & Hr2)].
    rewrite (proj1 (parse_functions_mono (2 * n + 1)) f _ _ ltac:(lia) Hrun2).
    eexists. split; [done|]. simpl in *. lia.
Qed.

(** The parser adds no way of not returning: [parse] returns, given
    enough fuel, whenever [tokenize] does. *)
Lemma parse_returns_when_tokenize_does fuel source tokens :
  Tokenizer.tokenize fuel (Tokenizer.new source) = Some tokens →
  ∃ ast, parse (fuel `max` (2 * length tokens + 1)) source = Some ast.
Proof.
  intros Htok. unfold parse, Parser.parse.
  rewrite (tokenize_mono fuel (fuel `max` (2 * length tokens + 1)) _ _ ltac:(lia) Htok).
  destruct (parse_functions_total (length tokens) tokens ltac:(lia))
    as [_ ([children ts] & Hrun & _)].
  rewrite (proj1 (parse_functions_mono (2 * length tokens + 1))
             (fuel `max` (2 * length tokens + 1)) _ _ ltac:(lia) Hrun).
  by eexists.
Qed.

(** [compile] is [compileWithOptions] at the optimizing options. *)
Lemma compile_is_compileWithOptions fuel source :
  compile fuel source =
  compileWithOptions fuel source
    {| opt_target := None; opt_minify := Some true; opt_inlineCache := Some true;
       opt_staticOptimization := Some true |}.
Proof. reflexivity. Qed.

Lemma compileWithOptions_mono fuel fuel' source options r :
  fuel ≤ fuel' →
  compileWithOptions fuel source options = Some r →
  compileWithOptions fuel' source options = Some r.
Proof.
  intros Hle. unfold compileWithOptions.
  destruct (parse fuel source) as [ast|] eqn:Hp; [|done].
  by rewrite (parse_mono _ _ _ _ Hle Hp).
Qed.

(** ** Truncated tags and expressions *)

Lemma is_ident_not_space c : is_ident c = true → is_space c = false.
Proof. destruct c as [[] [] [] [] [] [] [] []]; vm_compute; congruence. Qed.

Lemma is_ident_not_slash c : is_ident c = true → (c =? "/")%char = false.
Proof. destruct c as [[] [] [] [] [] [] [] []]; vm_compute; congruence. Qed.

Lemma trimEnd_cons c s :
  is_space c = false → trimEnd (String c s) = String c (trimEnd s).
Proof. intros Hc. simpl. rewrite Hc. by destruct (trimEnd s). Qed.

Lemma trimEnd_no_space s : all_chars (fun c => negb (is_space c)) s = true → trimEnd s = s.
Proof.
  induction s as [|c s IH]; [done|]. intros [Hc Hs]%andb_prop.
  rewrite trimEnd_cons by by destruct (is_space c). by rewrite IH.
Qed.

Lemma trimEnd_idemp s : trimEnd (trimEnd s) = trimEnd s.
Proof.
  induction s as [|c s IH]; [done|]. simpl.
  destruct (trimEnd s) as [|c' r] eqn:Hr.
  - destruct (is_space c) eqn:Hc; [done|]. simpl. by rewrite Hc.
  - change (trimEnd (String c (String c' r))) with
      (match trimEnd (String c' r) with
       | EmptyString => if is_space c then EmptyString else String c EmptyString
       | r' => String c r'
       end).
    by rewrite IH.
Qed.

Lemma trimStart_trimEnd s : trimStart (trimEnd s) = trimEnd (trimStart s).
Proof.
  induction s as [|c s IH]; [done|].
  destruct (is_space c) eqn:Hc.
  - change (trimStart (String c s)) with (if is_space c then trimStart s else String c s).
    rewrite Hc, <- IH. simpl. rewrite Hc.
    destruct (trimEnd s) as [|c' r]; [done|]. simpl. by rewrite Hc.
  - rewrite trimEnd_cons by done. simpl. by rewrite Hc, trimEnd_cons.
Qed.


Lemma all_chars_trimEnd p s : all_chars p s = true → all_chars p (trimEnd s) = true.
Proof.
  induction s as [|c s IH]; [done|]. intros [Hc Hs]%andb_prop. simpl.
  specialize (IH Hs). destruct (trimEnd s) as [|c' r].
  - destruct (is_space c); [done|]. simpl. by rewrite Hc.
  - simpl in *. by rewrite Hc, IH.
Qed.


Lemma rest_cursor_after s :
  ∀ st, Tokenizer.rest st = s → Tokenizer.rest (cursor_after s st) = EmptyString.
Proof.
  induction s as [|c s IH]; intros st Hst; [done|]. simpl. apply IH.
  unfold Tokenizer.bump. by case_bool_decide.
Qed.

Lemma read_while_from_all p s :
  ∀ st, all_chars p s = true →
  Tokenizer.read_while_from p s st = (s, cursor_after s st).
Proof.
  induction s as [|c s IH]; intros st Hs; [done|].
  apply andb_prop in Hs as [Hc Hs]. simpl. rewrite Hc. by rewrite IH.
Qed.

Lemma expression_loop_no_brace s :
  ∀ st depth, all_chars (fun c => negb (is_brace c)) s = true → 0 < depth →
  Tokenizer.expression_loop s st depth = (s, cursor_after s st).
Proof.
  induction s as [|c s IH]; intros st depth Hs Hd.
  - by destruct depth.
  - apply andb_prop in Hs as [Hc Hs]. destruct depth as [|d]; [lia|].
    assert (Tokenizer.brace_depth (Some c) (S d) = S d) as Hdepth.
    { unfold Tokenizer.brace_depth, is_brace in *.
      apply negb_true_iff, orb_false_elim in Hc as [H1%Ascii.eqb_neq H2%Ascii.eqb_neq].
      rewrite !bool_decide_eq_false_2; [done|congruence..]. }
    cbn [Tokenizer.expression_loop]. rewrite Hdepth, IH by (done || lia).
    by rewrite bool_decide_eq_true_2 by lia.
Qed.

Lemma skipWhitespace_non_space st c r :
  Tokenizer.rest st = String c r → is_space c = false →
  Tokenizer.skipWhitespace st = st.
Proof.
  intros Hrest Hc. unfold Tokenizer.skipWhitespace, Tokenizer.read_while.
  rewrite Hrest. simpl. by rewrite Hc.
Qed.

Lemma skipWhitespace_end st :
  Tokenizer.rest st = EmptyString → Tokenizer.skipWhitespace st = st.
Proof.
  intros Hrest. unfold Tokenizer.skipWhitespace, Tokenizer.read_while.
  by rewrite Hrest.
Qed.

Lemma peek_end st : Tokenizer.rest st = EmptyString → Tokenizer.peek st = None.
Proof. intros Hrest. unfold Tokenizer.peek. by rewrite Hrest. Qed.

Lemma tokenize_loop_end fuel st tokens :
  Tokenizer.rest st = EmptyString →
  Tokenizer.tokenize_loop fuel st tokens = Some (tokens, st).
Proof. intros Hrest. destruct fuel; simpl; by rewrite Hrest. Qed.

Lemma advance_cons st c r :
  Tokenizer.rest st = String c r →
  Tokenizer.advance st = (Some c, Tokenizer.bump (Some c) st r).
Proof. intros Hrest. unfold Tokenizer.advance. by rewrite Hrest. Qed.


Lemma peek_is_end c st :
  Tokenizer.rest st = EmptyString → Tokenizer.peek_is c st = false.
Proof. intros Hrest. unfold Tokenizer.peek_is. by rewrite peek_end. Qed.




(** * Further properties of the code *)

(** ** The token stream *)

Lemma readOpenTag_token fuel st token st' :
  Tokenizer.readOpenTag fuel st = Some (token, st') →
  tok_type token ≠ tk_eof ∧ payload_fits token.
Proof.
  unfold Tokenizer.readOpenTag.
  destruct (Tokenizer.read_while is_ident _) as [tagName st1].
  destruct (Tokenizer.attributes_loop fuel _ []) as [[attributes st2]|]; [|done].
  destruct (Tokenizer.peek_is "/" st2); intros [= <- _];
    (split; [done | by eexists _, _]).
Qed.

Lemma tokenize_loop_tokens fuel :
  ∀ st tokens tokens' st',
  Tokenizer.tokenize_loop fuel st tokens = Some (tokens', st') →
  ∃ new, tokens' = tokens ++ new
         ∧ Forall (fun token => tok_type token ≠ tk_eof ∧ payload_fits token) new.
Proof.
  induction fuel as [|fuel IH]; intros st tokens tokens' st';
    cbn [Tokenizer.tokenize_loop].
  - destruct (Tokenizer.rest st); [|done]. intros [= <- _].
    exists []. by rewrite app_nil_r.
  - destruct (Tokenizer.rest st).
    { intros [= <- _]. exists []. by rewrite app_nil_r. }
    assert (∀ token st1,
              tok_type token ≠ tk_eof ∧ payload_fits token →
              Tokenizer.tokenize_loop fuel st1 (tokens ++ [token]) = Some (tokens', st') →
              ∃ new, tokens' = tokens ++ new
                     ∧ Forall (fun token => tok_type token ≠ tk_eof ∧ payload_fits token) new)
      as Hstep.
    { intros token st1 Htoken (new & -> & Hnew)%IH.
      exists (token :: new). split; [by rewrite <- app_assoc | by constructor]. }
    destruct (Tokenizer.peek_is "<" _).
    + destruct (Tokenizer.next_is_slash _).
      * apply Hstep. split; [done | by eexists].
      * destruct (Tokenizer.readOpenTag fuel _) as [[token st1]|] eqn:Hopen; [|done].
        apply Hstep. by eapply readOpenTag_token.
    + destruct (Tokenizer.peek_is "{" _).
      * apply Hstep. split; [done | by eexists].
      * apply Hstep. split; [done | by eexists].
Qed.

(** X1: whenever the tokenizer returns, its list ends with the one eof
    token it holds, the payload of every token before it fits its type
    (a tag for open and self-closing tokens, a string otherwise), and the
    eof token has the empty string as value. *)
Theorem token_stream_ends_with_its_only_eof (fuel : nat) (source : string)
    (tokens : list Token) :
  Tokenizer.tokenize fuel (Tokenizer.new source) = Some tokens →
  ∃ body loc,
    tokens = body ++ [{| tok_type := tk_eof; tok_value := TStr EmptyString;
                         tok_loc := loc |}]
    ∧ Forall (fun token => tok_type token ≠ tk_eof ∧ payload_fits token) body.
Proof.
  unfold Tokenizer.tokenize.
  destruct (Tokenizer.tokenize_loop fuel _ []) as [[body st]|] eqn:Hloop; [|done].
  intros [= <-]. apply tokenize_loop_tokens in Hloop as (new & -> & Hnew).
  by eexists _, _.
Qed.

Lemma token_stream_ends_with_its_only_eof_witness :
  ∃ body loc,
    truncated_tag_tokens "div" =
      body ++ [{| tok_type := tk_eof; tok_value := TStr EmptyString; tok_loc := loc |}]
    ∧ Forall (fun token => tok_type token ≠ tk_eof ∧ payload_fits token) body.
Proof.
  apply (token_stream_ends_with_its_only_eof 1 "<div"). vm_compute. reflexivity.
Defined.

(** ** Plain text and empty input *)

Lemma trimStart_idemp s : trimStart (trimStart s) = trimStart s.
Proof.
  induction s as [|c s IH]; [done|]. simpl.
  destruct (is_space c) eqn:Hc; [done|]. simpl. by rewrite Hc.
Qed.

Lemma trim_idemp s : trim (trim s) = trim s.
Proof.
  unfold trim.
  by rewrite (trimStart_trimEnd (trimStart s)), trimStart_idemp, trimEnd_idemp.
Qed.

Lemma trimStart_head s c r : trimStart s = String c r → is_space c = false.
Proof.
  induction s as [|c' s IH]; simpl; [done|].
  destruct (is_space c') eqn:Hc; [apply IH|]. by intros [= <- _].
Qed.

Lemma trim_head s c r : trim s = String c r → is_space c = false.
Proof.
  unfold trim. destruct (trimStart s) as [|c' r'] eqn:Hs; [done|].
  pose proof (trimStart_head _ _ _ Hs) as Hc.
  rewrite trimEnd_cons by done. by intros [= <- _].
Qed.

Lemma all_chars_trimStart p s :
  all_chars p s = true → all_chars p (trimStart s) = true.
Proof.
  induction s as [|c s IH]; [done|]. intros [Hc Hs]%andb_prop. simpl.
  destruct (is_space c); [by apply IH|].
  cbn [all_chars]. by rewrite Hc.
Qed.

Lemma all_chars_trim p s : all_chars p s = true → all_chars p (trim s) = true.
Proof. intros Hs. by apply all_chars_trimEnd, all_chars_trimStart. Qed.

Lemma peek_is_cons st c r d :
  Tokenizer.rest st = String c r → Tokenizer.peek_is d st = (c =? d)%char.
Proof.
  intros Hrest. unfold Tokenizer.peek_is, Tokenizer.peek. rewrite Hrest.
  destruct (c =? d)%char eqn:Hcd.
  - apply Ascii.eqb_eq in Hcd as ->. by rewrite bool_decide_eq_true_2.
  - apply Ascii.eqb_neq in Hcd. rewrite bool_decide_eq_false_2; [done|congruence].
Qed.

Lemma readText_all text st :
  all_chars is_text_char text = true → Tokenizer.rest st = text →
  Tokenizer.readText st =
  ({| tok_type := tk_text; tok_value := TStr (trim text);
      tok_loc := Tokenizer.getLocation st |}, cursor_after text st).
Proof.
  intros Htext Hrest. unfold Tokenizer.readText. cbv zeta.
  unfold Tokenizer.read_while. rewrite Hrest.
  change (fun c : ascii => negb (c =? "<")%char && negb (c =? "{")%char)
    with is_text_char.
  by rewrite read_while_from_all.
Qed.

Lemma tokenize_plain_text source fuel :
  all_chars is_text_char source = true → 1 ≤ fuel →
  Tokenizer.tokenize fuel (Tokenizer.new source) = Some (plain_text_tokens source).
Proof.
  intros Hsource Hfuel. unfold Tokenizer.new, plain_text_tokens.
  pose proof (all_chars_trim _ _ Hsource) as Htext.
  pose proof (trim_idemp source) as Hidemp.
  destruct (trim source) as [|c r] eqn:Htrim.
  - unfold Tokenizer.tokenize. by rewrite tokenize_loop_end.
  - pose proof (trim_head _ _ _ Htrim) as Hc.
    pose proof Htext as [[Hlt Hbrace]%andb_prop _]%andb_prop.
    set (st := {| Tokenizer.rest := String c r; Tokenizer.line := 1;
                  Tokenizer.column := 1 |}).
    destruct fuel as [|fuel]; [lia|].
    unfold Tokenizer.tokenize. cbn [Tokenizer.tokenize_loop].
    change (Tokenizer.rest st) with (String c r).
    rewrite (skipWhitespace_non_space st c r) by done.
    rewrite !(peek_is_cons st c r) by done.
    apply negb_true_iff in Hlt, Hbrace. rewrite Hlt, Hbrace.
    rewrite (readText_all (String c r) st) by done.
    rewrite tokenize_loop_end by by apply rest_cursor_after.
    by rewrite Hidemp.
Qed.

Lemma parse_plain_text source fuel :
  all_chars is_text_char source = true → 1 ≤ fuel →
  parse fuel source = Some (plain_text_tree source).
Proof.
  intros Hsource Hfuel. unfold parse, Parser.parse.
  rewrite tokenize_plain_text by done.
  unfold plain_text_tokens, plain_text_tree.
  destruct (trim source); by destruct fuel as [|[|fuel]]; [lia|..].
Qed.

(** X2: a source without the characters < and { is one text token, the
    source trimmed, followed by eof, and parses to the program of that
    one text; a source that is empty or all white space is the eof token
    alone and parses to the program without children. *)
Theorem plain_text_is_one_token (source : string) (fuel : nat) :
  all_chars is_text_char source = true → 1 ≤ fuel →
  Tokenizer.tokenize fuel (Tokenizer.new source) = Some (plain_text_tokens source)
  ∧ parse fuel source = Some (plain_text_tree source).
Proof.
  intros Hsource Hfuel.
  split; [by apply tokenize_plain_text | by apply parse_plain_text].
Qed.

Lemma plain_text_is_one_token_witness :
  Tokenizer.tokenize 1 (Tokenizer.new "  hello world ") =
    Some (plain_text_tokens "  hello world ")
  ∧ parse 1 "  hello world " = Some (plain_text_tree "  hello world ").
Proof.
  apply (plain_text_is_one_token "  hello world " 1); [reflexivity | lia].
Defined.

(** X3: for every source without the characters < and {, whatever its
    text, compile returns one and the same code, whose render function has
    an empty body: the text node is created, nothing reads it, dead-code
    elimination drops it, and the text never reaches the generated code. *)
Theorem plain_text_compiles_to_an_empty_render (source : string) (fuel : nat) :
  all_chars is_text_char source = true → 1 ≤ fuel →
  compile fuel source = Some (Normal compiled_hi).
Proof.
  intros Hsource Hfuel. unfold compile. rewrite parse_plain_text by done.
  unfold plain_text_tree. destruct (trim source); vm_compute; reflexivity.
Qed.

Lemma plain_text_compiles_to_an_empty_render_witness :
  compile 1 "Hello, world!" = Some (Normal compiled_hi).
Proof.
  apply (plain_text_compiles_to_an_empty_render "Hello, world!" 1);
    [reflexivity | lia].
Defined.

(** ** Expressions with matched braces *)

Lemma trimEnd_snoc s c :
  is_space c = false → trimEnd (s +:+ String c EmptyString) = s +:+ String c EmptyString.
Proof.
  intros Hc. induction s as [|a s IH].
  - rewrite append_nil_l. simpl. by rewrite Hc.
  - rewrite append_cons. cbn [trimEnd]. rewrite IH.
    destruct s; [by rewrite append_nil_l | by rewrite append_cons].
Qed.

Lemma expression_loop_balanced body :
  ∀ st depth, balanced depth body = true →
  Tokenizer.expression_loop (body +:+ "}") st (S depth) =
  (body, cursor_after (body +:+ "}") st).
Proof.
  induction body as [|c body IH]; intros st depth Hb.
  - apply bool_decide_eq_true in Hb as ->. reflexivity.
  - rewrite append_cons. cbn [Tokenizer.expression_loop cursor_after].
    cbn [balanced] in Hb. unfold Tokenizer.brace_depth.
    destruct (c =? "{")%char eqn:Hopen.
    + apply Ascii.eqb_eq in Hopen as ->.
      rewrite (bool_decide_eq_true_2 (Some "{"%char = Some "{"%char)) by done.
      rewrite (bool_decide_eq_false_2 (Some "{"%char = Some "}"%char)) by done.
      rewrite IH by done. by rewrite bool_decide_eq_true_2 by lia.
    + apply Ascii.eqb_neq in Hopen.
      rewrite (bool_decide_eq_false_2 (Some c = Some "{"%char)) by congruence.
      destruct (c =? "}")%char eqn:Hclose.
      * apply Ascii.eqb_eq in Hclose as ->.
        rewrite (bool_decide_eq_true_2 (Some "}"%char = Some "}"%char)) by done.
        destruct depth as [|depth]; [done|].
        replace (S (S depth) - 1) with (S depth) by lia.
        rewrite IH by done. by rewrite bool_decide_eq_true_2 by lia.
      * apply Ascii.eqb_neq in Hclose.
        rewrite (bool_decide_eq_false_2 (Some c = Some "}"%char)) by congruence.
        rewrite IH by done. by rewrite bool_decide_eq_true_2 by lia.
Qed.

(** X4: an expression whose inner braces are matched is read up to its own
    closing brace: the source is one expr token, the text between the outer
    braces trimmed and the inner braces kept, followed by eof. *)
Theorem matched_braces_are_one_expression (body : string) (fuel : nat) :
  balanced 0 body = true → 1 ≤ fuel →
  Tokenizer.tokenize fuel (Tokenizer.new ("{" +:+ body +:+ "}")) =
  Some (expression_tokens body).
Proof.
  intros Hbody Hfuel.
  assert (trim ("{" +:+ body +:+ "}") = "{" +:+ body +:+ "}") as Htrim.
  { unfold trim. change (trimStart ("{" +:+ body +:+ "}")) with ("{" +:+ body +:+ "}").
    change ("{" +:+ body +:+ "}") with (String "{" body +:+ "}").
    by apply trimEnd_snoc. }
  unfold Tokenizer.new. rewrite Htrim.
  set (st := {| Tokenizer.rest := "{" +:+ body +:+ "}"; Tokenizer.line := 1;
                Tokenizer.column := 1 |}).
  destruct fuel as [|fuel]; [lia|].
  unfold Tokenizer.tokenize. cbn [Tokenizer.tokenize_loop].
  change (Tokenizer.rest st) with (String "{" (body +:+ "}")).
  rewrite (skipWhitespace_non_space st "{" (body +:+ "}")) by done.
  change (Tokenizer.peek_is "<" st) with false.
  change (Tokenizer.peek_is "{" st) with true. cbv iota.
  unfold Tokenizer.readExpression. cbv zeta.
  rewrite (advance_cons st "{" (body +:+ "}")) by done. cbn [fst snd].
  set (st1 := Tokenizer.bump (Some "{"%char) st (body +:+ "}")).
  change (Tokenizer.rest st1) with (body +:+ "}").
  rewrite expression_loop_balanced by done. cbn [fst snd].
  rewrite tokenize_loop_end by by apply rest_cursor_after.
  reflexivity.
Qed.

Lemma matched_braces_are_one_expression_witness :
  Tokenizer.tokenize 1 (Tokenizer.new "{ items.map(i => { return i }) }") =
  Some (expression_tokens " items.map(i => { return i }) ").
Proof.
  apply (matched_braces_are_one_expression " items.map(i => { return i }) " 1);
    [reflexivity | lia].
Defined.

(** ** The readers move forward in the source *)

Lemma append_assoc' (a b c : string) : (a +:+ b) +:+ c = a +:+ b +:+ c.
Proof.
  induction a as [|x a IH]; [by rewrite !append_nil_l|].
  by rewrite !append_cons, IH.
Qed.

Lemma length_append' (a b : string) :
  String.length (a +:+ b) = String.length a + String.length b.
Proof.
  induction a as [|x a IH]; [by rewrite append_nil_l|].
  rewrite append_cons. simpl. by rewrite IH.
Qed.

Lemma reads_on_refl st : reads_on st st.
Proof. exists EmptyString. by rewrite append_nil_l. Qed.

Lemma reads_on_trans st1 st2 st3 :
  reads_on st1 st2 → reads_on st2 st3 → reads_on st1 st3.
Proof.
  intros [r1 H1] [r2 H2]. exists (r1 +:+ r2). by rewrite H1, H2, append_assoc'.
Qed.

Lemma reads_on_length st st' :
  reads_on st st' →
  String.length (Tokenizer.rest st') ≤ String.length (Tokenizer.rest st).
Proof. intros [r ->]. rewrite length_append'. lia. Qed.

Lemma rest_bump char st r : Tokenizer.rest (Tokenizer.bump char st r) = r.
Proof. unfold Tokenizer.bump. by case_bool_decide. Qed.

Lemma reads_on_bump st c r :
  Tokenizer.rest st = String c r → reads_on st (Tokenizer.bump (Some c) st r).
Proof.
  intros Hrest. exists (String c EmptyString).
  by rewrite rest_bump, Hrest, append_cons, append_nil_l.
Qed.

Lemma advance_reads_on st : reads_on st (Tokenizer.advance st).2.
Proof.
  unfold Tokenizer.advance. destruct (Tokenizer.rest st) as [|c r] eqn:Hrest.
  - exists EmptyString. cbn [snd]. by rewrite rest_bump, Hrest.
  - by apply reads_on_bump.
Qed.

Lemma advance_shorter st :
  Tokenizer.rest st ≠ EmptyString →
  String.length (Tokenizer.rest (Tokenizer.advance st).2)
  < String.length (Tokenizer.rest st).
Proof.
  unfold Tokenizer.advance. destruct (Tokenizer.rest st) as [|c r] eqn:Hrest; [done|].
  intros _. cbn [snd]. rewrite rest_bump. simpl. lia.
Qed.

Lemma read_while_from_reads_on p s :
  ∀ st, Tokenizer.rest st = s → reads_on st (Tokenizer.read_while_from p s st).2.
Proof.
  induction s as [|c s IH]; intros st Hrest; [apply reads_on_refl|].
  cbn [Tokenizer.read_while_from]. destruct (p c); [|apply reads_on_refl].
  cbn [snd]. eapply reads_on_trans; [by apply reads_on_bump|].
  apply IH, rest_bump.
Qed.

Lemma read_while_reads_on p st : reads_on st (Tokenizer.read_while p st).2.
Proof. by apply read_while_from_reads_on. Qed.

Lemma skipWhitespace_reads_on st : reads_on st (Tokenizer.skipWhitespace st).
Proof. apply read_while_reads_on. Qed.

Lemma expression_loop_reads_on s :
  ∀ st depth, Tokenizer.rest st = s →
  reads_on st (Tokenizer.expression_loop s st depth).2.
Proof.
  induction s as [|c s IH]; intros st depth Hrest.
  - destruct depth; apply reads_on_refl.
  - destruct depth as [|depth]; [apply reads_on_refl|].
    cbn [Tokenizer.expression_loop snd].
    eapply reads_on_trans; [by apply reads_on_bump|].
    apply IH, rest_bump.
Qed.

Lemma readExpression_reads_on st :
  reads_on (Tokenizer.advance st).2 (Tokenizer.readExpression st).2.
Proof. by apply expression_loop_reads_on. Qed.

Lemma readText_reads_on st : reads_on st (Tokenizer.readText st).2.
Proof. apply read_while_reads_on. Qed.

Lemma readCloseTag_reads_on st :
  reads_on (Tokenizer.advance st).2 (Tokenizer.readCloseTag st).2.
Proof.
  unfold Tokenizer.readCloseTag. cbv zeta. cbn [snd].
  eapply reads_on_trans; [apply advance_reads_on|].
  eapply reads_on_trans; [apply read_while_reads_on|].
  destruct (Tokenizer.peek_is _ _); [apply advance_reads_on | apply reads_on_refl].
Qed.

Lemma attribute_brace_loop_reads_on fuel :
  ∀ st depth r, Tokenizer.attribute_brace_loop fuel st depth = Some r →
  reads_on st r.2.
Proof.
  induction fuel as [|fuel IH]; intros st depth r Hrun.
  - destruct depth; [|done]. injection Hrun as <-. apply reads_on_refl.
  - destruct depth as [|depth].
    { injection Hrun as <-. apply reads_on_refl. }
    cbn [Tokenizer.attribute_brace_loop] in Hrun.
    pose proof (advance_reads_on st) as Hadv.
    destruct (Tokenizer.advance st) as [char st1]. cbn [snd] in Hadv.
    destruct (Tokenizer.attribute_brace_loop fuel st1 _) as [r1|] eqn:Hrun1; [|done].
    injection Hrun as <-. cbn [snd].
    eapply reads_on_trans; [exact Hadv | by eapply IH].
Qed.

Lemma readAttribute_reads_on fuel st r :
  Tokenizer.readAttribute fuel st = Some r → reads_on st r.2.
Proof.
  unfold Tokenizer.readAttribute.
  pose proof (read_while_reads_on is_ident st) as H1.
  destruct (Tokenizer.read_while is_ident st) as [name st1]. cbn [snd] in H1.
  pose proof (skipWhitespace_reads_on st1) as H2.
  generalize dependent (Tokenizer.skipWhitespace st1). intros st2 H2.
  assert (reads_on st st2) as H12 by by eapply reads_on_trans.
  destruct (negb (Tokenizer.peek_is "=" st2)).
  { by intros [= <-]. }
  pose proof (advance_reads_on st2) as H3.
  generalize dependent ((Tokenizer.advance st2).2). intros st3 H3.
  pose proof (skipWhitespace_reads_on st3) as H4.
  generalize dependent (Tokenizer.skipWhitespace st3). intros st4 H4.
  assert (reads_on st st4) as H14.
  { eapply reads_on_trans; [exact H12|]. by eapply reads_on_trans. }
  destruct (Tokenizer.peek_is "034" st4 || Tokenizer.peek_is "'" st4).
  { pose proof (advance_reads_on st4) as H5.
    destruct (Tokenizer.advance st4) as [quote st5]. cbn [snd] in H5.
    pose proof (read_while_reads_on
                  (fun c => negb (bool_decide (Some c = quote))) st5) as H6.
    destruct (Tokenizer.read_while _ st5) as [value st6]. cbn [snd] in H6.
    intros [= <-]. cbn [snd].
    eapply reads_on_trans; [exact H14|].
    eapply reads_on_trans; [exact H5|].
    eapply reads_on_trans; [exact H6|]. apply advance_reads_on. }
  destruct (Tokenizer.peek_is "{" st4).
  { pose proof (advance_reads_on st4) as H5.
    destruct (Tokenizer.attribute_brace_loop fuel _ 1) as [[expr st6]|] eqn:Hloop;
      [|done].
    apply attribute_brace_loop_reads_on in Hloop. cbn [snd] in Hloop.
    intros [= <-]. cbn [snd].
    eapply reads_on_trans; [exact H14|]. by eapply reads_on_trans. }
  pose proof (read_while_reads_on is_word st4) as H5.
  destruct (Tokenizer.read_while is_word st4) as [value st5]. cbn [snd] in H5.
  intros [= <-]. cbn [snd]. by eapply reads_on_trans.
Qed.

Lemma attributes_loop_reads_on fuel :
  ∀ st attributes r, Tokenizer.attributes_loop fuel st attributes = Some r →
  reads_on st r.2.
Proof.
  induction fuel as [|fuel IH]; intros st attributes r.
  - cbn [Tokenizer.attributes_loop].
    destruct (Tokenizer.peek st) as [c|]; [|intros [= <-]; apply reads_on_refl].
    destruct (negb (c =? ">")%char && negb (c =? "/")%char); [done|].
    intros [= <-]. apply reads_on_refl.
  - cbn [Tokenizer.attributes_loop].
    destruct (Tokenizer.peek st) as [c|]; [|intros [= <-]; apply reads_on_refl].
    destruct (negb (c =? ">")%char && negb (c =? "/")%char);
      [|intros [= <-]; apply reads_on_refl].
    destruct (Tokenizer.readAttribute fuel st) as [[attr st1]|] eqn:Hattr; [|done].
    apply readAttribute_reads_on in Hattr. cbn [snd] in Hattr.
    intros Hloop%IH.
    eapply reads_on_trans; [exact Hattr|].
    eapply reads_on_trans; [apply skipWhitespace_reads_on | exact Hloop].
Qed.

Lemma readOpenTag_reads_on fuel st r :
  Tokenizer.readOpenTag fuel st = Some r →
  reads_on (Tokenizer.advance st).2 r.2.
Proof.
  unfold Tokenizer.readOpenTag. cbv zeta.
  generalize ((Tokenizer.advance st).2). intros st1.
  pose proof (skipWhitespace_reads_on st1) as H1.
  generalize dependent (Tokenizer.skipWhitespace st1). intros st2 H1.
  pose proof (read_while_reads_on is_ident st2) as H2.
  destruct (Tokenizer.read_while is_ident st2) as [tagName st3]. cbn [snd] in H2.
  pose proof (skipWhitespace_reads_on st3) as H3.
  generalize dependent (Tokenizer.skipWhitespace st3). intros st4 H3.
  destruct (Tokenizer.attributes_loop fuel st4 []) as [[attributes st5]|] eqn:Hloop;
    [|done].
  apply attributes_loop_reads_on in Hloop. cbn [snd] in Hloop.
  assert (reads_on st1 st5) as H15.
  { eapply reads_on_trans; [exact H1|]. eapply reads_on_trans; [exact H2|].
    by eapply reads_on_trans. }
  destruct (Tokenizer.peek_is "/" st5).
  - pose proof (advance_reads_on st5) as H6.
    generalize dependent ((Tokenizer.advance st5).2). intros st6 H6.
    assert (reads_on st1 st6) as H16 by by eapply reads_on_trans.
    destruct (Tokenizer.peek_is ">" st6); intros [= <-]; cbn [snd]; [|done].
    eapply reads_on_trans; [exact H16 | apply advance_reads_on].
  - destruct (Tokenizer.peek_is ">" st5); intros [= <-]; cbn [snd]; [|done].
    eapply reads_on_trans; [exact H15 | apply advance_reads_on].
Qed.

(** ** Token values are trimmed *)

Lemma trimEnd_tail c s : trimEnd (String c s) = String c s → trimEnd s = s.
Proof.
  cbn [trimEnd]. destruct (trimEnd s) as [|c' r].
  - destruct (is_space c); [done|]. by intros [= <-].
  - by intros [= <-].
Qed.

Lemma trimEnd_suffix read s : trimEnd (read +:+ s) = read +:+ s → trimEnd s = s.
Proof.
  induction read as [|c read IH]; [by rewrite append_nil_l|].
  rewrite append_cons. intros Hs%trimEnd_tail. by apply IH.
Qed.

Lemma reads_on_trimEnd st st' :
  reads_on st st' → trimEnd (Tokenizer.rest st) = Tokenizer.rest st →
  trimEnd (Tokenizer.rest st') = Tokenizer.rest st'.
Proof. intros [read ->]. apply trimEnd_suffix. Qed.

Lemma rest_read_while_from_space s :
  ∀ st, Tokenizer.rest st = s →
  Tokenizer.rest (Tokenizer.read_while_from is_space s st).2 = trimStart s.
Proof.
  induction s as [|c s IH]; intros st Hrest; [done|].
  cbn [Tokenizer.read_while_from trimStart]. destruct (is_space c); [|done].
  cbn [snd]. apply IH, rest_bump.
Qed.

Lemma rest_skipWhitespace st :
  Tokenizer.rest (Tokenizer.skipWhitespace st) = trimStart (Tokenizer.rest st).
Proof. by apply rest_read_while_from_space. Qed.

Lemma trimStart_empty s : trimStart s = EmptyString → trimEnd s = EmptyString.
Proof.
  induction s as [|c s IH]; [done|]. cbn [trimStart trimEnd].
  destruct (is_space c); [|done]. intros ->%IH. done.
Qed.

(** After the white space before a token, a character that is no white
    space is left, when the source does not end in white space. *)
Lemma skipWhitespace_head st :
  Tokenizer.rest st ≠ EmptyString →
  trimEnd (Tokenizer.rest st) = Tokenizer.rest st →
  ∃ c r, Tokenizer.rest (Tokenizer.skipWhitespace st) = String c r
         ∧ is_space c = false.
Proof.
  intros Hne Htrim. rewrite rest_skipWhitespace.
  destruct (trimStart (Tokenizer.rest st)) as [|c r] eqn:Hs.
  - apply trimStart_empty in Hs. congruence.
  - exists c, r. split; [done | by eapply trimStart_head].
Qed.

Lemma readText_value st c r :
  Tokenizer.rest st = String c r → is_space c = false → is_text_char c = true →
  ∃ v, tok_value (Tokenizer.readText st).1 = TStr v ∧ v ≠ EmptyString ∧ trim v = v.
Proof.
  intros Hrest Hspace Htext. unfold Tokenizer.readText. cbv zeta. cbn [fst tok_value].
  unfold Tokenizer.read_while. rewrite Hrest. cbn [Tokenizer.read_while_from].
  change (negb (c =? "<")%char && negb (c =? "{")%char) with (is_text_char c).
  rewrite Htext. cbn [fst]. eexists. split; [done|].
  split; [|apply trim_idemp].
  unfold trim. cbn [trimStart]. rewrite Hspace. by rewrite trimEnd_cons.
Qed.

Lemma readOpenTag_type fuel st token st' :
  Tokenizer.readOpenTag fuel st = Some (token, st') →
  tok_type token = tk_open ∨ tok_type token = tk_selfClose.
Proof.
  unfold Tokenizer.readOpenTag.
  destruct (Tokenizer.read_while is_ident _) as [tagName st1].
  destruct (Tokenizer.attributes_loop fuel _ []) as [[attributes st2]|]; [|done].
  destruct (Tokenizer.peek_is "/" st2); intros [= <- _]; [by right | by left].
Qed.

Lemma tokenize_loop_trimmed fuel :
  ∀ st tokens r,
  trimEnd (Tokenizer.rest st) = Tokenizer.rest st →
  Forall trimmed_value tokens →
  Tokenizer.tokenize_loop fuel st tokens = Some r →
  Forall trimmed_value r.1.
Proof.
  induction fuel as [|fuel IH]; intros st tokens r Htrim Htokens;
    cbn [Tokenizer.tokenize_loop].
  - destruct (Tokenizer.rest st); [|done]. by intros [= <-].
  - destruct (Tokenizer.rest st) as [|c0 r0] eqn:Hrest.
    { by intros [= <-]. }
    destruct (skipWhitespace_head st) as (c & s & Hrest1 & Hc); [congruence|congruence|].
    pose proof (skipWhitespace_reads_on st) as Hon.
    pose proof (reads_on_trimEnd _ _ Hon) as Htrim1. rewrite Hrest in Htrim1.
    specialize (Htrim1 Htrim).
    generalize dependent (Tokenizer.skipWhitespace st). intros st1 Hrest1 Hon Htrim1.
    rewrite !(peek_is_cons st1 c s) by done.
    assert (∀ token st2,
              trimmed_value token → reads_on st1 st2 →
              Tokenizer.tokenize_loop fuel st2 (tokens ++ [token]) = Some r →
              Forall trimmed_value r.1) as Hstep.
    { intros token st2 Htoken Hon2. apply IH.
      - by eapply reads_on_trimEnd.
      - apply Forall_app. split; [done | by constructor]. }
    destruct (c =? "<")%char eqn:Hlt.
    + destruct (Tokenizer.next_is_slash st1).
      * apply Hstep.
        -- eexists. split; [reflexivity | apply trim_idemp].
        -- eapply reads_on_trans; [apply advance_reads_on|].
           apply readCloseTag_reads_on.
      * destruct (Tokenizer.readOpenTag fuel st1) as [[token st2]|] eqn:Hopen; [|done].
        apply Hstep.
        -- unfold trimmed_value.
           by destruct (readOpenTag_type _ _ _ _ Hopen) as [-> | ->].
        -- eapply reads_on_trans; [apply advance_reads_on|].
           by apply (readOpenTag_reads_on _ _ _ Hopen).
    + destruct (c =? "{")%char eqn:Hbrace.
      * apply Hstep.
        -- eexists. split; [reflexivity | apply trim_idemp].
        -- eapply reads_on_trans; [apply advance_reads_on|].
           apply readExpression_reads_on.
      * apply Hstep; [|apply readText_reads_on].
        apply (readText_value st1 c s); [done..|].
        unfold is_text_char. by rewrite Hlt, Hbrace.
Qed.

(** X5: in the list the tokenizer returns, no text token is empty and the
    values of text, expr and close tokens carry no white space at either
    end: white space between two tags makes no token. *)
Theorem token_values_are_trimmed (fuel : nat) (source : string) (tokens : list Token) :
  Tokenizer.tokenize fuel (Tokenizer.new source) = Some tokens →
  Forall trimmed_value tokens.
Proof.
  unfold Tokenizer.tokenize.
  destruct (Tokenizer.tokenize_loop fuel _ []) as [[body st]|] eqn:Hloop; [|done].
  intros [= <-]. apply Forall_app. split; [|by constructor].
  apply (tokenize_loop_trimmed fuel (Tokenizer.new source) [] (body, st));
    [apply trimEnd_idemp | constructor | exact Hloop].
Qed.

Lemma token_values_are_trimmed_witness :
  Forall trimmed_value
    [{| tok_type := tk_open; tok_value := TTag "p" []; tok_loc := first_location |};
     {| tok_type := tk_text; tok_value := TStr "a";
        tok_loc := {| start := Build_Position 1 5; end_ := Build_Position 1 5 |} |};
     {| tok_type := tk_close; tok_value := TStr "p";
        tok_loc := {| start := Build_Position 1 7; end_ := Build_Position 1 7 |} |};
     {| tok_type := tk_eof; tok_value := TStr EmptyString;
        tok_loc := {| start := Build_Position 1 11; end_ := Build_Position 1 11 |} |}].
Proof.
  apply (token_values_are_trimmed 3 "<p> a </p>"). vm_compute. reflexivity.
Defined.

(** ** Sources without an open tag *)

Lemma no_open_tag_tail c s : no_open_tag (String c s) = true → no_open_tag s = true.
Proof. cbn [no_open_tag]. by intros [_ ?]%andb_prop. Qed.

Lemma no_open_tag_suffix read s :
  no_open_tag (read +:+ s) = true → no_open_tag s = true.
Proof.
  induction read as [|c read IH]; [by rewrite append_nil_l|].
  rewrite append_cons. intros Hs%no_open_tag_tail. by apply IH.
Qed.

Lemma reads_on_no_open_tag st st' :
  reads_on st st' → no_open_tag (Tokenizer.rest st) = true →
  no_open_tag (Tokenizer.rest st') = true.
Proof. intros [read ->]. apply no_open_tag_suffix. Qed.

Lemma trimEnd_empty_head c s : trimEnd (String c s) = EmptyString → is_space c = true.
Proof.
  cbn [trimEnd]. destruct (trimEnd s); [|done]. by destruct (is_space c).
Qed.

Lemma no_open_tag_trimEnd s : no_open_tag s = true → no_open_tag (trimEnd s) = true.
Proof.
  induction s as [|c s IH]; [done|]. intros [Hc Hs]%andb_prop.
  specialize (IH Hs). cbn [trimEnd].
  destruct (trimEnd s) as [|d r] eqn:Htrim.
  - destruct (is_space c) eqn:Hspace; [done|]. cbn [no_open_tag].
    destruct (c =? "<")%char; [|done].
    destruct s as [|d s]; [done|]. apply trimEnd_empty_head in Htrim.
    apply Ascii.eqb_eq in Hc as ->. done.
  - cbn [no_open_tag]. cbn [no_open_tag] in IH. rewrite IH, andb_true_r.
    destruct (c =? "<")%char; [|done].
    destruct s as [|d' s]; [done|]. apply Ascii.eqb_eq in Hc as ->.
    rewrite trimEnd_cons in Htrim by done. by injection Htrim as <- _.
Qed.

Lemma no_open_tag_trimStart s : no_open_tag s = true → no_open_tag (trimStart s) = true.
Proof.
  induction s as [|c s IH]; [done|]. intros Hs. cbn [trimStart].
  destruct (is_space c); [|done]. by eapply IH, no_open_tag_tail.
Qed.

Lemma length_trimStart s : String.length (trimStart s) ≤ String.length s.
Proof.
  induction s as [|c s IH]; [done|]. cbn [trimStart].
  destruct (is_space c); simpl; lia.
Qed.

Lemma length_trimEnd s : String.length (trimEnd s) ≤ String.length s.
Proof.
  induction s as [|c s IH]; [done|]. cbn [trimEnd].
  destruct (trimEnd s); [destruct (is_space c)|]; simpl in *; lia.
Qed.

Lemma length_trim s : String.length (trim s) ≤ String.length s.
Proof.
  unfold trim. pose proof (length_trimEnd (trimStart s)).
  pose proof (length_trimStart s). lia.
Qed.

Lemma tokenize_loop_closing fuel :
  ∀ st tokens, no_open_tag (Tokenizer.rest st) = true →
  String.length (Tokenizer.rest st) ≤ fuel →
  ∃ r, Tokenizer.tokenize_loop fuel st tokens = Some r.
Proof.
  induction fuel as [|fuel IH]; intros st tokens Hno Hlen;
    cbn [Tokenizer.tokenize_loop].
  - destruct (Tokenizer.rest st); [by eexists | simpl in Hlen; lia].
  - destruct (Tokenizer.rest st) as [|c0 r0] eqn:Hrest; [by eexists|].
    pose proof (skipWhitespace_reads_on st) as Hon.
    pose proof (reads_on_no_open_tag _ _ Hon) as Hno1. rewrite Hrest in Hno1.
    specialize (Hno1 Hno).
    pose proof (reads_on_length _ _ Hon) as Hlen1. rewrite Hrest in Hlen1.
    generalize dependent (Tokenizer.skipWhitespace st). intros st1 Hon Hno1 Hlen1.
    assert (∀ token st2,
              reads_on st1 st2 →
              String.length (Tokenizer.rest st2) < String.length (String c0 r0) →
              ∃ r, Tokenizer.tokenize_loop fuel st2 (tokens ++ [token]) = Some r)
      as Hstep.
    { intros token st2 Hon2 Hlen2. apply IH; [by eapply reads_on_no_open_tag | lia]. }
    destruct (Tokenizer.rest st1) as [|c s] eqn:Hrest1.
    { rewrite !peek_is_end by done. simpl.
      apply Hstep; [apply readText_reads_on|].
      pose proof (reads_on_length _ _ (readText_reads_on st1)) as Hl.
      rewrite Hrest1 in Hl. simpl in *. lia. }
    rewrite !(peek_is_cons st1 c s) by done.
    assert (String.length (Tokenizer.rest (Tokenizer.advance st1).2)
            < String.length (String c0 r0)) as Hadv.
    { pose proof (advance_shorter st1) as Hl. rewrite Hrest1 in Hl.
      specialize (Hl ltac:(done)). lia. }
    destruct (c =? "<")%char eqn:Hlt.
    + assert (Tokenizer.next_is_slash st1 = true) as ->.
      { unfold Tokenizer.next_is_slash. rewrite Hrest1.
        cbn [no_open_tag] in Hno1. rewrite Hlt in Hno1.
        apply andb_prop in Hno1 as [Hnext _]. by destruct s. }
      apply Hstep.
      * eapply reads_on_trans; [apply advance_reads_on | apply readCloseTag_reads_on].
      * eapply Nat.le_lt_trans; [|exact Hadv].
        exact (reads_on_length _ _ (readCloseTag_reads_on st1)).
    + destruct (c =? "{")%char eqn:Hbrace.
      * apply Hstep.
        -- eapply reads_on_trans; [apply advance_reads_on|].
           apply readExpression_reads_on.
        -- eapply Nat.le_lt_trans; [|exact Hadv].
           exact (reads_on_length _ _ (readExpression_reads_on st1)).
      * apply Hstep; [apply readText_reads_on|].
        unfold Tokenizer.readText. cbv zeta. cbn [snd].
        unfold Tokenizer.read_while. rewrite Hrest1.
        cbn [Tokenizer.read_while_from]. rewrite Hlt, Hbrace. cbn [negb andb snd].
        pose proof (reads_on_length _ _
          (read_while_from_reads_on
             (fun c => negb (c =? "<")%char && negb (c =? "{")%char) s
             (Tokenizer.bump (Some c) st1 s) (rest_bump _ _ _))) as Hl.
        rewrite rest_bump in Hl. simpl in *. lia.
Qed.

(** X6: on a source without an open tag (every < is followed by /) the
    tokenizer returns, after at most one iteration of its main loop for
    each character, and so the parser returns a tree. *)
Theorem source_without_open_tag_is_parsed (source : string) :
  no_open_tag source = true →
  (∃ tokens, Tokenizer.tokenize (String.length source) (Tokenizer.new source)
             = Some tokens)
  ∧ ∃ fuel ast, parse fuel source = Some ast.
Proof.
  intros Hno.
  destruct (tokenize_loop_closing (String.length source) (Tokenizer.new source) [])
    as [[tokens st] Hloop].
  { by apply no_open_tag_trimEnd, no_open_tag_trimStart. }
  { apply length_trim. }
  assert (Tokenizer.tokenize (String.length source) (Tokenizer.new source)
          = Some (tokens ++ [{| tok_type := tk_eof; tok_value := TStr EmptyString;
                                tok_loc := Tokenizer.getLocation st |}])) as Htok.
  { unfold Tokenizer.tokenize. by rewrite Hloop. }
  split; [by eexists|].
  destruct (parse_returns_when_tokenize_does _ _ _ Htok) as [ast Hast].
  by eexists _, _.
Qed.

Lemma source_without_open_tag_is_parsed_witness :
  (∃ tokens, Tokenizer.tokenize 16 (Tokenizer.new "a {b} </d> e</f>") = Some tokens)
  ∧ ∃ fuel ast, parse fuel "a {b} </d> e</f>" = Some ast.
Proof.
  apply (source_without_open_tag_is_parsed "a {b} </d> e</f>"). reflexivity.
Defined.

(** ** The shape of a parsed tree *)

Lemma readAttribute_value fuel st r :
  Tokenizer.readAttribute fuel st = Some r → attribute_value_ok r.1.2 = true.
Proof.
  unfold Tokenizer.readAttribute.
  destruct (Tokenizer.read_while is_ident st) as [name st1].
  destruct (negb _); [by intros [= <-]|].
  destruct (_ || _).
  { destruct (Tokenizer.advance _) as [quote st2].
    destruct (Tokenizer.read_while _ st2) as [value st3]. by intros [= <-]. }
  destruct (Tokenizer.peek_is "{" _).
  { destruct (Tokenizer.attribute_brace_loop fuel _ 1) as [[expr st2]|]; [|done].
    by intros [= <-]. }
  destruct (Tokenizer.read_while is_word _) as [value st2]. by intros [= <-].
Qed.

Lemma insert_property_values k v o :
  attribute_value_ok v = true →
  Forall (fun kv => attribute_value_ok kv.2 = true) o →
  Forall (fun kv : string * JSValue => attribute_value_ok kv.2 = true)
         (insert_property k v o).
Proof.
  intros Hv. induction 1 as [|[k' v'] o Hkv Ho IH]; cbn [insert_property].
  - by constructor.
  - destruct (array_index k) as [n|], (array_index k') as [n'|];
      [destruct (n <? n')%N|..]; repeat constructor; done.
Qed.

Lemma set_property_values k v o :
  attribute_value_ok v = true →
  Forall (fun kv => attribute_value_ok kv.2 = true) o →
  Forall (fun kv : string * JSValue => attribute_value_ok kv.2 = true)
         (set_property k v o).
Proof.
  intros Hv Ho. unfold set_property. case_bool_decide; [done|].
  destruct (has_property k o); [|by apply insert_property_values].
  apply Forall_fmap. eapply Forall_impl; [exact Ho|].
  intros kv Hkv. simpl. by case_bool_decide.
Qed.

Lemma attributes_loop_values fuel :
  ∀ st attributes r,
  Forall (fun kv => attribute_value_ok kv.2 = true) attributes →
  Tokenizer.attributes_loop fuel st attributes = Some r →
  Forall (fun kv => attribute_value_ok kv.2 = true) r.1.
Proof.
  induction fuel as [|fuel IH]; intros st attributes r Hattrs;
    cbn [Tokenizer.attributes_loop].
  - destruct (Tokenizer.peek st) as [c|]; [|by intros [= <-]].
    destruct (negb _ && negb _); [done | by intros [= <-]].
  - destruct (Tokenizer.peek st) as [c|]; [|by intros [= <-]].
    destruct (negb _ && negb _); [|by intros [= <-]].
    destruct (Tokenizer.readAttribute fuel st) as [[attr st1]|] eqn:Hattr; [|done].
    apply readAttribute_value in Hattr. apply IH.
    by apply set_property_values.
Qed.

Lemma readOpenTag_tag_token fuel st token st' :
  Tokenizer.readOpenTag fuel st = Some (token, st') → tag_token_ok token.
Proof.
  unfold Tokenizer.readOpenTag.
  destruct (Tokenizer.read_while is_ident _) as [tagName st1].
  destruct (Tokenizer.attributes_loop fuel _ []) as [[attributes st2]|] eqn:Hloop;
    [|done].
  apply attributes_loop_values in Hloop; [|constructor].
  destruct (Tokenizer.peek_is "/" st2); intros [= <- _]; by eexists _, _.
Qed.

Lemma tokenize_loop_tag_tokens fuel :
  ∀ st tokens r,
  Forall tag_token_ok tokens →
  Tokenizer.tokenize_loop fuel st tokens = Some r →
  Forall tag_token_ok r.1.
Proof.
  induction fuel as [|fuel IH]; intros st tokens r Htokens;
    cbn [Tokenizer.tokenize_loop].
  - destruct (Tokenizer.rest st); [|done]. by intros [= <-].
  - destruct (Tokenizer.rest st); [by intros [= <-]|].
    assert (∀ token st1,
              tag_token_ok token →
              Tokenizer.tokenize_loop fuel st1 (tokens ++ [token]) = Some r →
              Forall tag_token_ok r.1) as Hstep.
    { intros token st1 Htoken. apply IH, Forall_app. split; [done | by constructor]. }
    destruct (Tokenizer.peek_is "<" _).
    + destruct (Tokenizer.next_is_slash _); [by apply Hstep|].
      destruct (Tokenizer.readOpenTag fuel _) as [[token st1]|] eqn:Hopen; [|done].
      apply Hstep. by eapply readOpenTag_tag_token.
    + destruct (Tokenizer.peek_is "{" _); by apply Hstep.
Qed.

Lemma tokenize_tag_tokens fuel source tokens :
  Tokenizer.tokenize fuel (Tokenizer.new source) = Some tokens →
  Forall tag_token_ok tokens.
Proof.
  unfold Tokenizer.tokenize.
  destruct (Tokenizer.tokenize_loop fuel _ []) as [[body st]|] eqn:Hloop; [|done].
  intros [= <-]. apply Forall_app. split; [|by constructor].
  by apply (tokenize_loop_tag_tokens fuel (Tokenizer.new source) [] (body, st)).
Qed.

Lemma element_node_parsed token children :
  tag_token_ok token →
  tok_type token = tk_open ∨ tok_type token = tk_selfClose →
  forallb parsed_node children = true →
  parsed_node (Parser.element_node token children) = true.
Proof.
  intros Htoken Hty Hchildren. unfold tag_token_ok in Htoken.
  assert (∃ tag attributes, tok_value token = TTag tag attributes
            ∧ Forall (fun kv => attribute_value_ok kv.2 = true) attributes)
    as (tag & attributes & Hvalue & Hattrs)
    by (destruct Hty as [Hty | Hty]; by rewrite Hty in Htoken).
  unfold Parser.element_node. rewrite Hvalue. cbn [JSON_parse_tag fst snd].
  assert (forallb (fun kv : string * JSValue => attribute_value_ok kv.2) attributes
          = true) as Hforall.
  { apply forallb_forall. intros kv Hin%list_elem_of_In.
    by eapply Forall_forall in Hattrs. }
  destruct (starts_upper (Some tag)) eqn:Hupper; cbn [parsed_node];
    by rewrite Hupper, Hforall, Hchildren.
Qed.

Lemma parse_functions_shape fuel :
  (∀ ts r, Forall tag_token_ok ts → Parser.parseChildren fuel ts = Some r →
     forallb parsed_node r.1 = true ∧ Forall tag_token_ok r.2) ∧
  (∀ ts r, Forall tag_token_ok ts → Parser.parseNode fuel ts = Some r →
     match r.1 with Some node => parsed_node node = true | None => True end
     ∧ Forall tag_token_ok r.2).
Proof.
  induction fuel as [|fuel [IHc IHn]]; split; intros ts r Hts Hrun.
  - destruct ts as [|token ts]; [by injection Hrun as <-|].
    cbn [Parser.parseChildren] in Hrun.
    destruct (_ || _); [by injection Hrun as <- | done].
  - destruct ts as [|token ts]; [by injection Hrun as <-|].
    cbn [Parser.parseNode] in Hrun. apply Forall_cons in Hts as [Htoken Hts'].
    destruct (tok_type token) eqn:Hty; try done; injection Hrun as <-;
      cbn [fst snd]; try (split; [done|]); try done.
    + split; [|done]. apply element_node_parsed; [done | by right | done].
    + by constructor.
  - destruct ts as [|token ts]; [by injection Hrun as <-|].
    cbn [Parser.parseChildren] in Hrun.
    destruct (_ || _); [by injection Hrun as <-|].
    destruct (Parser.parseNode fuel _) as [[node ts1]|] eqn:Hnode; [|done].
    destruct (Parser.parseChildren fuel ts1) as [[children ts2]|] eqn:Hch; [|done].
    injection Hrun as <-. cbn [fst snd].
    apply IHn in Hnode as [Hn Hts1]; [|done]. cbn [fst snd] in Hn, Hts1.
    apply IHc in Hch as [Hc Hts2]; [|done]. cbn [fst snd] in Hc, Hts2.
    split; [|done]. destruct node as [node|]; [|done].
    cbn [forallb]. by rewrite Hn, Hc.
  - destruct ts as [|token ts]; [by injection Hrun as <-|].
    cbn [Parser.parseNode] in Hrun. pose proof Hts as [Htoken Hts']%Forall_cons.
    destruct (tok_type token) eqn:Hty.
    + destruct (Parser.parseChildren fuel ts) as [[children ts2]|] eqn:Hch; [|done].
      injection Hrun as <-. cbn [fst snd].
      apply IHc in Hch as [Hc Hts2]; [|done]. cbn [fst snd] in Hc, Hts2.
      split; [apply element_node_parsed; [done | by left | done]|].
      destruct ts2 as [|closing ts3]; [done|].
      match goal with |- Forall _ (if ?c then _ else _) => destruct c end; [|done].
      by apply Forall_cons in Hts2 as [_ ?].
    + injection Hrun as <-. split; [|done].
      apply element_node_parsed; [done | by right | done].
    + by injection Hrun as <-.
    + by injection Hrun as <-.
    + by injection Hrun as <-.
    + by injection Hrun as <-.
Qed.

(** X7: every tree the parser returns is a program whose nodes are texts
    with a value, expressions with their text, and elements and components
    with a tag, attributes, children and no isStatic field; a node is a
    component exactly when its tag starts with an upper-case letter, every
    attribute value is true or a string, and no fragment occurs. *)
Theorem parsed_tree_is_well_formed (fuel : nat) (source : string) (ast : ASTNode) :
  parse fuel source = Some ast → parsed_tree ast = true.
Proof.
  unfold parse, Parser.parse.
  destruct (Tokenizer.tokenize fuel _) as [tokens|] eqn:Htok; [|done].
  destruct (Parser.parseChildren fuel _) as [[children ts]|] eqn:Hch; [|done].
  intros [= <-]. unfold parsed_tree. cbn [node_type node_children].
  apply tokenize_tag_tokens in Htok.
  by apply (proj1 (parse_functions_shape fuel)) in Hch as [Hc _].
Qed.

Lemma parsed_tree_is_well_formed_witness :
  parsed_tree
    (program_of
       [mkASTNode Element (Some "p") (Some [("id", VString "x")])
          (Some [mkASTNode Component (Some "Card") (Some [("open", VBool true)])
                   (Some []) None None None
                   (Some {| start := Build_Position 1 11;
                            end_ := Build_Position 1 11 |})])
          None None None (Some first_location)]) = true.
Proof.
  apply (parsed_tree_is_well_formed 4 "<p id='x'><Card open/></p>").
  vm_compute. reflexivity.
Defined.

(** ** Closing tags are not matched by name *)











(** * The builder *)

(** ** When the builder throws *)

Section completion.
Context {S : Type}.

Lemma returns_ret {A} (a : A) : returns (@ret S A a).
Proof. intros s. by eexists _, _. Qed.

Lemma returns_get : returns (@get S).
Proof. intros s. by eexists _, _. Qed.

Lemma returns_modify (f : S → S) : returns (modify f).
Proof. intros s. by eexists _, _. Qed.

Lemma returns_bind {A C} (m : M S A) (f : A → M S C) :
  returns m → (∀ a, returns (f a)) → returns (bind m f).
Proof.
  intros Hm Hf s. unfold bind. destruct (Hm s) as (a & s' & ->). apply Hf.
Qed.

Lemma throws_throw {A} e : throws e (@throw S A e).
Proof. intros s. by eexists. Qed.

Lemma throws_bind {A C} e (m : M S A) (f : A → M S C) :
  throws e m → throws e (bind m f).
Proof.
  intros Hm s. unfold bind. destruct (Hm s) as (s' & ->). by eexists.
Qed.

Lemma throws_bind_r {A C} e (m : M S A) (f : A → M S C) :
  returns m → (∀ a, throws e (f a)) → throws e (bind m f).
Proof.
  intros Hm Hf s. unfold bind. destruct (Hm s) as (a & s' & ->). apply Hf.
Qed.

Lemma completes_bind {A C} e c (m : M S A) (f : A → M S C) :
  completes e c m → (∀ a, returns (f a)) → completes e c (bind m f).
Proof.
  destruct c; simpl; intros Hm Hf; [by apply throws_bind | by apply returns_bind].
Qed.

Lemma completes_bind_r {A C} e c (m : M S A) (f : A → M S C) :
  returns m → (∀ a, completes e c (f a)) → completes e c (bind m f).
Proof.
  destruct c; simpl; intros Hm Hf; [by apply throws_bind_r | by apply returns_bind].
Qed.

Lemma completes_for_each {A} e (p : A → bool) (body : A → M S unit) l :
  Forall (fun x => completes e (p x) (body x)) l →
  completes e (existsb p l) (for_each body l).
Proof.
  induction 1 as [|x l Hx Hl IH]; simpl; [apply returns_ret|].
  destruct (p x); simpl in *; [by apply throws_bind|].
  destruct (existsb p l); simpl in *.
  - apply throws_bind_r; [done | by intros _].
  - apply returns_bind; [done | by intros _].
Qed.

Lemma completes_map_each {A C} e (p : A → bool) (f : A → M S C) l :
  Forall (fun x => completes e (p x) (f x)) l →
  completes e (existsb p l) (map_each f l).
Proof.
  induction 1 as [|x l Hx Hl IH]; simpl; [apply returns_ret|].
  destruct (p x); simpl in *; [by apply throws_bind|].
  destruct (existsb p l); simpl in *.
  - apply throws_bind_r; [done | intros y]. by apply throws_bind.
  - apply returns_bind; [done | intros y].
    apply returns_bind; [done | intros ys; apply returns_ret].
Qed.

Lemma returns_for_each {A} (body : A → M S unit) l :
  (∀ x, returns (body x)) → returns (for_each body l).
Proof.
  intros Hbody. induction l as [|x l IH]; simpl; [apply returns_ret|].
  apply returns_bind; [done | by intros _].
Qed.

Lemma returns_map_each {A C} (f : A → M S C) l :
  (∀ x, returns (f x)) → returns (map_each f l).
Proof.
  intros Hf. induction l as [|x l IH]; simpl; [apply returns_ret|].
  apply returns_bind; [done | intros y].
  apply returns_bind; [done | intros ys; apply returns_ret].
Qed.
End completion.

Lemma returns_newVar p : returns (newVar p).
Proof. intros b. by eexists _, _. Qed.

Lemma returns_emitInst inst : returns (emitInst inst).
Proof. intros b. by eexists _, _. Qed.

Ltac returns_step :=
  match goal with
  | |- returns (bind _ _) => apply returns_bind; [| intros ?]
  | |- returns (ret _) => apply returns_ret
  | |- returns get => apply returns_get
  | |- returns (modify _) => apply returns_modify
  | |- returns (newVar _) => apply returns_newVar
  | |- returns (emitInst _) => apply returns_emitInst
  | |- returns (if ?c then _ else _) => destruct c
  | |- returns (match ?x with _ => _ end) => destruct x
  end.

Lemma returns_visitValue v : returns (visitValue v).
Proof. unfold visitValue. repeat returns_step. Qed.

Lemma returns_optimize : returns optimize.
Proof. intros b. destruct (optimize_run b) as (b' & -> & _). by eexists _, _. Qed.

Lemma visitNode_completes node :
  completes (Error "Element node missing tag") (missing_tag node) (visitNode node).
Proof.
  induction node as [ty tag attributes children v e s l IH]
    using ASTNode_children_ind.
  destruct ty; cbn [visitNode missing_tag].
  - unfold visitProgram. apply completes_bind; [|intros ?; apply returns_ret].
    destruct children as [cs|]; [by apply completes_map_each | apply returns_ret].
  - unfold visitElement. destruct (truthy tag); [|apply throws_throw].
    cbn [negb orb].
    apply completes_bind_r; [apply returns_newVar | intros dest].
    apply completes_bind_r; [apply returns_emitInst | intros _].
    apply completes_bind_r.
    { destruct attributes as [entries|]; [|apply returns_ret].
      apply returns_for_each. intros kv.
      apply returns_bind; [apply returns_visitValue | intros valueVar].
      repeat returns_step. }
    intros _. apply completes_bind; [|intros _; apply returns_ret].
    destruct children as [cs|]; [|apply returns_ret].
    apply completes_for_each. eapply Forall_impl; [exact IH|].
    intros child Hchild. apply completes_bind; [done | intros childVar].
    repeat returns_step.
  - unfold completes, visitText. repeat returns_step.
  - unfold completes, visitExpression. repeat returns_step.
  - unfold completes, visitComponent. repeat returns_step.
  - unfold visitFragment.
    apply completes_bind_r; [apply returns_newVar | intros dest].
    apply completes_bind; [|intros visited; repeat returns_step].
    destruct children as [cs|]; [by apply completes_map_each | apply returns_ret].
Qed.

Lemma build_completes ast :
  completes (Error "Element node missing tag") (missing_tag ast) (build ast).
Proof.
  unfold build. apply completes_bind; [apply visitNode_completes | intros _].
  apply returns_bind; [apply returns_optimize | intros _].
  apply returns_bind; [apply returns_get | intros b; apply returns_ret].
Qed.

(** X9: the builder throws exactly when it visits an element without a
    tag or with the empty tag, and then the error is the one of
    visitElement; on every other tree buildSSA returns an IR.  The
    children of a component are not visited and cannot make it throw. *)
Theorem buildSSA_throws_only_for_a_missing_tag (ast : ASTNode) :
  if missing_tag ast
  then buildSSA ast = Throw (Error "Element node missing tag")
  else ∃ i, buildSSA ast = Normal i.
Proof.
  pose proof (build_completes ast) as Hbuild. unfold buildSSA.
  destruct (missing_tag ast).
  - destruct (Hbuild new_SSABuilder) as (b & ->). reflexivity.
  - destruct (Hbuild new_SSABuilder) as (i & b & ->). by exists i.
Qed.

(** ** What the optimizer leaves of an instruction *)

Lemma same_but_args_refl inst : same_but_args inst inst.
Proof. by repeat split. Qed.

Lemma fold_args_length a :
  ∀ c b r b', fold_args a c b = (Normal r, b') → length r.1 = length a.
Proof.
  induction a as [|arg rest IH]; intros c b r b'; cbn [fold_args].
  - by intros [= <- _].
  - destruct (c !! arg) as [val|].
    + unfold bind at 1. rewrite newVar_run. unfold bind.
      destruct (fold_args rest _ _) as [[r1|e] b1] eqn:Hrest; [|done].
      intros [= <- _]. cbn [fst length]. f_equal. by eapply IH.
    + unfold bind.
      destruct (fold_args rest _ _) as [[r1|e] b1] eqn:Hrest; [|done].
      intros [= <- _]. cbn [fst length]. f_equal. by eapply IH.
Qed.

Lemma fold_inst_same inst c b r b' :
  fold_inst inst c b = (Normal r, b') → same_but_args inst r.1.
Proof.
  unfold fold_inst. destruct (args inst) as [a|] eqn:Ha.
  - unfold bind. destruct (fold_args a c b) as [[r1|e] b1] eqn:Hargs; [|done].
    intros [= <- _]. apply fold_args_length in Hargs.
    repeat split. cbn [fst set_args args]. rewrite Ha. simpl. by f_equal.
  - intros [= <- _]. apply same_but_args_refl.
Qed.

Lemma fold_insts_same insts :
  ∀ c b r b', fold_insts insts c b = (Normal r, b') →
  Forall2 same_but_args insts r.1.
Proof.
  induction insts as [|inst rest IH]; intros c b r b'; cbn [fold_insts].
  - intros [= <- _]. constructor.
  - unfold bind.
    destruct (fold_inst inst c b) as [[r1|e] b1] eqn:Hinst; [|done].
    destruct (fold_insts rest _ b1) as [[r2|e] b2] eqn:Hrest; [|done].
    intros [= <- _]. constructor; [by eapply fold_inst_same | by eapply IH].
Qed.

Lemma fold_blocks_same bs :
  ∀ c b r b', fold_blocks bs c b = (Normal r, b') →
  Forall2 same_but_args (bs ≫= fun kb => instructions kb.2)
                        (r.1 ≫= fun kb => instructions kb.2)
  ∧ r.1.*1 = bs.*1.
Proof.
  induction bs as [|kb rest IH]; intros c b r b'; cbn [fold_blocks].
  - intros [= <- _]. by split; [constructor|].
  - unfold bind.
    destruct (fold_insts _ c b) as [[r1|e] b1] eqn:Hinsts; [|done].
    destruct (fold_blocks rest _ b1) as [[r2|e] b2] eqn:Hrest; [|done].
    intros [= <- _]. apply fold_insts_same in Hinsts.
    apply IH in Hrest as [Hsame Hkeys]. cbn [fst]. split.
    + rewrite !bind_cons. by apply Forall2_app.
    + rewrite !fmap_cons. by f_equal.
Qed.

Lemma constantFolding_same b b' :
  constantFolding b = (Normal tt, b') →
  Forall2 same_but_args (all_instructions (ir b)) (all_instructions (ir b'))
  ∧ (blocks (ir b')).*1 = (blocks (ir b)).*1 ∧ entry (ir b') = entry (ir b).
Proof.
  unfold constantFolding, bind, get.
  destruct (fold_blocks_run (blocks (ir b))
              (collect_constants (all_instructions (ir b))) b)
    as (bs' & c' & b1 & Hrun & Hir & _).
  rewrite Hrun. intros [= <-].
  apply fold_blocks_same in Hrun as [Hsame Hkeys]. cbn [fst] in *.
  unfold all_instructions. cbn [ir set_ir blocks set_blocks entry].
  by rewrite Hir.
Qed.

Lemma deadCodeElimination_same b b' :
  deadCodeElimination b = (Normal tt, b') →
  all_instructions (ir b') =
    filter (dce_keep (used_names (ir b))) (all_instructions (ir b))
  ∧ (blocks (ir b')).*1 = (blocks (ir b)).*1 ∧ entry (ir b') = entry (ir b).
Proof.
  destruct (deadCodeElimination_run b) as (b1 & Hrun & Hall).
  rewrite Hrun. intros [= <-]. split; [done|].
  injection Hrun as <-. cbn [ir set_ir blocks set_blocks entry]. split; [|done].
  rewrite <- list_fmap_compose. by apply list_fmap_ext.
Qed.

Lemma optimize_same b b' :
  optimize b = (Normal tt, b') →
  Forall2 same_but_args
    (filter (dce_keep (used_names (ir b))) (all_instructions (ir b)))
    (all_instructions (ir b'))
  ∧ (blocks (ir b')).*1 = (blocks (ir b)).*1 ∧ entry (ir b') = entry (ir b).
Proof.
  unfold optimize.
  destruct (deadCodeElimination_run b) as (b1 & Hrun1 & _).
  destruct (constantFolding_run b1) as (b2 & Hrun2 & _).
  unfold bind. rewrite Hrun1, Hrun2. intros [= <-].
  apply deadCodeElimination_same in Hrun1 as (Hall & Hkeys1 & Hentry1).
  apply constantFolding_same in Hrun2 as (Hsame & Hkeys2 & Hentry2).
  rewrite <- Hall.
  split_and!; [done | exact (eq_trans Hkeys2 Hkeys1) | exact (eq_trans Hentry2 Hentry1)].
Qed.

Lemma buildSSA_same ast i :
  buildSSA ast = Normal i →
  Forall2 same_but_args
    (filter (dce_keep (used_names (ir (after_visit ast))))
            (all_instructions (ir (after_visit ast))))
    (all_instructions i)
  ∧ (blocks i).*1 = (blocks (ir (after_visit ast))).*1
  ∧ entry i = entry (ir (after_visit ast)).
Proof.
  unfold buildSSA, build, after_visit. unfold bind at 1.
  destruct (visitNode ast new_SSABuilder) as [[r|e] b1]; [|done].
  destruct (optimize_run b1) as (b2 & Hrun & _).
  unfold bind, get. rewrite Hrun. cbn [fst snd]. intros [= <-].
  by apply optimize_same.
Qed.

(** ** The instructions and the block of the builder *)

Lemma keeps_visitValue (P : SSABuilder → Prop) :
  (∀ p, keeps P (newVar p)) →
  (∀ inst, builder_shape inst = true → keeps P (emitInst inst)) →
  ∀ v, keeps P (visitValue v).
Proof.
  intros HnewVar Hemit v. unfold visitValue.
  repeat match goal with
         | |- keeps _ (bind _ _) => apply keeps_bind; [| intros ?]
         | |- keeps _ (ret _) => apply keeps_ret
         | |- keeps _ (newVar _) => apply HnewVar
         | |- keeps _ (emitInst _) => apply Hemit; reflexivity
         | |- keeps _ (if ?c then _ else _) => destruct c
         | |- keeps _ (match ?x with _ => _ end) => destruct x
         end.
Qed.

Section visit_keeps.
Context (P : SSABuilder → Prop).
Hypothesis keeps_newVar : ∀ p, keeps P (newVar p).
Hypothesis keeps_value : ∀ v, keeps P (visitValue v).
Hypothesis keeps_emitInst :
  ∀ inst, builder_shape inst = true →
          (op inst = alloc → metadata_isStatic inst = false) →
          keeps P (emitInst inst).

Ltac visit_step :=
  match goal with
  | |- keeps _ (bind get _) => apply keeps_get_bind; intros ?
  | |- keeps _ (bind _ _) => apply keeps_bind; [| intros ?]
  | |- keeps _ (ret _) => apply keeps_ret
  | |- keeps _ (throw _) => apply keeps_throw
  | |- keeps _ (newVar _) => apply keeps_newVar
  | |- keeps _ (emitInst _) => apply keeps_emitInst; [reflexivity | done]
  | |- keeps _ (if ?c then _ else _) => destruct c
  | |- keeps _ (match ?x with _ => _ end) => destruct x
  end.

(** A property of the builder state holds after a visit when [newVar]
    keeps it, [visitValue] keeps it, and [emit] keeps it for every
    instruction of the builder's shape that is no static alloc; the
    static allocs are those of [visitValue]. *)
Lemma keeps_visitNode node : keeps P (visitNode node).
Proof using keeps_newVar keeps_value keeps_emitInst.
  induction node as [ty tag attributes children v e s l IH]
    using ASTNode_children_ind.
  destruct ty; simpl.
  - unfold visitProgram. destruct children as [cs|].
    + apply keeps_bind; [by apply keeps_map_each | intros ?; apply keeps_ret].
    + repeat visit_step.
  - unfold visitElement. destruct (truthy tag); [|apply keeps_throw].
    apply keeps_bind; [apply keeps_newVar | intros dest].
    apply keeps_bind; [apply keeps_emitInst; [reflexivity | done] | intros _].
    apply keeps_bind.
    { destruct attributes as [entries|]; [|apply keeps_ret].
      apply keeps_for_each, Forall_forall. intros kv _.
      apply keeps_bind; [apply keeps_value | intros ?].
      repeat visit_step. }
    intros _. apply keeps_bind; [|intros _; apply keeps_ret].
    destruct children as [cs|]; [|apply keeps_ret].
    apply keeps_for_each. eapply Forall_impl; [exact IH|].
    intros child Hchild. simpl.
    apply keeps_bind; [done | intros childVar]. repeat visit_step.
  - unfold visitText. repeat visit_step.
  - unfold visitExpression. repeat visit_step.
  - unfold visitComponent. repeat visit_step.
  - unfold visitFragment.
    apply keeps_bind; [apply keeps_newVar | intros dest].
    apply keeps_bind.
    { destruct children as [cs|]; [by apply keeps_map_each | apply keeps_ret]. }
    intros visited. apply keeps_bind; [|intros ?; apply keeps_ret].
    apply keeps_emitInst; [reflexivity | done].
Qed.
End visit_keeps.

Lemma update_block_keys k f bs : (update_block k f bs).*1 = bs.*1.
Proof.
  unfold update_block. rewrite <- list_fmap_compose. apply list_fmap_ext.
  intros _ kb _. simpl. by case_decide.
Qed.

Lemma keeps_one_block_emitInst inst : keeps one_block (emitInst inst).
Proof.
  intros b (Hkeys & Hentry & Hcurrent). split_and!; [|done..].
  simpl. by rewrite update_block_keys.
Qed.

Lemma keeps_one_block_visitNode node : keeps one_block (visitNode node).
Proof.
  apply keeps_visitNode.
  - by intros p b.
  - apply keeps_visitValue; [by intros p b|].
    intros inst _. apply keeps_one_block_emitInst.
  - intros inst _ _. apply keeps_one_block_emitInst.
Qed.

Lemma keeps_shaped_emitInst inst :
  builder_shape inst = true → keeps shaped (emitInst inst).
Proof.
  intros Hinst b Hb. unfold shaped, all_instructions in *. simpl.
  apply Forall_forall. intros inst' [Hin| ->]%elem_of_update_block_push; [|done].
  by eapply Forall_forall in Hb.
Qed.

Lemma keeps_shaped_visitNode node : keeps shaped (visitNode node).
Proof.
  apply keeps_visitNode.
  - by intros p b.
  - apply keeps_visitValue; [by intros p b | apply keeps_shaped_emitInst].
  - intros inst Hinst _. by apply keeps_shaped_emitInst.
Qed.

Lemma builder_shape_same inst inst' :
  same_but_args inst inst' → builder_shape inst = true → builder_shape inst' = true.
Proof.
  intros (Hop & Hdest & _ & _ & _ & Hlen). unfold builder_shape.
  by rewrite Hop, Hdest, Hlen.
Qed.

Lemma buildSSA_shaped ast i :
  buildSSA ast = Normal i →
  (blocks i).*1 = [0] ∧ entry i = 0
  ∧ Forall (fun inst => builder_shape inst = true) (all_instructions i).
Proof.
  intros (Hsame & Hkeys & Hentry)%buildSSA_same.
  assert (one_block new_SSABuilder) as Hone by done.
  apply (keeps_one_block_visitNode ast) in Hone as (Hkeys1 & Hentry1 & _).
  assert (shaped new_SSABuilder) as Hshaped by apply Forall_nil_2.
  apply (keeps_shaped_visitNode ast) in Hshaped.
  split_and!; [by rewrite Hkeys | by rewrite Hentry |].
  eapply Forall2_Forall_r; [exact Hsame|].
  apply Forall_forall. intros inst0 [_ Hin]%list_elem_of_filter inst Hinst.
  eapply builder_shape_same; [exact Hinst|].
  by eapply Forall_forall in Hshaped.
Qed.

(** X10: the IR that buildSSA returns has exactly one block, the entry
    block 0, and every instruction in it is an alloc, load, create_text,
    create_element or call with a destination, or a set_prop or
    append_child without one, with the number of arguments the visitor
    gave it.  The optimizer adds no block and changes no operation; the
    builder emits no store, mount, patch or return. *)
Theorem buildSSA_returns_one_shaped_block (ast : ASTNode) (i : SSAIR) :
  buildSSA ast = Normal i →
  (∃ block, blocks i = [(0, block)] ∧ Map_get (blocks i) (entry i) = Some block)
  ∧ blockCount (analyzeSSA i) = 1
  ∧ Forall (fun inst => builder_shape inst = true) (all_instructions i).
Proof.
  intros (Hkeys & Hentry & Hshape)%buildSSA_shaped.
  destruct (blocks i) as [|[k block] [|kb bs]] eqn:Hblocks; try done.
  injection Hkeys as ->.
  split_and!; [|by cbn; rewrite Hblocks|done].
  exists block. rewrite Hentry. by split.
Qed.

Lemma buildSSA_returns_one_shaped_block_witness :
  (∃ block, blocks (optimized (program_of [element_of "p" [] [text_of "a"]]))
            = [(0, block)]
     ∧ Map_get (blocks (optimized (program_of [element_of "p" [] [text_of "a"]])))
               (entry (optimized (program_of [element_of "p" [] [text_of "a"]])))
       = Some block)
  ∧ blockCount (analyzeSSA (optimized (program_of [element_of "p" [] [text_of "a"]])))
    = 1
  ∧ Forall (fun inst => builder_shape inst = true)
      (all_instructions (optimized (program_of [element_of "p" [] [text_of "a"]]))).
Proof.
  apply (buildSSA_returns_one_shaped_block
           (program_of [element_of "p" [] [text_of "a"]])).
  vm_compute. reflexivity.
Defined.

(** * The code generator *)

(** ** The generator does not throw on the builder's instructions *)

Lemma returns_for_each_Forall {S A} (body : A → M S unit) l :
  Forall (fun x => returns (body x)) l → returns (for_each body l).
Proof.
  induction 1 as [|x l Hx Hl IH]; simpl; [apply returns_ret|].
  apply returns_bind; [done | by intros _].
Qed.

Lemma returns_emit code : returns (emit code).
Proof.
  unfold emit. apply returns_bind; [apply returns_get | intros g].
  destruct (minify (options g)); apply returns_modify.
Qed.

Lemma returns_getVarName original : returns (getVarName original).
Proof.
  unfold getVarName. apply returns_bind; [apply returns_get | intros g].
  destruct (varMap g !! original); [apply returns_ret|].
  destruct (minify (options g)); [|apply returns_ret].
  apply returns_bind; [apply returns_modify | intros _; apply returns_ret].
Qed.

Lemma returns_args_of inst : is_Some (args inst) → returns (args_of inst).
Proof. intros [a Ha]. unfold args_of. rewrite Ha. apply returns_ret. Qed.

Ltac generator_step :=
  match goal with
  | |- returns (bind _ _) => apply returns_bind; [| intros ?]
  | |- returns (ret _) => apply returns_ret
  | |- returns get => apply returns_get
  | |- returns (modify _) => apply returns_modify
  | |- returns indentInc => apply returns_modify
  | |- returns indentDec => apply returns_modify
  | |- returns (emit _) => apply returns_emit
  | |- returns (getVarName _) => apply returns_getVarName
  | |- returns (args_of _) => apply returns_args_of; assumption
  | |- returns (map_each _ _) => apply returns_map_each; intros ?
  | |- returns (if ?c then _ else _) => destruct c
  | |- returns (match ?x with _ => _ end) => destruct x
  end.

Lemma builder_shape_args inst :
  builder_shape inst = true →
  op inst = create_element ∨ op inst = call ∨ op inst = set_prop
  ∨ op inst = append_child →
  is_Some (args inst).
Proof.
  unfold builder_shape. intros Hshape Hop.
  destruct (args inst) as [a|]; [by eexists|]. exfalso.
  destruct Hop as [Hop|[Hop|[Hop|Hop]]]; rewrite Hop in Hshape;
    by apply andb_prop in Hshape as [_ ?%bool_decide_eq_true].
Qed.

Lemma returns_emitInstruction inst :
  builder_shape inst = true → returns (emitInstruction inst).
Proof.
  intros Hshape. pose proof (builder_shape_args inst Hshape) as Hargs.
  unfold emitInstruction. destruct (op inst) eqn:Hop;
    try (by unfold builder_shape in Hshape; rewrite Hop in Hshape).
  - unfold emitAlloc. repeat generator_step.
  - unfold emitLoad. repeat generator_step.
  - assert (is_Some (args inst)) by (apply Hargs; tauto).
    unfold emitCall. repeat generator_step.
  - assert (is_Some (args inst)) by (apply Hargs; tauto).
    unfold emitCreateElement. repeat generator_step.
  - unfold emitCreateText. repeat generator_step.
  - assert (is_Some (args inst)) by (apply Hargs; tauto).
    unfold emitSetProp. repeat generator_step.
  - assert (is_Some (args inst)) by (apply Hargs; tauto).
    unfold emitAppendChild. repeat generator_step.
Qed.

Lemma Map_get_instructions (bs : list (nat * SSABasicBlock)) k block :
  Map_get bs k = Some block →
  instructions block ⊆ bs ≫= fun kb => instructions kb.2.
Proof.
  induction bs as [|[k' b'] bs IH]; [done|]. cbn [Map_get].
  case_decide.
  - intros [= ->] inst Hin. rewrite bind_cons. apply elem_of_app. by left.
  - intros Hget inst Hin. rewrite bind_cons. apply elem_of_app. right.
    by apply IH.
Qed.

Lemma returns_generate i :
  Forall (fun inst => builder_shape inst = true) (all_instructions i) →
  returns (generate i).
Proof.
  intros Hshape. unfold generate, emitHeader, emitFooter.
  assert (returns (emitBlocks i)) as Hblocks.
  { unfold emitBlocks.
    destruct (Map_get (blocks i) (entry i)) as [block|] eqn:Hget;
      [|apply returns_ret].
    apply Map_get_instructions in Hget.
    apply returns_bind; [apply returns_emit | intros _].
    apply returns_bind; [apply returns_modify | intros _].
    apply returns_bind; [|intros _; repeat generator_step].
    apply returns_for_each_Forall, Forall_forall. intros inst Hin%Hget.
    apply returns_emitInstruction. by eapply Forall_forall in Hshape. }
  repeat first [exact Hblocks | generator_step].
Qed.

(** X11: the code generator returns code for every IR that buildSSA
    returns, under every choice of options: no emitter reads the
    arguments of an instruction that has none. *)
Theorem generateCode_returns_on_built_ir (ast : ASTNode) (i : SSAIR)
    (o : PartialCodeGenOptions) :
  buildSSA ast = Normal i → ∃ code, generateCode i o = Normal code.
Proof.
  intros (_ & _ & Hshape)%buildSSA_shaped.
  unfold generateCode.
  destruct (returns_generate i Hshape (new_CodeGenerator o)) as (code & g & ->).
  by exists code.
Qed.

Lemma generateCode_returns_on_built_ir_witness :
  ∃ code,
    generateCode (optimized (program_of [element_of "p" [] [text_of "a"]]))
      {| opt_target := None; opt_minify := Some false; opt_inlineCache := None;
         opt_staticOptimization := None |} = Normal code.
Proof.
  apply (generateCode_returns_on_built_ir
           (program_of [element_of "p" [] [text_of "a"]])).
  vm_compute. reflexivity.
Defined.

(** X12: compiling a source that parses to a tree either throws the
    error of visitElement, when the builder visits an element with an
    empty tag, or returns code; it throws nothing else, under any options. *)
Theorem compile_throws_only_for_a_missing_tag (fuel : nat) (source : string)
    (ast : ASTNode) (o : PartialCodeGenOptions) :
  parse fuel source = Some ast →
  if missing_tag ast
  then compileWithOptions fuel source o = Some (Throw (Error "Element node missing tag"))
       ∧ compile fuel source = Some (Throw (Error "Element node missing tag"))
  else ∃ code code', compileWithOptions fuel source o = Some (Normal code)
                     ∧ compile fuel source = Some (Normal code').
Proof.
  intros Hparse. unfold compile, compileWithOptions. rewrite Hparse.
  pose proof (build_completes ast) as Hbuild.
  destruct (missing_tag ast).
  - destruct (Hbuild new_SSABuilder) as (b & Hthrow).
    unfold buildSSA. by rewrite Hthrow.
  - destruct (Hbuild new_SSABuilder) as (i & b & Hrun). clear Hbuild.
    assert (buildSSA ast = Normal i) as Hbuild by (unfold buildSSA; by rewrite Hrun).
    rewrite Hbuild.
    pose proof (buildSSA_shaped _ _ Hbuild) as (_ & _ & Hshape).
    unfold generateOptimizedCode, generateCode.
    destruct (returns_generate i Hshape (new_CodeGenerator o)) as (code & g & ->).
    destruct (returns_generate i Hshape
                (new_CodeGenerator
                   {| opt_target := None; opt_minify := Some true;
                      opt_inlineCache := Some true;
                      opt_staticOptimization := Some true |}))
      as (code' & g' & ->).
    by exists code, code'.
Qed.

Lemma compile_throws_only_for_a_missing_tag_witness :
  compileWithOptions 10 "<p><></p>"
    {| opt_target := None; opt_minify := None; opt_inlineCache := None;
       opt_staticOptimization := None |}
  = Some (Throw (Error "Element node missing tag"))
  ∧ compile 10 "<p><></p>" = Some (Throw (Error "Element node missing tag")).
Proof.
  assert (parse 10 "<p><></p>" =
          Some (program_of
                  [mkASTNode Element (Some "p") (Some [])
                     (Some [mkASTNode Element (Some EmptyString) (Some []) (Some [])
                              None None None
                              (Some {| start := Build_Position 1 4;
                                       end_ := Build_Position 1 4 |})])
                     None None None (Some first_location)])) as Hparse
    by (vm_compute; reflexivity).
  exact (compile_throws_only_for_a_missing_tag _ _ _
           {| opt_target := None; opt_minify := None; opt_inlineCache := None;
              opt_staticOptimization := None |} Hparse).
Defined.

(** ** The letters of a short name *)

Lemma prepend_char_lower k name :
  k < 26 →
  ∃ c, prepend_char k name = String c name ∧ is_lower c = true
       ∧ (c = "a"%char ↔ k = 0).
Proof.
  intros Hk.
  do 26 (destruct k as [|k]; [eexists; split_and!; try reflexivity; by split|]).
  lia.
Qed.

Lemma all_chars_app p s1 s2 :
  all_chars p s1 = true → all_chars p s2 = true → all_chars p (s1 +:+ s2) = true.
Proof.
  intros H1 H2. induction s1 as [|c s1 IH]; [done|].
  apply andb_prop in H1 as [Hc H1]. rewrite append_cons. simpl.
  by rewrite Hc, IH.
Qed.

Lemma shortNameLoop_letters n name :
  ∃ c d, shortNameLoop n name = String c (d +:+ name)
         ∧ is_lower c = true ∧ all_chars is_lower d = true
         ∧ (d = EmptyString ↔ n < 26) ∧ (c = "a"%char → n = 0).
Proof.
  funelim (shortNameLoop n name).
  - destruct (prepend_char_lower (n mod 26) name) as (c0 & Hc0 & Hlow0 & _);
      [apply Nat.mod_upper_bound; lia|].
    rewrite Hc0 in *.
    match goal with
    | IH : ∃ c d, shortNameLoop _ _ = _ ∧ _ |- _ =>
        destruct IH as (c & d & Hrun & Hlow & Hd & _ & Ha)
    end.
    match goal with H : 0 < _ |- _ => pose proof (H : 0 < n / 26) as Hq end.
    exists c, (d +:+ String c0 EmptyString). split_and!.
    + rewrite Hrun. f_equal. apply append_assoc_cons.
    + done.
    + apply all_chars_app; [done|]. simpl. by rewrite Hlow0.
    + split.
      * intros Hnil. destruct d; discriminate Hnil.
      * intros Hlt. rewrite Nat.div_small in Hq by done. lia.
    + intros Hc. specialize (Ha Hc). change (n / 26 = 0) in Ha. lia.
  - match goal with H : ¬ 0 < _ |- _ => pose proof (H : ¬ 0 < n / 26) as Hq end.
    assert (n < 26) as Hlt.
    { destruct (decide (n < 26)) as [|Hge]; [done|].
      pose proof (Nat.Div0.div_le_mono 26 n 26 ltac:(lia)) as Hle.
      rewrite Nat.div_same in Hle by lia. lia. }
    destruct (prepend_char_lower (n mod 26) name) as (c & Hc & Hlow & Ha);
      [apply Nat.mod_upper_bound; lia|].
    rewrite Nat.mod_small in Ha by done.
    exists c, EmptyString. split_and!; [by rewrite Hc | done | done | done | apply Ha].
Qed.

(** X13: every short name is a non-empty string of lower-case letters (the
    index into the alphabet is never out of range); it has one letter
    exactly for the indices below 26, and a name of several letters never
    starts with a, so that aa, ab, ... are names of no index. *)
Theorem short_names_are_letters_without_leading_a (n : nat) :
  ∃ c d, generateShortName n = String c d
         ∧ is_lower c = true ∧ all_chars is_lower d = true
         ∧ (d = EmptyString ↔ n < 26) ∧ (c = "a"%char → n = 0).
Proof.
  unfold generateShortName.
  destruct (shortNameLoop_letters n EmptyString) as (c & d & Hrun & H).
  exists c, d. by rewrite Hrun, append_nil_r.
Qed.

(** ** A closing tag at the top level *)

Lemma tokenize_close_first fuel tail tokens :
  Tokenizer.tokenize fuel (Tokenizer.new ("</" +:+ tail)) = Some tokens →
  ∃ token rest, tokens = token :: rest ∧ tok_type token = tk_close.
Proof.
  assert (trim ("</" +:+ tail) = String "<" (String "/" (trimEnd tail))) as Htrim.
  { unfold trim. change (trimStart ("</" +:+ tail)) with (String "<" (String "/" tail)).
    by rewrite !trimEnd_cons. }
  unfold Tokenizer.tokenize, Tokenizer.new. rewrite Htrim.
  set (st := {| Tokenizer.rest := String "<" (String "/" (trimEnd tail));
                Tokenizer.line := 1; Tokenizer.column := 1 |}).
  destruct fuel as [|fuel]; [done|]. cbn [Tokenizer.tokenize_loop].
  change (Tokenizer.rest st) with (String "<" (String "/" (trimEnd tail))).
  rewrite (skipWhitespace_non_space st "<" (String "/" (trimEnd tail))) by done.
  change (Tokenizer.peek_is "<" st) with true.
  change (Tokenizer.next_is_slash st) with true. cbv iota.
  destruct (Tokenizer.readCloseTag st) as [token st1] eqn:Hclose.
  assert (tok_type token = tk_close) as Hty.
  { unfold Tokenizer.readCloseTag in Hclose. by injection Hclose as <- _. }
  destruct (Tokenizer.tokenize_loop fuel st1 _) as [[body st2]|] eqn:Hloop; [|done].
  apply tokenize_loop_tokens in Hloop as (new & -> & _).
  intros [= <-]. by eexists _, _.
Qed.

(** X14: a closing tag that no element awaits ends the program: for a
    source that starts with a closing tag, whatever follows it, parse
    returns the program with no children. *)
Theorem leading_close_tag_ends_the_program (fuel : nat) (tail : string) (ast : ASTNode) :
  parse fuel ("</" +:+ tail) = Some ast → ast = program_of [].
Proof.
  unfold parse, Parser.parse.
  destruct (Tokenizer.tokenize fuel _) as [tokens|] eqn:Htok; [|done].
  apply tokenize_close_first in Htok as (token & rest & -> & Hty).
  assert (Parser.parseChildren fuel (token :: rest) = Some ([], token :: rest)) as ->.
  { destruct fuel; cbn [Parser.parseChildren]; unfold Parser.is_type;
      by rewrite Hty. }
  by intros [= <-].
Qed.

Lemma leading_close_tag_ends_the_program_witness :
  parse 5 "</a><p>text</p>" = Some (program_of []).
Proof.
  destruct (parse 5 "</a><p>text</p>") as [ast|] eqn:Hparse;
    [|by vm_compute in Hparse].
  f_equal. exact (leading_close_tag_ends_the_program 5 "a><p>text</p>" ast Hparse).
Defined.

(** ** Static trees *)

Lemma keeps_Forall_emitInst (Q : SSAInstruction → Prop) inst :
  Q inst → keeps (fun b => Forall Q (all_instructions (ir b))) (emitInst inst).
Proof.
  intros Hinst b Hb. unfold all_instructions in *. simpl.
  apply Forall_forall. intros inst' [Hin| ->]%elem_of_update_block_push; [|done].
  by eapply Forall_forall in Hb.
Qed.

Lemma keeps_calm_emitInst inst :
  metadata_isDynamic inst = false → keeps calm (emitInst inst).
Proof. apply (keeps_Forall_emitInst (fun inst => metadata_isDynamic inst = false)). Qed.

Lemma keeps_calm_newVar p : keeps calm (newVar p).
Proof. by intros b. Qed.

Lemma keeps_calm_visitValue v :
  static_attribute v = true → keeps calm (visitValue v).
Proof.
  intros Hv. unfold visitValue.
  assert (∀ dest,
            keeps calm
              (emitInst {| op := alloc; dest := Some dest; args := None; value := v;
                           metadata := Some {| md_tag := None; md_isStatic := Some true;
                                               md_key := None; md_component := None;
                                               md_type := None |};
                           blockId := None |} >> ret dest)) as Halloc.
  { intros dest. apply keeps_bind; [by apply keeps_calm_emitInst | intros _].
    apply keeps_ret. }
  destruct v as [| | s |]; try (apply keeps_bind; [apply keeps_calm_newVar | done]).
  simpl in Hv. apply negb_true_iff in Hv. rewrite Hv. cbn [andb].
  apply keeps_bind; [apply keeps_calm_newVar | done].
Qed.

Lemma forallb_Forall_2 {A} (p q : A → bool) (R : A → Prop) l :
  Forall (fun x => p x = true → q x = true → R x) l →
  forallb p l = true → forallb q l = true → Forall R l.
Proof.
  induction 1 as [|x l Hx Hl IH]; [by constructor|]. cbn [forallb].
  intros [Hp Hps]%andb_prop [Hq Hqs]%andb_prop. constructor; auto.
Qed.

Lemma keeps_calm_visitNode node :
  parsed_node node = true → isStaticNode node = true → keeps calm (visitNode node).
Proof.
  induction node as [ty tag attributes children v e s l IH]
    using ASTNode_children_ind.
  intros Hparsed Hstatic. destruct ty; try done; cbn [visitNode].
  - destruct tag as [name|], attributes as [entries|], children as [cs|],
      s as [flag|]; try done.
    cbn [parsed_node isStaticNode] in Hparsed, Hstatic.
    apply andb_prop in Hparsed as [_ Hcs].
    destruct (existsb _ entries) eqn:Hentries; [done|].
    pose proof (forallb_Forall_2 _ _ _ _ IH Hcs Hstatic) as Hchildren.
    unfold visitElement. destruct (truthy (Some name)); [|apply keeps_throw].
    apply keeps_bind; [apply keeps_calm_newVar | intros dest].
    apply keeps_bind; [by apply keeps_calm_emitInst | intros _].
    apply keeps_bind.
    { apply keeps_for_each, Forall_forall. intros kv Hin.
      assert (static_attribute kv.2 = true) as Hkv.
      { destruct (static_attribute kv.2) eqn:Hkv; [done|].
        assert (existsb (fun kv => dynamic_attribute kv.2) entries = true) as Hex.
        { apply existsb_exists. exists kv. split; [by apply list_elem_of_In|].
          unfold dynamic_attribute. by rewrite Hkv. }
        congruence. }
      apply keeps_bind; [by apply keeps_calm_visitValue | intros valueVar].
      apply keeps_bind; [|intros _; apply keeps_ret].
      apply keeps_calm_emitInst. unfold metadata_isDynamic. cbn. by rewrite Hkv. }
    intros _. apply keeps_bind; [|intros _; apply keeps_ret].
    apply keeps_for_each. eapply Forall_impl; [exact Hchildren|].
    intros child Hchild. cbn beta.
    apply keeps_bind; [done | intros childVar].
    destruct (truthy (Some childVar)); [|apply keeps_ret].
    apply keeps_bind; [by apply keeps_calm_emitInst | intros _; apply keeps_ret].
  - unfold visitText.
    apply keeps_bind; [apply keeps_calm_newVar | intros dest].
    apply keeps_bind; [by apply keeps_calm_emitInst | intros _; apply keeps_ret].
  - unfold visitComponent.
    apply keeps_bind; [apply keeps_calm_newVar | intros dest].
    apply keeps_bind; [apply keeps_calm_newVar | intros propsVar].
    apply keeps_bind; [by apply keeps_calm_emitInst | intros _].
    apply keeps_bind; [by apply keeps_calm_emitInst | intros _; apply keeps_ret].
Qed.

Lemma keeps_calm_visit_tree ast :
  parsed_tree ast = true → isStaticNode ast = true → keeps calm (visitNode ast).
Proof.
  destruct ast as [ty tag attributes children v e s l].
  unfold parsed_tree. cbn [node_type node_children isStaticNode visitNode].
  destruct ty; try done. destruct children as [cs|]; [|done].
  intros Hparsed Hstatic.
  destruct (match attributes with Some _ => _ | None => _ end); [done|].
  unfold visitProgram. apply keeps_bind; [|intros visited; apply keeps_ret].
  apply keeps_map_each.
  eapply (forallb_Forall_2 parsed_node isStaticNode); [|done..].
  apply Forall_forall. intros child _. apply keeps_calm_visitNode.
Qed.

Lemma filter_none {A} (p : A → bool) l :
  Forall (fun x => p x = false) l → filter (fun x => p x) l = [].
Proof.
  induction 1 as [|x l Hx Hl IH]; [done|].
  rewrite filter_cons, Hx. simpl. exact IH.
Qed.

(** X15: when a source parses to a tree that isStaticNode accepts, the IR
    buildSSA returns for the tree holds no instruction marked dynamic:
    analyzeSSA counts no dynamic node. *)
Theorem static_tree_has_no_dynamic_instruction (fuel : nat) (source : string)
    (ast : ASTNode) (i : SSAIR) :
  parse fuel source = Some ast → isStaticNode ast = true → buildSSA ast = Normal i →
  dynamicNodes (analyzeSSA i) = 0.
Proof.
  intros Hparse Hstatic (Hsame & _)%buildSSA_same.
  assert (parsed_tree ast = true) as Hparsed.
  { revert Hparse. unfold parse, Parser.parse.
    destruct (Tokenizer.tokenize fuel _) as [tokens|] eqn:Htok; [|done].
    destruct (Parser.parseChildren fuel _) as [[children ts]|] eqn:Hch; [|done].
    intros [= <-]. apply tokenize_tag_tokens in Htok.
    by apply (proj1 (parse_functions_shape fuel)) in Hch as [Hc _]. }
  assert (calm new_SSABuilder) as Hcalm by apply Forall_nil_2.
  apply (keeps_calm_visit_tree ast Hparsed Hstatic) in Hcalm.
  assert (Forall (fun inst => metadata_isDynamic inst = false) (all_instructions i))
    as Hall.
  { eapply Forall2_Forall_r; [exact Hsame|].
    apply Forall_forall. intros inst0 [_ Hin]%list_elem_of_filter inst Hinst.
    destruct Hinst as (_ & _ & _ & Hmeta & _).
    unfold metadata_isDynamic. rewrite Hmeta.
    by eapply Forall_forall in Hcalm. }
  cbn [analyzeSSA dynamicNodes]. rewrite filter_none; [done|].
  eapply Forall_impl; [exact Hall|]. intros inst ->. apply andb_false_r.
Qed.

Lemma static_tree_has_no_dynamic_instruction_witness :
  dynamicNodes
    (analyzeSSA
       (optimized (program_of
          [mkASTNode Element (Some "p") (Some [("id", VString "x")])
             (Some [mkASTNode Text None None None (Some "a") None (Some true)
                      (Some {| start := Build_Position 1 11;
                               end_ := Build_Position 1 11 |})])
             None None None (Some first_location)]))) = 0.
Proof.
  apply (static_tree_has_no_dynamic_instruction 4 "<p id='x'>a</p>"
           (program_of
              [mkASTNode Element (Some "p") (Some [("id", VString "x")])
                 (Some [mkASTNode Text None None None (Some "a") None (Some true)
                          (Some {| start := Build_Position 1 11;
                                   end_ := Build_Position 1 11 |})])
                 None None None (Some first_location)]));
    vm_compute; reflexivity.
Defined.

(** ** The generated code is the factory function *)

Lemma shift_ext (f h : nat → nat) {A} (m : CG A) :
  (∀ i, f i = h i) → shift f m → shift h m.
Proof.
  intros Hfh Hm g. destruct (Hm g) as (Ho & Hout & Hi).
  split_and!; [done..|]. intros a Ha. rewrite <- Hfh. by eapply Hi.
Qed.

Lemma shift_bind (f h : nat → nat) {A C} (m : CG A) (k : A → CG C) :
  shift f m → (∀ a, shift h (k a)) → shift (fun i => h (f i)) (bind m k).
Proof.
  intros Hm Hk g. unfold bind. destruct (Hm g) as (Ho & [new Hout] & Hi).
  destruct (m g) as [[a|e] g1]; cbn [fst snd] in *; [|by split_and!; [|eexists|]].
  destruct (Hk a g1) as (Ho' & [new' Hout'] & Hi').
  split_and!.
  - by rewrite Ho'.
  - exists (new ++ new'). by rewrite Hout', Hout, app_assoc.
  - intros c Hc. rewrite (Hi' c Hc). f_equal. by eapply Hi.
Qed.

Lemma tidy_bind {A C} (m : CG A) (k : A → CG C) :
  tidy m → (∀ a, tidy (k a)) → tidy (bind m k).
Proof. intros Hm Hk. by apply (shift_bind (fun i => i) (fun i => i)). Qed.

Lemma tidy_get_bind {C} (k : CodeGenerator → CG C) :
  (∀ g, tidy (k g)) → tidy (bind get k).
Proof. intros Hk g. apply Hk. Qed.

Lemma tidy_ret {A} (a : A) : tidy (@ret CodeGenerator A a).
Proof. intros g. split_and!; [done | by exists []; rewrite app_nil_r | done]. Qed.

Lemma tidy_throw {A} e : tidy (@throw CodeGenerator A e).
Proof. intros g. split_and!; [done | by exists []; rewrite app_nil_r | done]. Qed.

Lemma tidy_emit code : tidy (emit code).
Proof.
  intros g. unfold emit, bind, get. cbn [fst snd].
  destruct (minify (options g)); (split_and!; [done | by eexists | done]).
Qed.

Lemma tidy_modify_varMap f : tidy (modify (set_varMap f)).
Proof. intros g. split_and!; [done | by exists []; rewrite app_nil_r | done]. Qed.

Lemma tidy_modify_staticCache f : tidy (modify (set_staticCache f)).
Proof. intros g. split_and!; [done | by exists []; rewrite app_nil_r | done]. Qed.

Lemma shift_indentInc : shift S indentInc.
Proof. intros g. split_and!; [done | by exists []; rewrite app_nil_r | done]. Qed.

Lemma shift_indentDec : shift (fun i => Nat.max 0 (i - 1)) indentDec.
Proof. intros g. split_and!; [done | by exists []; rewrite app_nil_r | done]. Qed.

Lemma tidy_args_of inst : tidy (args_of inst).
Proof. unfold args_of. destruct (args inst); [apply tidy_ret | apply tidy_throw]. Qed.

Lemma tidy_getVarName original : tidy (getVarName original).
Proof.
  unfold getVarName. apply tidy_get_bind. intros g.
  destruct (varMap g !! original); [apply tidy_ret|].
  destruct (minify (options g)); [|apply tidy_ret].
  apply tidy_bind; [apply tidy_modify_varMap | intros _; apply tidy_ret].
Qed.

Lemma tidy_for_each {A} (body : A → CG unit) l :
  (∀ x, tidy (body x)) → tidy (for_each body l).
Proof.
  intros Hbody. induction l as [|x l IH]; simpl; [apply tidy_ret|].
  apply tidy_bind; [done | by intros _].
Qed.

Lemma tidy_map_each {A C} (f : A → CG C) l :
  (∀ x, tidy (f x)) → tidy (map_each f l).
Proof.
  intros Hf. induction l as [|x l IH]; simpl; [apply tidy_ret|].
  apply tidy_bind; [done | intros y].
  apply tidy_bind; [done | intros ys; apply tidy_ret].
Qed.

(** Lines written one level deeper, then the level taken back. *)
Lemma tidy_indented (m k : CG unit) :
  tidy m → tidy k → tidy (indentInc >> m >> indentDec >> k).
Proof.
  intros Hm Hk.
  eapply shift_ext; [|apply shift_bind; [apply shift_indentInc | intros _];
                       apply shift_bind; [exact Hm | intros _];
                       apply shift_bind; [apply shift_indentDec | intros _; exact Hk]].
  intros i. simpl. lia.
Qed.

Ltac tidy_step :=
  match goal with
  | |- tidy (bind get _) => apply tidy_get_bind; intros ?
  | |- tidy (bind _ _) => apply tidy_bind; [| intros ?]
  | |- tidy (ret _) => apply tidy_ret
  | |- tidy (throw _) => apply tidy_throw
  | |- tidy (emit _) => apply tidy_emit
  | |- tidy (getVarName _) => apply tidy_getVarName
  | |- tidy (args_of _) => apply tidy_args_of
  | |- tidy (modify (set_staticCache _)) => apply tidy_modify_staticCache
  | |- tidy (map_each _ _) => apply tidy_map_each; intros ?
  | |- tidy (if ?c then _ else _) => destruct c
  | |- tidy (match ?x with _ => _ end) => destruct x
  end.

Lemma tidy_emitCreateElement inst : tidy (emitCreateElement inst).
Proof.
  unfold emitCreateElement.
  apply tidy_bind; [apply tidy_getVarName | intros dest].
  apply tidy_bind; [apply tidy_args_of | intros a].
  apply tidy_get_bind. intros g.
  destruct (_ && _); [|apply tidy_emit].
  apply tidy_bind; [apply tidy_emit | intros _].
  eapply shift_ext;
    [|apply shift_bind; [apply shift_indentInc | intros _];
      apply shift_bind; [apply tidy_emit | intros _];
      apply shift_bind; [apply tidy_emit | intros _];
      apply shift_bind; [apply tidy_emit | intros _];
      apply shift_bind; [apply shift_indentDec | intros _; apply tidy_emit]].
  intros i. simpl. lia.
Qed.

Lemma tidy_emitInstruction inst : tidy (emitInstruction inst).
Proof.
  unfold emitInstruction. destruct (op inst); try apply tidy_ret.
  - unfold emitAlloc. repeat tidy_step.
  - unfold emitLoad. repeat tidy_step.
  - unfold emitStore. repeat tidy_step.
  - unfold emitCall. repeat tidy_step.
  - unfold emitReturn. repeat tidy_step.
  - apply tidy_emitCreateElement.
  - unfold emitCreateText. repeat tidy_step.
  - unfold emitSetProp. repeat tidy_step.
  - unfold emitAppendChild. repeat tidy_step.
  - unfold emitMount. repeat tidy_step.
  - unfold emitPatch. repeat tidy_step.
Qed.

Lemma tidy_emitBlocks i : tidy (emitBlocks i).
Proof.
  unfold emitBlocks. destruct (Map_get (blocks i) (entry i)) as [block|];
    [|apply tidy_ret].
  apply tidy_bind; [apply tidy_emit | intros _].
  apply tidy_indented; [|apply tidy_emit].
  apply tidy_for_each, tidy_emitInstruction.
Qed.

Lemma emitHeader_run g :
  output g = [] → indent g = 0 →
  ∃ g', emitHeader g = (Normal tt, g') ∧ options g' = options g ∧ indent g' = 1
        ∧ ∃ cache,
            output g' =
            ["(function(h, mount, patch) {";
             (if minify (options g) then EmptyString else "  ")
             +:+ dq +:+ "use strict" +:+ dq +:+ ";"] ++ cache.
Proof.
  intros Hout Hindent. destruct g as [[t m ic so] out ind vm sc].
  cbn in Hout, Hindent. subst out ind.
  destruct m, so; eexists; (split; [vm_compute; reflexivity|]);
    (split_and!; [done | done |]); eexists; reflexivity.
Qed.

Lemma emitFooter_run g :
  indent g = 1 →
  ∃ g', emitFooter g = (Normal tt, g') ∧ options g' = options g
        ∧ output g' = output g ++ ["})(h, mount, patch);"].
Proof.
  intros Hindent. destruct g as [[t m ic so] out ind vm sc].
  cbn in Hindent. subst ind.
  destruct m; eexists; (split; [cbv -[app]; reflexivity|]); by split.
Qed.

Lemma generate_run i g code g' :
  generate i g = (Normal code, g') →
  ∃ lines, code = factory_around (options g) lines.
Proof.
  unfold generate. unfold bind at 1. unfold modify at 1.
  unfold bind at 1. unfold modify at 1.
  set (g1 := set_indent (fun _ => 0) (set_output (fun _ => []) g)).
  destruct (emitHeader_run g1) as (g2 & Hheader & Ho2 & Hi2 & cache & Hout2);
    [done..|].
  unfold bind at 1. rewrite Hheader. unfold bind at 1.
  destruct (tidy_emitBlocks i g2) as (Ho3 & [new Hout3] & Hi3).
  destruct (emitBlocks i g2) as [[[]|e] g3]; [|done]. cbn [fst snd] in *.
  specialize (Hi3 tt eq_refl).
  destruct (emitFooter_run g3) as (g4 & Hfooter & Ho4 & Hout4); [congruence|].
  unfold bind at 1. rewrite Hfooter.
  unfold bind, get, ret. intros [= <- _]. rewrite Ho4, Ho3, Ho2.
  change (options g1) with (options g).
  exists (cache ++ new). unfold factory_around.
  rewrite Hout4, Hout3, Hout2. f_equal; by rewrite <- ?app_assoc.
Qed.

(** X16: whatever the IR and the options, the code that generateCode
    returns is the factory function: its first line opens the function of
    h, mount and patch, its second is the strict-mode directive, and its
    last line, back at the first indentation level, calls the function
    with h, mount and patch. *)
Theorem generated_code_is_the_factory (i : SSAIR) (o : PartialCodeGenOptions)
    (code : string) :
  generateCode i o = Normal code →
  ∃ lines, code = factory_around (options (new_CodeGenerator o)) lines.
Proof.
  unfold generateCode.
  destruct (generate i (new_CodeGenerator o)) as [[code'|e] g'] eqn:Hrun; [|done].
  intros [= <-]. by eapply generate_run.
Qed.

Lemma generated_code_is_the_factory_witness :
  ∃ lines,
    compiled_hi = factory_around (options (new_CodeGenerator
      {| opt_target := None; opt_minify := Some true; opt_inlineCache := Some true;
         opt_staticOptimization := Some true |})) lines.
Proof.
  apply (generated_code_is_the_factory (optimized (program_of [text_of "hi"]))).
  vm_compute. reflexivity.
Defined.

(** * Single assignment *)

(** ** Numerals *)

Lemma pretty_N_char_digit x : is_digit (pretty_N_char x) = true.
Proof.
  unfold pretty_N_char.
  repeat match goal with
         | |- context [match ?y with _ => _ end] => destruct y
         end; reflexivity.
Qed.

Lemma pretty_N_go_digits x :
  ∀ s, ∃ d, pretty_N_go x s = d +:+ s ∧ all_chars is_digit d = true
            ∧ ((0 < x)%N → d ≠ EmptyString).
Proof.
  induction (N.lt_wf_0 x) as [x _ IH]. intros s.
  destruct (decide (x = 0%N)) as [->|Hx].
  - exists EmptyString. rewrite pretty_N_go_0. by split_and!; [| |lia].
  - rewrite pretty_N_go_step by lia.
    destruct (IH (x `div` 10)%N) with (s := String (pretty_N_char (x `mod` 10)) s)
      as (d & Hd & Hdigits & _).
    { apply N.div_lt; lia. }
    exists (d +:+ String (pretty_N_char (x `mod` 10)) EmptyString). split_and!.
    + rewrite Hd. apply append_assoc_cons.
    + apply all_chars_app; [done|]. simpl. by rewrite pretty_N_char_digit.
    + intros _. by destruct d.
Qed.

Lemma pretty_nat_digits (n : nat) :
  ∃ c d, pretty n = String c d ∧ is_digit c = true ∧ all_chars is_digit d = true.
Proof.
  unfold pretty, pretty_nat, pretty, pretty_N.
  case_decide as Hn; [by exists "0"%char, EmptyString|].
  destruct (pretty_N_go_digits (N.of_nat n) EmptyString) as (d & Hd & Hdigits & Hne).
  rewrite Hd, append_nil_r. destruct d as [|c d]; [by destruct Hne; [lia|]|].
  apply andb_prop in Hdigits as [Hc Hdigits]. by exists c, d.
Qed.

(** A name is read back in one way as a prefix without digits and a
    numeral. *)
Lemma minted_name_inj p1 p2 (k1 k2 : nat) :
  all_chars (fun c => negb (is_digit c)) p1 = true →
  all_chars (fun c => negb (is_digit c)) p2 = true →
  p1 +:+ pretty k1 = p2 +:+ pretty k2 → p1 = p2 ∧ k1 = k2.
Proof.
  destruct (pretty_nat_digits k1) as (c1 & d1 & Hk1 & Hc1 & _).
  destruct (pretty_nat_digits k2) as (c2 & d2 & Hk2 & Hc2 & _).
  revert p2. induction p1 as [|a p1 IH]; intros [|a' p2] Hp1 Hp2.
  - rewrite !append_nil_l. by intros ?%(inj pretty).
  - rewrite append_nil_l, append_cons, Hk1. intros [= <- _].
    apply andb_prop in Hp2 as [Hp2 _]. by rewrite Hc1 in Hp2.
  - rewrite append_nil_l, append_cons, Hk2. intros [= -> _].
    apply andb_prop in Hp1 as [Hp1 _]. by rewrite Hc2 in Hp1.
  - rewrite !append_cons. intros [= -> Heq].
    apply andb_prop in Hp1 as [_ Hp1]. apply andb_prop in Hp2 as [_ Hp2].
    destruct (IH p2 Hp1 Hp2 Heq) as [-> ->]. done.
Qed.

Lemma minted_disjoint lo mid hi d : minted lo mid d → minted mid hi d → False.
Proof.
  intros (p1 & k1 & -> & Hp1 & Hk1) (p2 & k2 & Heq & Hp2 & Hk2).
  apply minted_name_inj in Heq as [_ ->]; [lia | done..].
Qed.

Lemma minted_mono lo hi lo' hi' d :
  lo' ≤ lo → hi ≤ hi' → minted lo hi d → minted lo' hi' d.
Proof.
  intros Hlo Hhi (p & k & -> & Hp & Hk). exists p, k. split_and!; [done..|lia|lia].
Qed.

(** ** Instructions with new destinations *)

Lemma fresh_nil lo hi : fresh lo hi [].
Proof. split; [apply NoDup_nil_2 | apply Forall_nil_2]. Qed.

Lemma fresh_mono lo hi lo' hi' new :
  lo' ≤ lo → hi ≤ hi' → fresh lo hi new → fresh lo' hi' new.
Proof.
  intros Hlo Hhi [Hnd Hall]. split; [done|].
  eapply Forall_impl; [exact Hall|]. intros d. by apply minted_mono.
Qed.

Lemma fresh_app lo mid hi new1 new2 :
  lo ≤ mid → mid ≤ hi →
  fresh lo mid new1 → fresh mid hi new2 → fresh lo hi (new1 ++ new2).
Proof.
  intros Hlo Hhi [Hnd1 Hall1] [Hnd2 Hall2]. unfold fresh, dest_list.
  rewrite omap_app. split.
  - apply NoDup_app. split_and!; [done| |done].
    intros d Hd1 Hd2.
    eapply Forall_forall in Hall1; [|exact Hd1].
    eapply Forall_forall in Hall2; [|exact Hd2].
    exact (minted_disjoint _ _ _ _ Hall1 Hall2).
  - apply Forall_app. split.
    + eapply Forall_impl; [exact Hall1|]. intros d. apply minted_mono; lia.
    + eapply Forall_impl; [exact Hall2|]. intros d. apply minted_mono; lia.
Qed.

Lemma fresh_without_dest lo hi inst : dest inst = None → fresh lo hi [inst].
Proof.
  intros Hdest. unfold fresh, dest_list. cbn [omap list_omap]. rewrite Hdest.
  split; [apply NoDup_nil_2 | apply Forall_nil_2].
Qed.

Lemma fresh_minted p k inst :
  all_chars (fun c => negb (is_digit c)) p = true →
  dest inst = Some (p +:+ pretty k) → fresh k (S k) [inst].
Proof.
  intros Hp Hdest. unfold fresh, dest_list. cbn [omap list_omap]. rewrite Hdest.
  split; [apply NoDup_singleton|]. repeat constructor.
  exists p, k. split_and!; [done..|lia|lia].
Qed.

(** ** The visitors mint every destination once *)

Lemma emitInst_run b inst :
  one_block b →
  one_block (emitInst inst b).2
  ∧ varCounter (emitInst inst b).2 = varCounter b
  ∧ all_instructions (ir (emitInst inst b).2) = all_instructions (ir b) ++ [inst].
Proof.
  intros (Hkeys & Hentry & Hcurrent).
  destruct b as [i current vc bc]. cbn in *. subst current.
  destruct i as [bs en vars nv nb]. cbn in *.
  destruct bs as [|[k blk] [|kb bs]]; try done. injection Hkeys as ->.
  split_and!; [done..|].
  unfold all_instructions. cbn. by rewrite !app_nil_r.
Qed.

Lemma mints_ret {A} (a : A) : mints (ret a).
Proof.
  intros b Hb. split_and!; [done..|]. exists []. split; [by rewrite app_nil_r|].
  apply fresh_nil.
Qed.

Lemma mints_throw {A} e : mints (@throw _ A e).
Proof.
  intros b Hb. split_and!; [done..|]. exists []. split; [by rewrite app_nil_r|].
  apply fresh_nil.
Qed.

Lemma mints_bind {A C} (m : B A) (f : A → B C) :
  mints m → (∀ a, mints (f a)) → mints (bind m f).
Proof.
  intros Hm Hf b Hb. unfold bind.
  destruct (Hm b Hb) as (Hb1 & Hle1 & new1 & Hall1 & Hfresh1).
  destruct (m b) as [[a|e] b1]; cbn [fst snd] in *; [|by split_and!; [..|eexists]].
  destruct (Hf a b1 Hb1) as (Hb2 & Hle2 & new2 & Hall2 & Hfresh2).
  split_and!; [done|lia|]. exists (new1 ++ new2). split.
  - by rewrite Hall2, Hall1, app_assoc.
  - by eapply fresh_app.
Qed.

Lemma mints_for_each {A} (body : A → B unit) l :
  Forall (fun x => mints (body x)) l → mints (for_each body l).
Proof.
  induction 1 as [|x l Hx Hl IH]; simpl; [apply mints_ret|].
  apply mints_bind; [done | by intros _].
Qed.

Lemma mints_map_each {A C} (f : A → B C) l :
  Forall (fun x => mints (f x)) l → mints (map_each f l).
Proof.
  induction 1 as [|x l Hx Hl IH]; simpl; [apply mints_ret|].
  apply mints_bind; [done | intros y].
  apply mints_bind; [done | intros ys; apply mints_ret].
Qed.

Lemma mints_emitInst_without_dest inst : dest inst = None → mints (emitInst inst).
Proof.
  intros Hdest b Hb. destruct (emitInst_run b inst Hb) as (Hb1 & Hvc & Hall).
  split_and!; [done|lia|]. exists [inst]. split; [done|].
  by apply fresh_without_dest.
Qed.

Lemma fresh_comm lo hi new1 new2 : fresh lo hi (new1 ++ new2) → fresh lo hi (new2 ++ new1).
Proof.
  unfold fresh, dest_list. rewrite !omap_app. intros [Hnd Hall]. split.
  - eapply NoDup_Permutation_proper; [|exact Hnd]. apply Permutation_app_comm.
  - apply Forall_app. apply Forall_app in Hall. tauto.
Qed.

(** A destination is minted and assigned at once, before [k] runs. *)
Lemma mints_mint_emit {A} p (inst : string → SSAInstruction) (k : string → B A) :
  all_chars (fun c => negb (is_digit c)) p = true →
  (∀ d, dest (inst d) = Some d) → (∀ d, mints (k d)) →
  mints (let* d := newVar p in emitInst (inst d) >> k d).
Proof.
  intros Hp Hdest Hk b Hb. unfold bind. rewrite newVar_run. cbv beta iota.
  set (d := p +:+ pretty (varCounter b)).
  assert (one_block (set_varCounter S b)) as Hb0 by done.
  destruct (emitInst_run (set_varCounter S b) (inst d) Hb0) as (Hb1 & Hvc1 & Hall1).
  destruct (emitInst (inst d) (set_varCounter S b)) as [[r|e] b1] eqn:Hemit;
    [|done].
  cbn [fst snd] in *. cbn in Hvc1, Hall1.
  destruct (Hk d b1 Hb1) as (Hb2 & Hle2 & new2 & Hall2 & Hfresh2).
  split_and!; [done|lia|]. exists (inst d :: new2). split.
  - rewrite Hall2, Hall1. by rewrite <- app_assoc.
  - change (inst d :: new2) with ([inst d] ++ new2).
    apply (fresh_app _ (S (varCounter b))); [lia|lia| |by rewrite <- Hvc1].
    by eapply fresh_minted.
Qed.

(** A destination is minted first and assigned after [m] has run. *)
Lemma mints_mint_late {A} p (m : B A) (inst : string → A → SSAInstruction) :
  all_chars (fun c => negb (is_digit c)) p = true →
  (∀ d a, dest (inst d a) = Some d) → mints m →
  mints (let* d := newVar p in let* a := m in emitInst (inst d a) >> ret d).
Proof.
  intros Hp Hdest Hm b Hb. unfold bind. rewrite newVar_run. cbv beta iota.
  set (d := p +:+ pretty (varCounter b)).
  assert (one_block (set_varCounter S b)) as Hb0 by done.
  destruct (Hm _ Hb0) as (Hb1 & Hle1 & new1 & Hall1 & Hfresh1).
  cbn in Hle1, Hall1, Hfresh1.
  destruct (m (set_varCounter S b)) as [[a|e] b1]; cbn [fst snd] in *.
  - destruct (emitInst_run b1 (inst d a) Hb1) as (Hb2 & Hvc2 & Hall2).
    destruct (emitInst (inst d a) b1) as [[r|e] b2] eqn:Hemit; [|done].
    cbn [fst snd ret] in *.
    assert (fresh (varCounter b) (S (varCounter b)) [inst d a]) as Hd
      by by eapply fresh_minted.
    split_and!; [done|lia|]. exists (new1 ++ [inst d a]). split.
    + by rewrite Hall2, Hall1, app_assoc.
    + rewrite Hvc2. apply fresh_comm.
      apply (fresh_app _ (S (varCounter b))); [lia|lia|done|done].
  - split_and!; [done|lia|]. exists new1. split; [done|].
    eapply fresh_mono; [| |exact Hfresh1]; lia.
Qed.

Lemma mints_visitValue v : mints (visitValue v).
Proof.
  unfold visitValue.
  destruct v as [| |s|]; try destruct (_ && _);
    (apply (mints_mint_emit _ (fun d => Build_SSAInstruction _ (Some d) _ _ _ _));
     [reflexivity | done | intros d; apply mints_ret]).
Qed.

Lemma mints_visitComponent node : mints (visitComponent node).
Proof.
  intros b Hb. unfold visitComponent, bind. rewrite !newVar_run. cbv beta iota.
  change (varCounter (set_varCounter S b)) with (S (varCounter b)).
  set (b0 := set_varCounter S (set_varCounter S b)).
  assert (one_block b0) as Hb0 by done.
  match goal with
  | |- context [emitInst ?i b0] =>
      destruct (emitInst_run b0 i Hb0) as (Hb1 & Hvc1 & Hall1);
      destruct (emitInst i b0) as [[r1|e1] b1] eqn:Hemit1; [|done]
  end.
  cbn [fst snd] in *.
  match goal with
  | |- context [emitInst ?i b1] =>
      destruct (emitInst_run b1 i Hb1) as (Hb2 & Hvc2 & Hall2);
      destruct (emitInst i b1) as [[r2|e2] b2] eqn:Hemit2; [|done]
  end.
  cbn [fst snd ret] in *. cbn in Hvc1, Hall1.
  split_and!; [done|lia|]. eexists [_; _]. split.
  - rewrite Hall2, Hall1. by rewrite <- app_assoc.
  - rewrite Hvc2, Hvc1.
    apply (fresh_comm _ _ [_] [_]).
    apply (fresh_app _ (S (varCounter b)) _ [_] [_]); [lia|lia|..].
    + by apply (fresh_minted "comp").
    + by apply (fresh_minted "props").
Qed.

Lemma mints_visitNode node : mints (visitNode node).
Proof.
  induction node as [ty tag attributes children v e s l IH]
    using ASTNode_children_ind.
  destruct ty; cbn [visitNode].
  - unfold visitProgram. apply mints_bind; [|intros ?; apply mints_ret].
    destruct children as [cs|]; [by apply mints_map_each | apply mints_ret].
  - unfold visitElement. destruct (truthy tag); [|apply mints_throw].
    apply (mints_mint_emit _ (fun d => Build_SSAInstruction _ (Some d) _ _ _ _));
      [reflexivity | done | intros dest].
    apply mints_bind.
    { destruct attributes as [entries|]; [|apply mints_ret].
      apply mints_for_each, Forall_forall. intros kv _.
      apply mints_bind; [apply mints_visitValue | intros valueVar].
      apply mints_bind; [by apply mints_emitInst_without_dest | intros _].
      apply mints_ret. }
    intros _. apply mints_bind; [|intros _; apply mints_ret].
    destruct children as [cs|]; [|apply mints_ret].
    apply mints_for_each. eapply Forall_impl; [exact IH|].
    intros child Hchild. cbn beta.
    apply mints_bind; [done | intros childVar].
    destruct (truthy (Some childVar)); [|apply mints_ret].
    apply mints_bind; [by apply mints_emitInst_without_dest | intros _].
    apply mints_ret.
  - unfold visitText.
    apply (mints_mint_emit _ (fun d => Build_SSAInstruction _ (Some d) _ _ _ _));
      [reflexivity | done | intros dest; apply mints_ret].
  - unfold visitExpression.
    apply (mints_mint_emit _ (fun d => Build_SSAInstruction _ (Some d) _ _ _ _));
      [reflexivity | done | intros dest; apply mints_ret].
  - apply mints_visitComponent.
  - unfold visitFragment.
    apply (mints_mint_late _ _
             (fun d visited => Build_SSAInstruction _ (Some d) _ _ _ _));
      [reflexivity | done |].
    destruct children as [cs|]; [by apply mints_map_each | apply mints_ret].
Qed.

(** ** The IR returned assigns every destination once *)

Lemma omap_sublist {A C} (f : A → option C) l1 l2 :
  l1 `sublist_of` l2 → omap f l1 `sublist_of` omap f l2.
Proof.
  induction 1 as [|x l1 l2 _ IH|x l1 l2 _ IH]; cbn [omap list_omap].
  - constructor.
  - destruct (f x); [by constructor | done].
  - destruct (f x); [by constructor | done].
Qed.

Lemma dest_list_same l l' : Forall2 same_but_args l l' → dest_list l' = dest_list l.
Proof.
  induction 1 as [|inst inst' l l' (_ & Hdest & _) _ IH]; [done|].
  unfold dest_list in *. cbn [omap list_omap]. by rewrite Hdest, IH.
Qed.

Lemma after_visit_fresh ast :
  ∃ hi, fresh 0 hi (all_instructions (ir (after_visit ast))).
Proof.
  assert (one_block new_SSABuilder) as Hone by done.
  destruct (mints_visitNode ast new_SSABuilder Hone)
    as (_ & _ & new & Hall & Hfresh).
  exists (varCounter (after_visit ast)). unfold after_visit. by rewrite Hall.
Qed.

(** X17: the IR that buildSSA returns is in single-assignment form: no
    two instructions have the same destination, and every destination is
    a name of the builder, a prefix without digits followed by the decimal
    numeral of the counter. *)
Theorem built_ir_assigns_each_name_once (ast : ASTNode) (i : SSAIR) :
  buildSSA ast = Normal i →
  NoDup (dest_list (all_instructions i))
  ∧ Forall builder_name (dest_list (all_instructions i)).
Proof.
  intros (Hsame & _)%buildSSA_same.
  destruct (after_visit_fresh ast) as (hi & Hnd & Hminted).
  rewrite (dest_list_same _ _ Hsame).
  pose proof (omap_sublist dest _ _
                (sublist_filter (dce_keep (used_names (ir (after_visit ast))))
                   (all_instructions (ir (after_visit ast))))) as Hsub.
  split.
  - by eapply sublist_NoDup.
  - apply Forall_forall. intros d Hd.
    eapply Forall_forall in Hminted; [|by eapply elem_of_sublist].
    destruct Hminted as (p & k & -> & Hp & _). by exists p, k.
Qed.

Lemma built_ir_assigns_each_name_once_witness :
  NoDup (dest_list (all_instructions
           (optimized (program_of [element_of "p" [] [text_of "a"; text_of "a"]]))))
  ∧ Forall builder_name
      (dest_list (all_instructions
         (optimized (program_of [element_of "p" [] [text_of "a"; text_of "a"]])))).
Proof.
  apply (built_ir_assigns_each_name_once
           (program_of [element_of "p" [] [text_of "a"; text_of "a"]])).
  vm_compute. reflexivity.
Defined.

(** * Constant folding takes every constant from its readers *)

Lemma keeps_const_named_visitNode node :
  keeps (fun b => Forall const_named (all_instructions (ir b))) (visitNode node).
Proof.
  apply keeps_visitNode.
  - by intros p b.
  - intros v b Hb. unfold visitValue.
    destruct v as [| |s|]; try destruct (_ && _);
      unfold bind; rewrite newVar_run; cbv beta iota;
      match goal with
      | |- context [emitInst ?i ?b0] =>
          refine (keeps_Forall_emitInst const_named i _ b0 Hb)
      end;
      intros [Hop Hstatic]; try done; by eexists.
  - intros inst _ Hinst. apply (keeps_Forall_emitInst const_named).
    intros [Hop Hstatic]. rewrite (Hinst Hop) in Hstatic. done.
Qed.

Lemma collect_constants_dom insts inst :
  inst ∈ insts → is_constant inst →
  dest inst ∈ dom (collect_constants insts).
Proof.
  intros Hin [Hop Hstatic]. unfold collect_constants.
  assert (∀ acc : gmap (option string) JSValue,
            dest inst ∈ dom acc ∨ inst ∈ insts →
            dest inst ∈ dom
              (foldl (fun constants inst =>
                        if bool_decide (op inst = alloc) && metadata_isStatic inst
                        then <[dest inst := value inst]> constants
                        else constants) acc insts)) as Hfold.
  { clear Hin. induction insts as [|inst' insts IH]; intros acc Hacc.
    - destruct Hacc as [?|Hin]; [done | by apply elem_of_nil in Hin].
    - cbn [foldl]. apply IH.
      destruct Hacc as [Hacc|[->|Hin]%elem_of_cons]; [|left|by right].
      + left. destruct (_ && _); [|done]. set_solver.
      + rewrite bool_decide_eq_true_2, Hstatic by done. cbn [andb]. set_solver. }
  apply Hfold. by right.
Qed.

Lemma fold_args_detached (a : list (option string)) (K : gset (option string)) :
  ∀ (c : gmap (option string) JSValue) b r b', K ⊆ dom c → fold_args a c b = (Normal r, b') →
  Forall (fun x => x ∉ K ∨ is_fold x) r.1 ∧ K ⊆ dom r.2.
Proof.
  induction a as [|arg rest IH]; intros c b r b' HK; cbn [fold_args].
  - intros [= <- _]. by split.
  - destruct (c !! arg) as [val|] eqn:Harg.
    + unfold bind at 1. rewrite newVar_run. unfold bind.
      destruct (fold_args rest _ _) as [[r1|e] b1] eqn:Hrest; [|done].
      intros [= <- _].
      apply IH in Hrest as [Hargs HK1];
        [|etrans; [exact HK | apply dom_insert_subseteq]].
      split; [|done]. constructor; [|done]. right. by eexists.
    + unfold bind.
      destruct (fold_args rest _ _) as [[r1|e] b1] eqn:Hrest; [|done].
      intros [= <- _]. apply IH in Hrest as [Hargs HK1]; [|done].
      split; [|done]. constructor; [|done]. left.
      intros Hin%HK. by apply not_elem_of_dom in Harg.
Qed.

Lemma fold_inst_detached (inst : SSAInstruction) (K : gset (option string))
    (c : gmap (option string) JSValue) b r b' :
  K ⊆ dom c → fold_inst inst c b = (Normal r, b') →
  Forall (fun x => x ∉ K ∨ is_fold x) (default [] (args r.1)) ∧ K ⊆ dom r.2.
Proof.
  intros HK. unfold fold_inst. destruct (args inst) as [a|] eqn:Ha.
  - unfold bind. destruct (fold_args a c b) as [[r1|e] b1] eqn:Hargs; [|done].
    intros [= <- _]. apply (fold_args_detached _ K) in Hargs as [Hall HK1]; [|done].
    cbn [fst snd set_args args]. by rewrite Ha.
  - intros [= <- _]. cbn [fst snd]. rewrite Ha. by split.
Qed.

Lemma fold_insts_detached (insts : list SSAInstruction) (K : gset (option string)) :
  ∀ (c : gmap (option string) JSValue) b r b', K ⊆ dom c → fold_insts insts c b = (Normal r, b') →
  Forall (fun x => x ∉ K ∨ is_fold x) (arg_names r.1) ∧ K ⊆ dom r.2.
Proof.
  induction insts as [|inst rest IH]; intros c b r b' HK; cbn [fold_insts].
  - intros [= <- _]. by split.
  - unfold bind.
    destruct (fold_inst inst c b) as [[r1|e] b1] eqn:Hinst; [|done].
    destruct (fold_insts rest _ b1) as [[r2|e] b2] eqn:Hrest; [|done].
    intros [= <- _]. apply (fold_inst_detached _ K) in Hinst as [H1 HK1]; [|done].
    apply IH in Hrest as [H2 HK2]; [|done].
    split; [|done]. unfold arg_names. cbn [fst]. rewrite bind_cons.
    by apply Forall_app.
Qed.

Lemma fold_blocks_detached (bs : list (nat * SSABasicBlock))
    (K : gset (option string)) :
  ∀ (c : gmap (option string) JSValue) b r b', K ⊆ dom c → fold_blocks bs c b = (Normal r, b') →
  Forall (fun x => x ∉ K ∨ is_fold x)
         (arg_names (r.1 ≫= fun kb => instructions kb.2))
  ∧ K ⊆ dom r.2.
Proof.
  induction bs as [|kb rest IH]; intros c b r b' HK; cbn [fold_blocks].
  - intros [= <- _]. by split.
  - unfold bind.
    destruct (fold_insts _ c b) as [[r1|e] b1] eqn:Hinsts; [|done].
    destruct (fold_blocks rest _ b1) as [[r2|e] b2] eqn:Hrest; [|done].
    intros [= <- _]. apply (fold_insts_detached _ K) in Hinsts as [H1 HK1]; [|done].
    apply IH in Hrest as [H2 HK2]; [|done].
    split; [|done]. cbn [fst]. rewrite bind_cons. unfold arg_names in *.
    rewrite bind_app. by apply Forall_app.
Qed.

Lemma constantFolding_detached b b' :
  constantFolding b = (Normal tt, b') →
  Forall (fun x => x ∉ dom (collect_constants (all_instructions (ir b))) ∨ is_fold x)
         (arg_names (all_instructions (ir b'))).
Proof.
  unfold constantFolding, bind, get.
  destruct (fold_blocks (blocks (ir b)) _ b) as [[r|e] b1] eqn:Hrun; [|done].
  intros [= <-]. by apply (fold_blocks_detached _ _ _ _ _ _ (reflexivity _)) in Hrun as [? _].
Qed.

Lemma Forall2_elem_of_r {A C} (R : A → C → Prop) l k y :
  Forall2 R l k → y ∈ k → ∃ x, x ∈ l ∧ R x y.
Proof.
  induction 1 as [|x' y' l k Hxy _ IH]; [by intros ?%elem_of_nil|].
  intros [->|Hin]%elem_of_cons.
  - exists x'. split; [by left | done].
  - destruct (IH Hin) as (x & Hx & Hxy'). exists x. split; [by right | done].
Qed.

(** X18: in the IR that buildSSA returns, every static alloc (a constant
    of visitValue) that is left was read by an instruction before the
    optimizer ran, and is read by none after it: constant folding has put
    a new fold name, which no instruction defines, in the place of each
    of its readers' arguments. *)
Theorem folded_constants_have_no_reader (ast : ASTNode) (i : SSAIR)
    (inst : SSAInstruction) :
  buildSSA ast = Normal i → inst ∈ all_instructions i → is_constant inst →
  dest inst ∈ used_names (ir (after_visit ast))
  ∧ dest inst ∉ arg_names (all_instructions i).
Proof.
  intros Hbuild Hin [Hop Hstatic].
  assert (Forall const_named (all_instructions (ir (after_visit ast)))) as Hnamed.
  { by apply (keeps_const_named_visitNode ast new_SSABuilder), Forall_nil_2. }
  revert Hbuild. unfold buildSSA, build. unfold bind at 1.
  fold (after_visit ast).
  destruct (visitNode ast new_SSABuilder) as [[r|e] b1] eqn:Hvisit; [|done].
  assert (after_visit ast = b1) as Hb1 by (unfold after_visit; by rewrite Hvisit).
  rewrite <- Hb1. clear Hvisit Hb1 b1.
  unfold optimize, bind, get.
  destruct (deadCodeElimination_run (after_visit ast)) as (b2 & Hrun2 & Hall2).
  destruct (constantFolding_run b2) as (b3 & Hrun3 & _).
  rewrite Hrun2, Hrun3. cbn [fst snd]. intros [= <-].
  change (inst ∈ all_instructions (ir b3)) in Hin.
  change (arg_names (all_instructions _)) with (arg_names (all_instructions (ir b3))).
  pose proof (constantFolding_detached _ _ Hrun3) as Hdetached.
  apply constantFolding_same in Hrun3 as (Hsame & _).
  destruct (Forall2_elem_of_r _ _ _ _ Hsame Hin)
    as (inst0 & Hin0 & Hop0 & Hdest0 & _ & Hmeta0 & _).
  assert (is_constant inst0) as Hconst0.
  { split; [congruence|]. unfold metadata_isStatic in *. by rewrite <- Hmeta0. }
  rewrite Hall2 in Hin0. apply list_elem_of_filter in Hin0 as [Hkeep Hin1].
  eapply Forall_forall in Hnamed; [|exact Hin1].
  destruct (Hnamed Hconst0) as [k Hk]. rewrite Hdest0, Hk. split.
  - unfold dce_keep in Hkeep. rewrite Hk in Hkeep. cbn [truthy negb orb] in Hkeep.
    destruct Hconst0 as [Hop1 _]. rewrite Hop1 in Hkeep.
    rewrite (bool_decide_eq_false_2 (alloc = call)) in Hkeep by done.
    rewrite (bool_decide_eq_false_2 (alloc = store)) in Hkeep by done.
    rewrite !orb_false_r in Hkeep. by apply bool_decide_unpack in Hkeep.
  - intros Hread. eapply Forall_forall in Hdetached; [|exact Hread].
    destruct Hdetached as [Hout|[k' Hk']]; [|done].
    apply Hout. rewrite <- Hk. by apply collect_constants_dom;
      [rewrite Hall2; apply list_elem_of_filter|].
Qed.

Lemma folded_constants_have_no_reader_witness :
  Some "const1" ∈
    used_names (ir (after_visit
      (program_of [element_of "div" [("id", VString "x")] []])))
  ∧ Some "const1" ∉
    arg_names (all_instructions
      (optimized (program_of [element_of "div" [("id", VString "x")] []]))).
Proof.
  apply (folded_constants_have_no_reader
           (program_of [element_of "div" [("id", VString "x")] []])
           (optimized (program_of [element_of "div" [("id", VString "x")] []]))
           {| op := alloc; dest := Some "const1"; args := None; value := VString "x";
              metadata := Some {| md_tag := None; md_isStatic := Some true;
                                  md_key := None; md_component := None;
                                  md_type := None |};
              blockId := None |}).
  - vm_compute. reflexivity.
  - vm_compute. apply list_elem_of_further, list_elem_of_here.
  - split; reflexivity.
Defined.

(** * A stray character in a tag *)

Lemma trimEnd_app_cons s c t :
  is_space c = false →
  trimEnd (s +:+ String c t) = s +:+ String c (trimEnd t).
Proof.
  intros Hc. induction s as [|a s IH].
  - rewrite !append_nil_l. by apply trimEnd_cons.
  - rewrite !append_cons. cbn [trimEnd]. rewrite IH.
    destruct s; [by rewrite append_nil_l | by rewrite append_cons].
Qed.

Lemma read_while_from_until p s c t :
  ∀ st, all_chars p s = true → p c = false →
  ∃ st', Tokenizer.read_while_from p (s +:+ String c t) st = (s, st')
         ∧ (Tokenizer.rest st = s +:+ String c t → Tokenizer.rest st' = String c t).
Proof.
  induction s as [|a s IH]; intros st Hs Hc.
  - rewrite append_nil_l. cbn [Tokenizer.read_while_from]. rewrite Hc.
    by exists st.
  - apply andb_prop in Hs as [Ha Hs]. rewrite append_cons.
    cbn [Tokenizer.read_while_from]. rewrite Ha.
    destruct (IH (Tokenizer.bump (Some a) st (s +:+ String c t)) Hs Hc)
      as (st' & Hrun & Hrest).
    exists st'. rewrite Hrun. split; [done|]. intros _. apply Hrest, rest_bump.
Qed.

Lemma readAttribute_stray fuel st c t :
  Tokenizer.rest st = String c t → stray_char c = true →
  ∃ attr, Tokenizer.readAttribute fuel st = Some (attr, st).
Proof.
  intros Hrest Hc. unfold stray_char in Hc.
  apply andb_prop in Hc as [[[[Hident Hspace]%andb_prop Hgt]%andb_prop
                              Hslash]%andb_prop Heq].
  apply negb_true_iff in Hident, Hspace, Heq.
  unfold Tokenizer.readAttribute, Tokenizer.read_while. rewrite Hrest.
  cbn [Tokenizer.read_while_from]. rewrite Hident.
  rewrite (skipWhitespace_non_space st c t) by done.
  rewrite (peek_is_cons st c t) by done. rewrite Heq. cbn [negb].
  by eexists.
Qed.

(** On a stray character the attribute loop reads the attribute with the
    empty name, without moving, and tests the same character again. *)
Lemma attributes_loop_stray fuel st c t :
  Tokenizer.rest st = String c t → stray_char c = true →
  ∀ attributes, Tokenizer.attributes_loop fuel st attributes = None.
Proof.
  intros Hrest Hc. pose proof Hc as Hstray. unfold stray_char in Hc.
  apply andb_prop in Hc as [[[[Hident Hspace]%andb_prop Hgt]%andb_prop
                              Hslash]%andb_prop Heq].
  apply negb_true_iff in Hspace.
  induction fuel as [|fuel IH]; intros attributes;
    cbn [Tokenizer.attributes_loop]; unfold Tokenizer.peek; rewrite Hrest;
    rewrite Hgt, Hslash; cbn [andb]; [done|].
  destruct (readAttribute_stray fuel st c t Hrest Hstray) as [attr ->].
  rewrite (skipWhitespace_non_space st c t) by done. apply IH.
Qed.

Lemma readOpenTag_stray fuel st name c t :
  Tokenizer.rest st = "<" +:+ name +:+ String c t →
  all_chars is_ident name = true → stray_char c = true →
  Tokenizer.readOpenTag fuel st = None.
Proof.
  intros Hrest Hname Hc. pose proof Hc as Hstray. unfold stray_char in Hc.
  apply andb_prop in Hc as [[[[Hident Hspace]%andb_prop _]%andb_prop _]%andb_prop _].
  apply negb_true_iff in Hident, Hspace.
  unfold Tokenizer.readOpenTag. cbv zeta.
  rewrite (advance_cons st "<" (name +:+ String c t)) by done. cbn [snd].
  set (st1 := Tokenizer.bump (Some "<"%char) st (name +:+ String c t)).
  assert (Tokenizer.rest st1 = name +:+ String c t) as Hrest1 by apply rest_bump.
  assert (Tokenizer.skipWhitespace st1 = st1) as ->.
  { destruct name as [|a name].
    - rewrite append_nil_l in Hrest1. by eapply skipWhitespace_non_space.
    - rewrite append_cons in Hrest1. eapply skipWhitespace_non_space; [done|].
      apply andb_prop in Hname as [Ha _]. by apply is_ident_not_space. }
  unfold Tokenizer.read_while. rewrite Hrest1.
  destruct (read_while_from_until is_ident name c t st1 Hname Hident)
    as (st2 & -> & Hrest2).
  specialize (Hrest2 Hrest1).
  rewrite (skipWhitespace_non_space st2 c t) by done.
  by rewrite (attributes_loop_stray fuel st2 c t).
Qed.

(** X19: a tag in which the name is followed by a character that starts
    no attribute and ends no tag (such as an exclamation mark, a dot, a
    comma or a quote) is never tokenized, whatever comes after it: the
    attribute loop tests the same character for ever.  So the tokenizer,
    and compile with it, does not return on a source that starts with a
    comment or a doctype. *)
Theorem stray_character_hangs_the_tokenizer (name tail : string) (c : ascii)
    (fuel : nat) :
  all_chars is_ident name = true → stray_char c = true →
  Tokenizer.tokenize fuel (Tokenizer.new ("<" +:+ name +:+ String c tail)) = None
  ∧ compile fuel ("<" +:+ name +:+ String c tail) = None.
Proof.
  intros Hname Hc.
  assert (is_space c = false) as Hspace.
  { unfold stray_char in Hc.
    apply andb_prop in Hc as [[[[_ Hs]%andb_prop _]%andb_prop _]%andb_prop _].
    by apply negb_true_iff in Hs. }
  assert (trim ("<" +:+ name +:+ String c tail)
          = "<" +:+ name +:+ String c (trimEnd tail)) as Htrim.
  { unfold trim.
    change (trimStart ("<" +:+ name +:+ String c tail))
      with (String "<" name +:+ String c tail).
    by rewrite trimEnd_app_cons. }
  assert (Tokenizer.tokenize fuel (Tokenizer.new ("<" +:+ name +:+ String c tail))
          = None) as Htok.
  { unfold Tokenizer.tokenize, Tokenizer.new. rewrite Htrim.
    set (st := {| Tokenizer.rest := "<" +:+ name +:+ String c (trimEnd tail);
                  Tokenizer.line := 1; Tokenizer.column := 1 |}).
    assert (Tokenizer.skipWhitespace st = st) as Hskip
      by by apply (skipWhitespace_non_space st "<" (name +:+ String c (trimEnd tail))).
    rewrite tokenize_loop_open_tag_None; [done|done|..].
    - by rewrite Hskip.
    - rewrite Hskip. unfold Tokenizer.next_is_slash.
      change (Tokenizer.rest st) with (String "<" (name +:+ String c (trimEnd tail))).
      destruct name as [|a name].
      + rewrite append_nil_l. unfold stray_char in Hc.
        apply andb_prop in Hc as [[_ Hs]%andb_prop _]. by apply negb_true_iff in Hs.
      + rewrite append_cons. apply andb_prop in Hname as [Ha _].
        by apply is_ident_not_slash.
    - intros fuel'. rewrite Hskip.
      by apply (readOpenTag_stray fuel' st name c (trimEnd tail)). }
  split; [done|]. unfold compile, parse, Parser.parse. by rewrite Htok.
Qed.

Lemma stray_character_hangs_the_tokenizer_witness :
  Tokenizer.tokenize 100 (Tokenizer.new "<!-- note --><p>text</p>") = None
  ∧ compile 100 "<!-- note --><p>text</p>" = None.
Proof.
  apply (stray_character_hangs_the_tokenizer "" "-- note --><p>text</p>" "!" 100);
    reflexivity.
Defined.

(** * The places of the tokens *)

Lemma pos_lt_trans p q r : pos_lt p q → pos_lt q r → pos_lt p r.
Proof. unfold pos_lt. lia. Qed.

Lemma not_before_refl st : not_before st st.
Proof. by left. Qed.

Lemma not_before_trans st1 st2 st3 :
  not_before st1 st2 → not_before st2 st3 → not_before st1 st3.
Proof.
  intros [H1|H1] [H2|H2].
  - left. congruence.
  - right. by rewrite H1.
  - right. by rewrite <- H2.
  - right. by eapply pos_lt_trans.
Qed.

Lemma pos_lt_not_before p st st' :
  pos_lt p (cursor st) → not_before st st' → pos_lt p (cursor st').
Proof. intros Hp [<-|Hlt]; [done | by eapply pos_lt_trans]. Qed.

Lemma not_before_pos_lt st st' q :
  not_before st st' → pos_lt (cursor st') q → pos_lt (cursor st) q.
Proof. intros [->|Hlt] Hq; [done | by eapply pos_lt_trans]. Qed.

Lemma bump_after char st r : pos_lt (cursor st) (cursor (Tokenizer.bump char st r)).
Proof.
  unfold Tokenizer.bump, pos_lt, cursor. case_bool_decide; simpl; lia.
Qed.

Lemma advance_after st : pos_lt (cursor st) (cursor (Tokenizer.advance st).2).
Proof.
  unfold Tokenizer.advance. destruct (Tokenizer.rest st); apply bump_after.
Qed.

Lemma advance_not_before st : not_before st (Tokenizer.advance st).2.
Proof. right. apply advance_after. Qed.

Lemma read_while_from_not_before p s :
  ∀ st, not_before st (Tokenizer.read_while_from p s st).2.
Proof.
  induction s as [|c s IH]; intros st; [apply not_before_refl|].
  cbn [Tokenizer.read_while_from]. destruct (p c); [|apply not_before_refl].
  cbn [snd]. eapply not_before_trans; [right; apply bump_after | apply IH].
Qed.

Lemma read_while_not_before p st : not_before st (Tokenizer.read_while p st).2.
Proof. apply read_while_from_not_before. Qed.

Lemma skipWhitespace_not_before st : not_before st (Tokenizer.skipWhitespace st).
Proof. apply read_while_not_before. Qed.

Lemma expression_loop_not_before s :
  ∀ st depth, not_before st (Tokenizer.expression_loop s st depth).2.
Proof.
  induction s as [|c s IH]; intros st depth.
  - destruct depth; apply not_before_refl.
  - destruct depth as [|depth]; [apply not_before_refl|].
    cbn [Tokenizer.expression_loop snd].
    eapply not_before_trans; [right; apply bump_after | apply IH].
Qed.

Lemma readExpression_after st :
  pos_lt (cursor st) (cursor (Tokenizer.readExpression st).2).
Proof.
  eapply pos_lt_not_before; [apply advance_after|].
  apply expression_loop_not_before.
Qed.

Lemma readCloseTag_after st :
  pos_lt (cursor st) (cursor (Tokenizer.readCloseTag st).2).
Proof.
  unfold Tokenizer.readCloseTag. cbv zeta. cbn [snd].
  eapply pos_lt_not_before; [apply advance_after|].
  eapply not_before_trans; [apply advance_not_before|].
  eapply not_before_trans; [apply read_while_not_before|].
  destruct (Tokenizer.peek_is _ _); [apply advance_not_before | apply not_before_refl].
Qed.

Lemma readText_after st c r :
  Tokenizer.rest st = String c r → is_text_char c = true →
  pos_lt (cursor st) (cursor (Tokenizer.readText st).2).
Proof.
  intros Hrest Hc. unfold Tokenizer.readText. cbv zeta. cbn [snd].
  unfold Tokenizer.read_while. rewrite Hrest. cbn [Tokenizer.read_while_from].
  change (negb (c =? "<")%char && negb (c =? "{")%char) with (is_text_char c).
  rewrite Hc. cbn [snd].
  eapply pos_lt_not_before; [apply bump_after | apply read_while_from_not_before].
Qed.

Lemma attribute_brace_loop_not_before fuel :
  ∀ st depth r, Tokenizer.attribute_brace_loop fuel st depth = Some r →
  not_before st r.2.
Proof.
  induction fuel as [|fuel IH]; intros st depth r Hrun.
  - destruct depth; [|done]. injection Hrun as <-. apply not_before_refl.
  - destruct depth as [|depth].
    { injection Hrun as <-. apply not_before_refl. }
    cbn [Tokenizer.attribute_brace_loop] in Hrun.
    pose proof (advance_not_before st) as Hadv.
    destruct (Tokenizer.advance st) as [char st1]. cbn [snd] in Hadv.
    destruct (Tokenizer.attribute_brace_loop fuel st1 _) as [r1|] eqn:Hrun1; [|done].
    injection Hrun as <-. cbn [snd].
    eapply not_before_trans; [exact Hadv | by eapply IH].
Qed.

Lemma readAttribute_not_before fuel st r :
  Tokenizer.readAttribute fuel st = Some r → not_before st r.2.
Proof.
  unfold Tokenizer.readAttribute.
  pose proof (read_while_not_before is_ident st) as H1.
  destruct (Tokenizer.read_while is_ident st) as [name st1]. cbn [snd] in H1.
  pose proof (skipWhitespace_not_before st1) as H2.
  generalize dependent (Tokenizer.skipWhitespace st1). intros st2 H2.
  assert (not_before st st2) as H12 by by eapply not_before_trans.
  destruct (negb (Tokenizer.peek_is "=" st2)).
  { by intros [= <-]. }
  pose proof (advance_not_before st2) as H3.
  generalize dependent ((Tokenizer.advance st2).2). intros st3 H3.
  pose proof (skipWhitespace_not_before st3) as H4.
  generalize dependent (Tokenizer.skipWhitespace st3). intros st4 H4.
  assert (not_before st st4) as H14.
  { eapply not_before_trans; [exact H12|]. by eapply not_before_trans. }
  destruct (Tokenizer.peek_is "034" st4 || Tokenizer.peek_is "'" st4).
  { pose proof (advance_not_before st4) as H5.
    destruct (Tokenizer.advance st4) as [quote st5]. cbn [snd] in H5.
    pose proof (read_while_not_before
                  (fun c => negb (bool_decide (Some c = quote))) st5) as H6.
    destruct (Tokenizer.read_while _ st5) as [value st6]. cbn [snd] in H6.
    intros [= <-]. cbn [snd].
    eapply not_before_trans; [exact H14|].
    eapply not_before_trans; [exact H5|].
    eapply not_before_trans; [exact H6|]. apply advance_not_before. }
  destruct (Tokenizer.peek_is "{" st4).
  { pose proof (advance_not_before st4) as H5.
    destruct (Tokenizer.attribute_brace_loop fuel _ 1) as [[expr st6]|] eqn:Hloop;
      [|done].
    apply attribute_brace_loop_not_before in Hloop. cbn [snd] in Hloop.
    intros [= <-]. cbn [snd].
    eapply not_before_trans; [exact H14|]. by eapply not_before_trans. }
  pose proof (read_while_not_before is_word st4) as H5.
  destruct (Tokenizer.read_while is_word st4) as [value st5]. cbn [snd] in H5.
  intros [= <-]. cbn [snd]. by eapply not_before_trans.
Qed.

Lemma attributes_loop_not_before fuel :
  ∀ st attributes r, Tokenizer.attributes_loop fuel st attributes = Some r →
  not_before st r.2.
Proof.
  induction fuel as [|fuel IH]; intros st attributes r.
  - cbn [Tokenizer.attributes_loop].
    destruct (Tokenizer.peek st) as [c|]; [|intros [= <-]; apply not_before_refl].
    destruct (negb (c =? ">")%char && negb (c =? "/")%char); [done|].
    intros [= <-]. apply not_before_refl.
  - cbn [Tokenizer.attributes_loop].
    destruct (Tokenizer.peek st) as [c|]; [|intros [= <-]; apply not_before_refl].
    destruct (negb (c =? ">")%char && negb (c =? "/")%char);
      [|intros [= <-]; apply not_before_refl].
    destruct (Tokenizer.readAttribute fuel st) as [[attr st1]|] eqn:Hattr; [|done].
    apply readAttribute_not_before in Hattr. cbn [snd] in Hattr.
    intros Hloop%IH.
    eapply not_before_trans; [exact Hattr|].
    eapply not_before_trans; [apply skipWhitespace_not_before | exact Hloop].
Qed.

Lemma readOpenTag_after fuel st r :
  Tokenizer.readOpenTag fuel st = Some r → pos_lt (cursor st) (cursor r.2).
Proof.
  unfold Tokenizer.readOpenTag. cbv zeta.
  pose proof (advance_after st) as H0.
  generalize dependent ((Tokenizer.advance st).2). intros st1 H0.
  pose proof (skipWhitespace_not_before st1) as H1.
  generalize dependent (Tokenizer.skipWhitespace st1). intros st2 H1.
  pose proof (read_while_not_before is_ident st2) as H2.
  destruct (Tokenizer.read_while is_ident st2) as [tagName st3]. cbn [snd] in H2.
  pose proof (skipWhitespace_not_before st3) as H3.
  generalize dependent (Tokenizer.skipWhitespace st3). intros st4 H3.
  destruct (Tokenizer.attributes_loop fuel st4 []) as [[attributes st5]|] eqn:Hloop;
    [|done].
  apply attributes_loop_not_before in Hloop. cbn [snd] in Hloop.
  assert (pos_lt (cursor st) (cursor st5)) as H05.
  { eapply pos_lt_not_before; [exact H0|].
    eapply not_before_trans; [exact H1|]. eapply not_before_trans; [exact H2|].
    by eapply not_before_trans. }
  destruct (Tokenizer.peek_is "/" st5).
  - pose proof (advance_not_before st5) as H6.
    generalize dependent ((Tokenizer.advance st5).2). intros st6 H6.
    assert (pos_lt (cursor st) (cursor st6)) as H06 by by eapply pos_lt_not_before.
    destruct (Tokenizer.peek_is ">" st6); intros [= <-]; cbn [snd]; [|done].
    eapply pos_lt_not_before; [exact H06 | apply advance_not_before].
  - destruct (Tokenizer.peek_is ">" st5); intros [= <-]; cbn [snd]; [|done].
    eapply pos_lt_not_before; [exact H05 | apply advance_not_before].
Qed.

Lemma readOpenTag_loc fuel st token st' :
  Tokenizer.readOpenTag fuel st = Some (token, st') →
  tok_loc token = Tokenizer.getLocation st.
Proof.
  unfold Tokenizer.readOpenTag. cbv zeta.
  destruct (Tokenizer.read_while is_ident _) as [tagName st1].
  destruct (Tokenizer.attributes_loop fuel _ []) as [[attributes st2]|]; [|done].
  by destruct (Tokenizer.peek_is "/" st2); intros [= <- _].
Qed.

Lemma ascending_snoc tokens token :
  ascending tokens →
  Forall (fun earlier => pos_lt (start (tok_loc earlier)) (start (tok_loc token)))
         tokens →
  ascending (tokens ++ [token]).
Proof.
  induction tokens as [|t tokens IH]; intros Hasc Hall; [by split|].
  destruct Hasc as [Hrest Hasc]. apply Forall_cons in Hall as [Ht Hall].
  cbn [app ascending]. split; [|by apply IH].
  apply Forall_app. split; [done | by constructor].
Qed.

Lemma tokenize_loop_ascending fuel :
  ∀ st tokens r,
  trimEnd (Tokenizer.rest st) = Tokenizer.rest st →
  ascending tokens → Forall (placed_before st) tokens →
  Tokenizer.tokenize_loop fuel st tokens = Some r →
  ascending r.1 ∧ Forall (placed_before r.2) r.1.
Proof.
  induction fuel as [|fuel IH]; intros st tokens r Htrim Hasc Hplaced;
    cbn [Tokenizer.tokenize_loop].
  - destruct (Tokenizer.rest st); [|done]. by intros [= <-].
  - destruct (Tokenizer.rest st) as [|c0 r0] eqn:Hrest.
    { by intros [= <-]. }
    destruct (skipWhitespace_head st) as (c & s & Hrest1 & Hc); [congruence|congruence|].
    pose proof (skipWhitespace_reads_on st) as Hon.
    pose proof (reads_on_trimEnd _ _ Hon) as Htrim1. rewrite Hrest in Htrim1.
    specialize (Htrim1 Htrim).
    pose proof (skipWhitespace_not_before st) as Hpos.
    generalize dependent (Tokenizer.skipWhitespace st).
    intros st1 Hrest1 Hon Htrim1 Hpos.
    rewrite !(peek_is_cons st1 c s) by done.
    assert (∀ token st2,
              tok_loc token = Tokenizer.getLocation st1 →
              reads_on st1 st2 → pos_lt (cursor st1) (cursor st2) →
              Tokenizer.tokenize_loop fuel st2 (tokens ++ [token]) = Some r →
              ascending r.1 ∧ Forall (placed_before r.2) r.1) as Hstep.
    { intros token st2 Hloc Hon2 Hlt. apply IH.
      - by eapply reads_on_trimEnd.
      - apply ascending_snoc; [done|].
        eapply Forall_impl; [exact Hplaced|]. intros t [_ Ht].
        rewrite Hloc. by eapply pos_lt_not_before.
      - apply Forall_app. split.
        + eapply Forall_impl; [exact Hplaced|]. intros t [Hpoint Ht].
          split; [done|]. eapply pos_lt_trans; [|exact Hlt].
          by eapply pos_lt_not_before.
        + constructor; [|constructor]. split; by rewrite Hloc. }
    destruct (c =? "<")%char eqn:Hlt.
    + destruct (Tokenizer.next_is_slash st1).
      * apply Hstep; [done| |apply readCloseTag_after].
        eapply reads_on_trans; [apply advance_reads_on|].
        apply readCloseTag_reads_on.
      * destruct (Tokenizer.readOpenTag fuel st1) as [[token st2]|] eqn:Hopen; [|done].
        apply Hstep.
        -- by eapply readOpenTag_loc.
        -- eapply reads_on_trans; [apply advance_reads_on|].
           by apply (readOpenTag_reads_on _ _ _ Hopen).
        -- by apply (readOpenTag_after _ _ _ Hopen).
    + destruct (c =? "{")%char eqn:Hbrace.
      * apply Hstep; [done| |apply readExpression_after].
        eapply reads_on_trans; [apply advance_reads_on|].
        apply readExpression_reads_on.
      * apply Hstep; [done | apply readText_reads_on |].
        apply (readText_after st1 c s); [done|].
        unfold is_text_char. by rewrite Hlt, Hbrace.
Qed.

(** X20: the tokens of the list that the tokenizer returns, the eof token
    included, stand in the order of the source: each starts at a line and
    column strictly before those of the next; and the location of every
    token is a single point, its end being its start. *)
Theorem tokens_are_in_source_order (fuel : nat) (source : string)
    (tokens : list Token) :
  Tokenizer.tokenize fuel (Tokenizer.new source) = Some tokens →
  ascending tokens
  ∧ Forall (fun token => end_ (tok_loc token) = start (tok_loc token)) tokens.
Proof.
  unfold Tokenizer.tokenize.
  destruct (Tokenizer.tokenize_loop fuel _ []) as [[body st]|] eqn:Hloop; [|done].
  intros [= <-].
  destruct (tokenize_loop_ascending fuel (Tokenizer.new source) [] (body, st))
    as [Hasc Hplaced]; [apply trimEnd_idemp | done | constructor | exact Hloop|].
  cbn [fst snd] in *. split.
  - apply ascending_snoc; [done|].
    eapply Forall_impl; [exact Hplaced|]. by intros t [_ Ht].
  - apply Forall_app. split; [|by constructor].
    eapply Forall_impl; [exact Hplaced|]. by intros t [Hpoint _].
Qed.

Lemma tokens_are_in_source_order_witness :
  ascending
    [{| tok_type := tk_open; tok_value := TTag "p" []; tok_loc := first_location |};
     {| tok_type := tk_text; tok_value := TStr "a";
        tok_loc := {| start := Build_Position 1 5; end_ := Build_Position 1 5 |} |};
     {| tok_type := tk_close; tok_value := TStr "p";
        tok_loc := {| start := Build_Position 1 7; end_ := Build_Position 1 7 |} |};
     {| tok_type := tk_eof; tok_value := TStr EmptyString;
        tok_loc := {| start := Build_Position 1 11; end_ := Build_Position 1 11 |} |}]
  ∧ Forall (fun token => end_ (tok_loc token) = start (tok_loc token))
    [{| tok_type := tk_open; tok_value := TTag "p" []; tok_loc := first_location |};
     {| tok_type := tk_text; tok_value := TStr "a";
        tok_loc := {| start := Build_Position 1 5; end_ := Build_Position 1 5 |} |};
     {| tok_type := tk_close; tok_value := TStr "p";
        tok_loc := {| start := Build_Position 1 7; end_ := Build_Position 1 7 |} |};
     {| tok_type := tk_eof; tok_value := TStr EmptyString;
        tok_loc := {| start := Build_Position 1 11; end_ := Build_Position 1 11 |} |}].
Proof.
  apply (tokens_are_in_source_order 3 "<p> a </p>"). vm_compute. reflexivity.
Defined.

(** * An attribute value whose brace is never closed *)

Lemma no_closing_brace_trimEnd s :
  no_closing_brace s = true → no_closing_brace (trimEnd s) = true.
Proof.
  induction s as [|c s IH]; [done|]. intros [Hc Hs]%andb_prop.
  specialize (IH Hs). cbn [trimEnd]. destruct (trimEnd s) as [|c' r].
  - destruct (is_space c); [done|]. cbn [no_closing_brace]. by rewrite Hc.
  - cbn [no_closing_brace] in *. by rewrite Hc, IH.
Qed.

Lemma trimEnd_cons_nonempty c s :
  trimEnd s ≠ EmptyString → trimEnd (String c s) = String c (trimEnd s).
Proof. intros Hs. cbn [trimEnd]. by destruct (trimEnd s). Qed.

Lemma trimEnd_app_nonempty s t :
  trimEnd t ≠ EmptyString → trimEnd (s +:+ t) = s +:+ trimEnd t.
Proof.
  intros Ht. induction s as [|a s IH]; [by rewrite !append_nil_l|].
  rewrite !append_cons, trimEnd_cons_nonempty, IH; [done|].
  rewrite IH. destruct s; [by rewrite append_nil_l | by rewrite append_cons].
Qed.

Lemma trim_brace_attribute_source name attr body :
  trim (brace_attribute_source name attr body)
  = brace_attribute_source name attr (trimEnd body).
Proof.
  unfold trim, brace_attribute_source. cbn [trimStart].
  change (is_space "<") with false. cbv iota.
  assert (trimEnd (String "=" (String "{" body))
          = String "=" (String "{" (trimEnd body))) as H1
    by by rewrite !trimEnd_cons.
  assert (trimEnd (attr +:+ String "=" (String "{" body))
          = attr +:+ String "=" (String "{" (trimEnd body))) as H2
    by by rewrite trimEnd_app_nonempty, H1 by by rewrite H1.
  assert (∀ s, s +:+ String "=" (String "{" (trimEnd body)) ≠ EmptyString) as Hne
    by by intros [].
  assert (trimEnd (String " " (attr +:+ String "=" (String "{" body)))
          = String " " (attr +:+ String "=" (String "{" (trimEnd body)))) as H3
    by by rewrite trimEnd_cons_nonempty, H2 by by rewrite H2.
  rewrite trimEnd_cons by done.
  by rewrite trimEnd_app_nonempty, H3 by by rewrite H3.
Qed.

Lemma readAttribute_unclosed_brace fuel st attr body :
  Tokenizer.rest st = attr +:+ String "=" (String "{" body) →
  all_chars is_ident attr = true → no_closing_brace body = true →
  Tokenizer.readAttribute fuel st = None.
Proof.
  intros Hrest Hattr Hbody. unfold Tokenizer.readAttribute, Tokenizer.read_while.
  rewrite Hrest.
  destruct (read_while_from_until is_ident attr "=" (String "{" body) st Hattr eq_refl)
    as (st1 & -> & Hrest1).
  specialize (Hrest1 Hrest).
  rewrite (skipWhitespace_non_space st1 "=" (String "{" body)) by done.
  rewrite (peek_is_cons st1 "=" (String "{" body)) by done.
  change (("=" =? "=")%char) with true. cbn [negb].
  rewrite (advance_cons st1 "=" (String "{" body)) by done. cbn [snd].
  set (st2 := Tokenizer.bump (Some "="%char) st1 (String "{" body)).
  assert (Tokenizer.rest st2 = String "{" body) as Hrest2 by apply rest_bump.
  rewrite (skipWhitespace_non_space st2 "{" body) by done.
  rewrite !(peek_is_cons st2 "{" body) by done.
  change (("{" =? "034")%char) with false. change (("{" =? "'")%char) with false.
  change (("{" =? "{")%char) with true. cbn [orb].
  rewrite (advance_cons st2 "{" body) by done. cbn [snd].
  rewrite attribute_brace_loop_unclosed; [done| |lia].
  by rewrite rest_bump.
Qed.

Lemma is_ident_not_gt c : is_ident c = true → (c =? ">")%char = false.
Proof. destruct c as [[] [] [] [] [] [] [] []]; vm_compute; congruence. Qed.

Lemma attributes_loop_unclosed_brace fuel st a attr body attributes :
  Tokenizer.rest st = String a attr +:+ String "=" (String "{" body) →
  all_chars is_ident (String a attr) = true →
  no_closing_brace body = true →
  Tokenizer.attributes_loop fuel st attributes = None.
Proof.
  intros Hrest Hattr Hbody.
  pose proof Hattr as [Ha _]%andb_prop.
  pose proof Hrest as Hrest'. rewrite append_cons in Hrest'.
  destruct fuel as [|fuel]; cbn [Tokenizer.attributes_loop];
    unfold Tokenizer.peek; rewrite Hrest';
    rewrite (is_ident_not_gt a Ha), (is_ident_not_slash a Ha); cbn [negb andb];
    [done|].
  by rewrite (readAttribute_unclosed_brace fuel st (String a attr) body).
Qed.

Lemma readOpenTag_unclosed_brace fuel st n name a attr body :
  Tokenizer.rest st = brace_attribute_source (String n name) (String a attr) body →
  all_chars is_ident (String n name) = true →
  all_chars is_ident (String a attr) = true →
  no_closing_brace body = true →
  Tokenizer.readOpenTag fuel st = None.
Proof.
  intros Hrest Hname Hattr Hbody. unfold brace_attribute_source in Hrest.
  set (after_name := String " " (String a attr +:+ String "=" (String "{" body))) in *.
  pose proof Hname as [Hn _]%andb_prop. pose proof Hattr as [Ha _]%andb_prop.
  unfold Tokenizer.readOpenTag. cbv zeta.
  rewrite (advance_cons st "<" (String n name +:+ after_name)) by done. cbn [snd].
  set (st1 := Tokenizer.bump (Some "<"%char) st (String n name +:+ after_name)).
  assert (Tokenizer.rest st1 = String n name +:+ after_name) as Hrest1
    by apply rest_bump.
  rewrite (skipWhitespace_non_space st1 n (name +:+ after_name))
    by (done || by apply is_ident_not_space).
  unfold Tokenizer.read_while at 1. rewrite Hrest1.
  destruct (read_while_from_until is_ident (String n name) " "
              (String a attr +:+ String "=" (String "{" body)) st1 Hname eq_refl)
    as (st2 & Hrun & Hrest2).
  fold after_name in Hrun, Hrest2. rewrite Hrun. specialize (Hrest2 Hrest1).
  assert (Tokenizer.rest (Tokenizer.skipWhitespace st2)
          = String a attr +:+ String "=" (String "{" body)) as Hrest3.
  { rewrite rest_skipWhitespace, Hrest2. unfold after_name. cbn [trimStart].
    change (is_space " ") with true. cbv iota.
    rewrite append_cons. cbn [trimStart]. by rewrite (is_ident_not_space a Ha). }
  by rewrite (attributes_loop_unclosed_brace fuel _ a attr body []).
Qed.

(** X21: an open tag whose attribute value opens a brace that the source
    never closes is never tokenized, whatever the tag, the attribute and
    the text after the brace: the brace scan of readAttribute has no test
    for the end of the input and goes on past it, appending the text
    undefined at every step (strings have no bound on their length here).
    compile returns nothing on such a source. *)
Theorem unclosed_attribute_brace_hangs_the_tokenizer (name attr body : string)
    (fuel : nat) :
  name ≠ EmptyString → all_chars is_ident name = true →
  attr ≠ EmptyString → all_chars is_ident attr = true →
  no_closing_brace body = true →
  Tokenizer.tokenize fuel (Tokenizer.new (brace_attribute_source name attr body)) = None
  ∧ compile fuel (brace_attribute_source name attr body) = None.
Proof.
  intros Hne Hname Hne' Hattr Hbody.
  destruct name as [|n name]; [done|]. destruct attr as [|a attr]; [done|].
  assert (Tokenizer.tokenize fuel
            (Tokenizer.new (brace_attribute_source (String n name) (String a attr) body))
          = None) as Htok.
  { unfold Tokenizer.tokenize, Tokenizer.new. rewrite trim_brace_attribute_source.
    set (st := {| Tokenizer.rest :=
                    brace_attribute_source (String n name) (String a attr) (trimEnd body);
                  Tokenizer.line := 1; Tokenizer.column := 1 |}).
    assert (Tokenizer.skipWhitespace st = st) as Hskip
      by by eapply (skipWhitespace_non_space st "<").
    rewrite tokenize_loop_open_tag_None; [done|done|..].
    - by rewrite Hskip.
    - rewrite Hskip. unfold Tokenizer.next_is_slash. cbn.
      apply andb_prop in Hname as [Hn _]. by apply is_ident_not_slash.
    - intros fuel'. rewrite Hskip.
      apply (readOpenTag_unclosed_brace fuel' st n name a attr (trimEnd body));
        [done..|]. by apply no_closing_brace_trimEnd. }
  split; [done|]. unfold compile, parse, Parser.parse. by rewrite Htok.
Qed.

Lemma unclosed_attribute_brace_hangs_the_tokenizer_witness :
  Tokenizer.tokenize 100 (Tokenizer.new "<button onClick={() => go(1)>Go</button>") = None
  ∧ compile 100 "<button onClick={() => go(1)>Go</button>" = None.
Proof.
  apply (unclosed_attribute_brace_hangs_the_tokenizer
           "button" "onClick" "() => go(1)>Go</button>" 100);
    (reflexivity || done).
Defined.

(** * Common-subexpression elimination *)

Lemma first_ok_app pre x key first :
  first_ok pre key first → first_ok (pre ++ [x]) key first.
Proof.
  intros (j0 & inst0 & Hj0 & H). exists j0, inst0.
  split; [by apply lookup_app_l_Some | done].
Qed.

Lemma alias_ok_app pre x d d0 : alias_ok pre d d0 → alias_ok (pre ++ [x]) d d0.
Proof.
  intros (j0 & j & inst0 & inst & Hlt & Hj0 & Hj & H).
  exists j0, j, inst0, inst.
  split_and!; [done | by apply lookup_app_l_Some | by apply lookup_app_l_Some |
               apply H..].
Qed.

Lemma truthy_dest inst : truthy (dest inst) = true → dest inst = Some (tpl (dest inst)).
Proof. by destruct (dest inst) as [[]|]. Qed.

Lemma cse_step_ok pre x E V :
  (∀ key first, E !! key = Some first → first_ok pre key first) →
  (∀ d d0, V !! d = Some d0 → alias_ok pre d d0) →
  (∀ key first, (cse_step (E, V) x).1 !! key = Some first →
                first_ok (pre ++ [x]) key first)
  ∧ (∀ d d0, (cse_step (E, V) x).2 !! d = Some d0 → alias_ok (pre ++ [x]) d d0).
Proof.
  intros HE HV.
  assert (∀ key first, E !! key = Some first → first_ok (pre ++ [x]) key first)
    as HE' by (intros key first ?; by apply first_ok_app, HE).
  assert (∀ d d0, V !! d = Some d0 → alias_ok (pre ++ [x]) d d0)
    as HV' by (intros d d0 ?; by apply alias_ok_app, HV).
  unfold cse_step.
  destruct (bool_decide (op x = create_element) || bool_decide (op x = create_text))
    eqn:Hop; [|done].
  assert (op x = create_element ∨ op x = create_text) as Hop'.
  { apply orb_prop in Hop as [?%bool_decide_eq_true|?%bool_decide_eq_true]; tauto. }
  assert ((pre ++ [x]) !! length pre = Some x) as Hlast
    by by rewrite lookup_app_r, Nat.sub_diag by lia.
  destruct (truthy (dest x)) eqn:Hdest.
  - apply truthy_dest in Hdest.
    destruct (E !! cse_key x) as [first|] eqn:Hfirst; cbn [fst snd].
    + split; [done|]. intros d d0. rewrite lookup_insert.
      destruct (decide (tpl (dest x) = d)) as [Hd|Hd]; [|by auto].
      intros [= <-]. subst d.
      destruct (HE _ _ Hfirst) as (j0 & inst0 & Hj0 & Hd0 & Hkey).
      exists j0, (length pre), inst0, x.
      split_and!; [by eapply lookup_lt_Some | by apply lookup_app_l_Some | done..].
    + split; [|done]. intros key first. rewrite lookup_insert.
      destruct (decide (cse_key x = key)) as [Hk|Hk]; [|by auto].
      intros [= <-]. by exists (length pre), x.
  - by destruct (E !! cse_key x).
Qed.

Lemma cse_fold_ok suffix :
  ∀ pre E V,
  (∀ key first, E !! key = Some first → first_ok pre key first) →
  (∀ d d0, V !! d = Some d0 → alias_ok pre d d0) →
  ∀ d d0, (foldl cse_step (E, V) suffix).2 !! d = Some d0 →
          alias_ok (pre ++ suffix) d d0.
Proof.
  induction suffix as [|x suffix IH]; intros pre E V HE HV d d0.
  - rewrite app_nil_r. apply HV.
  - cbn [foldl]. destruct (cse_step_ok pre x E V HE HV) as [HE' HV'].
    destruct (cse_step (E, V) x) as [E1 V1]. cbn [fst snd] in *.
    replace (pre ++ x :: suffix) with ((pre ++ [x]) ++ suffix)
      by by rewrite <- app_assoc.
    by apply IH.
Qed.

Lemma keeps_no_alias_visitNode node :
  keeps (fun b => variables (ir b) = ∅) (visitNode node).
Proof.
  apply keeps_visitNode.
  - by intros p b.
  - apply keeps_visitValue; [by intros p b | by intros inst _ b].
  - by intros inst _ _ b.
Qed.

Lemma constantFolding_variables b b' :
  constantFolding b = (Normal tt, b') → variables (ir b') = variables (ir b).
Proof.
  unfold constantFolding, bind, get.
  destruct (fold_blocks_run (blocks (ir b))
              (collect_constants (all_instructions (ir b))) b)
    as (bs' & c' & b1 & Hrun & Hir & _).
  rewrite Hrun. intros [= <-]. cbn. by rewrite Hir.
Qed.

(** X22: every entry of the alias table that commonSubexpressionElimination
    leaves in the IR returned by buildSSA is sound: it maps the destination
    of a create_element or create_text to the destination of an earlier
    instruction with the same operation, arguments and printed value.  The
    generator never reads the table: the generated code is the same
    without it. *)
Theorem cse_aliases_are_sound_and_unread (ast : ASTNode) (i : SSAIR) :
  buildSSA ast = Normal i →
  (∀ d d0, variables i !! d = Some d0 → alias_ok (all_instructions i) d d0)
  ∧ ∀ o, generateCode (set_variables (fun _ => ∅) i) o = generateCode i o.
Proof.
  intros Hbuild. split; [|done].
  assert (variables (ir (after_visit ast)) = ∅) as Hempty
    by by apply (keeps_no_alias_visitNode ast new_SSABuilder).
  revert Hbuild. unfold buildSSA, build. unfold bind at 1.
  fold (after_visit ast).
  destruct (visitNode ast new_SSABuilder) as [[r|e] b1] eqn:Hvisit; [|done].
  assert (after_visit ast = b1) as Hb1 by (unfold after_visit; by rewrite Hvisit).
  rewrite <- Hb1. clear Hvisit Hb1 b1.
  unfold optimize, bind, get.
  destruct (deadCodeElimination_run (after_visit ast)) as (b2 & Hrun2 & _).
  destruct (constantFolding_run b2) as (b3 & Hrun3 & _).
  rewrite Hrun2, Hrun3. cbn [fst snd]. intros [= <-].
  apply constantFolding_variables in Hrun3.
  assert (variables (ir b3) = ∅) as Hb3.
  { rewrite Hrun3. injection Hrun2 as <-. exact Hempty. }
  intros d d0.
  change (all_instructions (set_variables _ (ir b3)))
    with (all_instructions (ir b3)).
  cbn [variables set_variables]. rewrite Hb3.
  by apply (cse_fold_ok (all_instructions (ir b3)) [] ∅ ∅).
Qed.

Lemma cse_aliases_are_sound_and_unread_witness :
  (∀ d d0,
     variables (optimized (program_of
                  [element_of "p" [] [text_of "a"; text_of "a"]])) !! d = Some d0 →
     alias_ok (all_instructions (optimized (program_of
                  [element_of "p" [] [text_of "a"; text_of "a"]]))) d d0)
  ∧ ∀ o, generateCode
           (set_variables (fun _ => ∅)
              (optimized (program_of [element_of "p" [] [text_of "a"; text_of "a"]])))
           o
         = generateCode
             (optimized (program_of [element_of "p" [] [text_of "a"; text_of "a"]])) o.
Proof.
  apply (cse_aliases_are_sound_and_unread
           (program_of [element_of "p" [] [text_of "a"; text_of "a"]])).
  vm_compute. reflexivity.
Defined.

(** * Where compile can fail to return *)

(** X23: compile returns on a source, with code or with an exception,
    exactly when the tokenizer returns on it: the parser, the builder, the
    optimizer and the generator return on whatever they are given, so
    that a source on which compile does not return is one on which the
    tokenizer does not. *)
Theorem only_the_tokenizer_can_hang (source : string) :
  (∃ fuel tokens, Tokenizer.tokenize fuel (Tokenizer.new source) = Some tokens)
  ↔ (∃ fuel result, compile fuel source = Some result).
Proof.
  split.
  - intros (fuel & tokens & Htok).
    destruct (parse_returns_when_tokenize_does _ _ _ Htok) as [ast Hparse].
    exists (fuel `max` (2 * length tokens + 1)). unfold compile.
    rewrite Hparse. by eexists.
  - intros (fuel & result & Hcompile). exists fuel.
    unfold compile, parse, Parser.parse in Hcompile.
    destruct (Tokenizer.tokenize fuel _) as [tokens|]; [by exists tokens | done].
Qed.

(** * Scoping before constant folding *)

(** ** Lists of instructions *)

Lemma defined_after_union D insts :
  defined_after D insts = D ∪ defined_after ∅ insts.
Proof.
  revert D. induction insts as [|inst rest IH]; intros D; cbn [defined_after].
  - by rewrite (right_id_L ∅ (∪)).
  - rewrite IH, (IH (if truthy (dest inst) then _ else _)).
    destruct (truthy (dest inst)); [|by rewrite (left_id_L ∅ (∪))].
    by rewrite (right_id_L ∅ (∪) {[dest inst]}), (comm_L (∪) {[dest inst]} D),
         (assoc_L (∪)).
Qed.

Lemma defined_after_app D l1 l2 :
  defined_after D (l1 ++ l2) = defined_after (defined_after D l1) l2.
Proof.
  revert D. induction l1 as [|inst rest IH]; intros D; [done|].
  cbn [app defined_after]. apply IH.
Qed.

Lemma defined_before_use_app D l1 l2 :
  defined_before_use D (l1 ++ l2) =
  defined_before_use D l1 && defined_before_use (defined_after D l1) l2.
Proof.
  revert D. induction l1 as [|inst rest IH]; intros D; [done|].
  cbn [app defined_before_use defined_after]. by rewrite IH, andb_assoc.
Qed.

Lemma forallb_defined_mono (D D' : gset (option string)) l :
  D ⊆ D' →
  forallb (fun a => bool_decide (a ∈ D)) l = true →
  forallb (fun a => bool_decide (a ∈ D')) l = true.
Proof.
  intros HD. induction l as [|a l IH]; [done|]. cbn [forallb].
  intros [Ha Hl]%andb_prop. apply bool_decide_eq_true in Ha.
  rewrite bool_decide_eq_true_2 by by apply HD. by apply IH.
Qed.

Lemma defined_before_use_mono insts :
  ∀ D D', D ⊆ D' →
  defined_before_use D insts = true → defined_before_use D' insts = true.
Proof.
  induction insts as [|inst rest IH]; intros D D' HD; [done|].
  cbn [defined_before_use]. intros [Hargs Hrest]%andb_prop.
  rewrite (forallb_defined_mono D D') by done. cbn [andb].
  eapply IH; [|exact Hrest].
  destruct (truthy (dest inst)); [by apply union_mono_l | done].
Qed.

(** ** Methods that define what they read *)

Lemma scoped_weaken {A : Type} (needs needs' : gset (option string)) (m : B A)
    (post post' : A → gset (option string) → Prop) :
  needs ⊆ needs' → (∀ a defs, post a defs → post' a defs) →
  scoped needs m post → scoped needs' m post'.
Proof.
  intros Hneeds Hpost Hm b Hb.
  destruct (Hm b Hb) as (Hb1 & new & Hall & Hscope & Hret).
  split; [done|]. exists new. split_and!; [done| |].
  - intros D HD. apply Hscope. by etrans.
  - intros a Ha. by apply Hpost, Hret.
Qed.

Lemma scoped_ret {A : Type} (needs : gset (option string)) (a : A)
    (post : A → gset (option string) → Prop) :
  post a ∅ → scoped needs (ret a) post.
Proof.
  intros Hpost b Hb. split; [done|]. exists []. split_and!.
  - by rewrite app_nil_r.
  - done.
  - by intros a' [= <-].
Qed.

Lemma scoped_throw {A : Type} (needs : gset (option string)) (e : Exception)
    (post : A → gset (option string) → Prop) :
  scoped needs (throw e) post.
Proof.
  intros b Hb. split; [done|]. exists []. split_and!; [by rewrite app_nil_r|done..].
Qed.

Lemma scoped_bind {A C : Type} (needs : gset (option string)) (m : B A) (f : A → B C)
    (post1 : A → gset (option string) → Prop)
    (post : C → gset (option string) → Prop) :
  scoped needs m post1 →
  (∀ a defs1, post1 a defs1 →
     scoped (needs ∪ defs1) (f a) (fun c defs2 => post c (defs1 ∪ defs2))) →
  scoped needs (bind m f) post.
Proof.
  intros Hm Hf b Hb. unfold bind.
  destruct (Hm b Hb) as (Hb1 & new1 & Hall1 & Hscope1 & Hret1).
  destruct (m b) as [[a|e] b1]; cbn [fst snd] in *.
  - destruct (Hf a _ (Hret1 a eq_refl) b1 Hb1)
      as (Hb2 & new2 & Hall2 & Hscope2 & Hret2).
    split; [done|]. exists (new1 ++ new2). split_and!.
    + by rewrite Hall2, Hall1, app_assoc.
    + intros D HD. rewrite defined_before_use_app, Hscope1 by done. cbn [andb].
      apply Hscope2. rewrite (defined_after_union D). by apply union_mono_r.
    + intros c Hc. rewrite defined_after_app, defined_after_union. by apply Hret2.
  - split; [done|]. exists new1. by split_and!.
Qed.

Lemma scoped_newVar (needs : gset (option string)) (c : ascii) (p : string) :
  scoped needs (newVar (String c p))
    (fun a defs => defs = ∅ ∧ truthy (Some a) = true).
Proof.
  intros b Hb. rewrite newVar_run. split; [done|]. exists []. split_and!.
  - by rewrite app_nil_r.
  - done.
  - by intros a [= <-].
Qed.

Lemma scoped_emitInst (needs : gset (option string)) (inst : SSAInstruction)
    (post : string → gset (option string) → Prop) :
  (∀ a, a ∈ name_args inst → a ∈ needs) →
  post (default EmptyString (dest inst)) (defined_after ∅ [inst]) →
  scoped needs (emitInst inst) post.
Proof.
  intros Hargs Hpost b Hb. destruct (emitInst_run b inst Hb) as (Hb1 & _ & Hall).
  split; [done|]. exists [inst]. split_and!; [done| |].
  - intros D HD. cbn [defined_before_use]. rewrite andb_true_r.
    apply forallb_forall. intros a Ha%list_elem_of_In.
    apply bool_decide_eq_true_2, HD, Hargs, Ha.
  - by intros a [= <-].
Qed.

Lemma scoped_for_each {A : Type} (needs : gset (option string)) (body : A → B unit)
    (l : list A) :
  Forall (fun x => scoped needs (body x) (fun _ _ => True)) l →
  scoped needs (for_each body l) (fun _ _ => True).
Proof.
  intros Hl. revert needs Hl.
  induction l as [|x l IH]; intros needs Hl; simpl; [by apply scoped_ret|].
  apply Forall_cons in Hl as [Hx Hl].
  eapply scoped_bind; [exact Hx|]. intros _ defs1 _.
  apply IH. eapply Forall_impl; [exact Hl|]. intros y.
  apply scoped_weaken; [apply union_subseteq_l | done].
Qed.

Lemma scoped_map_each {A C : Type} (needs : gset (option string)) (f : A → B C)
    (l : list A) :
  Forall (fun x => scoped needs (f x) (fun _ _ => True)) l →
  scoped needs (map_each f l) (fun _ _ => True).
Proof.
  intros Hl. revert needs Hl.
  induction l as [|x l IH]; intros needs Hl; simpl; [by apply scoped_ret|].
  apply Forall_cons in Hl as [Hx Hl].
  eapply scoped_bind; [exact Hx|]. intros y defs1 _.
  eapply scoped_bind.
  - apply IH. eapply Forall_impl; [exact Hl|]. intros z.
    apply scoped_weaken; [apply union_subseteq_l | done].
  - intros ys defs2 _. by apply scoped_ret.
Qed.

(** A destination is minted and assigned at once; what follows may read
    it. *)
Lemma scoped_mint_emit {A : Type} (needs : gset (option string))
    (c : ascii) (p : string)
    (inst : string → SSAInstruction) (k : string → B A)
    (post : A → gset (option string) → Prop) :
  (∀ d, dest (inst d) = Some d) →
  (∀ d a, a ∈ name_args (inst d) → a ∈ needs) →
  (∀ d, scoped (needs ∪ {[Some d]}) (k d)
          (fun r defs => post r ({[Some d]} ∪ defs))) →
  scoped needs (let* d := newVar (String c p) in emitInst (inst d) >> k d) post.
Proof.
  intros Hdest Hargs Hk.
  eapply scoped_bind; [apply scoped_newVar|]. intros d defs1 [-> Hd].
  eapply (scoped_bind _ _ _ (fun _ defs => defs = {[Some d]})).
  - apply scoped_emitInst.
    + intros a Ha. apply elem_of_union_l. by eapply Hargs.
    + cbn [defined_after]. rewrite Hdest, Hd. by rewrite (right_id_L ∅ (∪)).
  - intros _ defs2 ->. eapply scoped_weaken; [| |apply Hk].
    + rewrite (right_id_L ∅ (∪)). done.
    + intros r defs Hpost. by rewrite (left_id_L ∅ (∪)).
Qed.

Lemma scoped_visitValue (needs : gset (option string)) (v : JSValue) :
  scoped needs (visitValue v) (fun r defs => Some r ∈ defs).
Proof.
  unfold visitValue.
  destruct v as [| |s|]; try destruct (_ && _);
    (apply (scoped_mint_emit _ _ _
              (fun d => Build_SSAInstruction _ (Some d) None _ _ _));
     [done | by intros d a Ha%elem_of_nil |]);
    intros d; apply scoped_ret; apply elem_of_union_l; by apply elem_of_singleton.
Qed.

(** ** The visitors read what they have defined *)

Lemma forallb_Forall_1 {A : Type} (p : A → bool) (R : A → Prop) (l : list A) :
  Forall (fun x => p x = true → R x) l → forallb p l = true → Forall R l.
Proof.
  induction 1 as [|x l Hx Hl IH]; [by constructor|]. cbn [forallb].
  intros [Hp Hps]%andb_prop. constructor; auto.
Qed.

Lemma scoped_visitNode (node : ASTNode) :
  parsed_node node = true →
  scoped ∅ (visitNode node) (fun r defs => Some r ∈ defs).
Proof.
  induction node as [ty tag attributes children v e s l IH]
    using ASTNode_children_ind.
  intros Hparsed. destruct ty; try done; cbn [visitNode].
  - destruct tag as [name|], attributes as [entries|], children as [cs|],
      s as [flag|]; try done.
    cbn [parsed_node] in Hparsed. apply andb_prop in Hparsed as [_ Hcs].
    pose proof (forallb_Forall_1 _ _ _ IH Hcs) as Hchildren.
    unfold visitElement. destruct (truthy (Some name)); [|apply scoped_throw].
    apply (scoped_mint_emit _ _ _
             (fun d => Build_SSAInstruction _ (Some d) (Some [_]) _ _ _));
      [done | by intros d a Ha%elem_of_nil | intros d0].
    eapply scoped_bind.
    { apply scoped_for_each, Forall_forall. intros kv _.
      eapply scoped_bind; [apply scoped_visitValue|]. intros valueVar defs1 Hvalue.
      eapply scoped_bind; [|intros _ defs2 _; by apply scoped_ret].
      apply (scoped_emitInst _ _ (fun _ _ => True)); [|done].
      intros a Ha.
      change (a ∈ [Some d0; Some valueVar]) in Ha.
      apply elem_of_cons in Ha as [->|Ha%list_elem_of_singleton].
      - apply elem_of_union_l, elem_of_union_r. by apply elem_of_singleton.
      - subst a. by apply elem_of_union_r. }
    intros _ defs1 _. eapply scoped_bind.
    { eapply scoped_weaken; [apply union_subseteq_l | done |].
      apply scoped_for_each. eapply Forall_impl; [exact Hchildren|].
      intros child Hchild. cbn beta.
      eapply scoped_bind.
      { eapply scoped_weaken; [apply empty_subseteq | done | exact Hchild]. }
      intros childVar defs2 HchildVar.
      destruct (truthy (Some childVar)); [|by apply scoped_ret].
      eapply scoped_bind; [|intros _ defs3 _; by apply scoped_ret].
      apply (scoped_emitInst _ _ (fun _ _ => True)); [|done].
      intros a Ha.
      change (a ∈ [Some d0; Some childVar]) in Ha.
      apply elem_of_cons in Ha as [->|Ha%list_elem_of_singleton].
      - apply elem_of_union_l, elem_of_union_r. by apply elem_of_singleton.
      - subst a. by apply elem_of_union_r. }
    intros _ defs2 _. apply scoped_ret.
    apply elem_of_union_l. by apply elem_of_singleton.
  - unfold visitText.
    apply (scoped_mint_emit _ _ _
             (fun d => Build_SSAInstruction _ (Some d) None _ _ _));
      [done | by intros d a Ha%elem_of_nil | intros d0].
    apply scoped_ret. apply elem_of_union_l. by apply elem_of_singleton.
  - unfold visitExpression.
    apply (scoped_mint_emit _ _ _
             (fun d => Build_SSAInstruction _ (Some d) None _ _ _));
      [done | by intros d a Ha%elem_of_nil | intros d0].
    apply scoped_ret. apply elem_of_union_l. by apply elem_of_singleton.
  - unfold visitComponent.
    eapply scoped_bind; [apply scoped_newVar|]. intros d0 defs1 [-> Hdest].
    apply (scoped_mint_emit _ _ _
             (fun d => Build_SSAInstruction _ (Some d) None _ _ _));
      [done | by intros d a Ha%elem_of_nil | intros propsVar].
    eapply (scoped_bind _ _ _ (fun _ defs => defs = {[Some d0]})).
    + apply scoped_emitInst.
      * intros a Ha. change (a ∈ [Some propsVar]) in Ha.
        apply list_elem_of_singleton in Ha as ->.
        apply elem_of_union_r. by apply elem_of_singleton.
      * cbn [defined_after dest]. rewrite Hdest. by rewrite (right_id_L ∅ (∪)).
    + intros _ defs2 ->. apply scoped_ret.
      apply elem_of_union_r, elem_of_union_r, elem_of_union_l.
      by apply elem_of_singleton.
Qed.

Lemma scoped_visit_tree (ast : ASTNode) :
  parsed_tree ast = true → scoped ∅ (visitNode ast) (fun _ _ => True).
Proof.
  destruct ast as [ty tag attributes children v e s l].
  unfold parsed_tree. cbn [node_type node_children visitNode].
  destruct ty; try done. destruct children as [cs|]; [|done].
  intros Hparsed. unfold visitProgram.
  eapply scoped_bind; [|intros visited defs _; by apply scoped_ret].
  apply scoped_map_each.
  eapply (forallb_Forall_1 parsed_node); [|done].
  apply Forall_forall. intros child _ Hchild.
  eapply scoped_weaken; [done | |by apply scoped_visitNode]. done.
Qed.

(** ** Dead-code elimination keeps what is read *)

Lemma name_args_are_args (inst : SSAInstruction) (a : option string) :
  a ∈ name_args inst → a ∈ default [] (args inst).
Proof.
  unfold name_args. generalize (literal_positions (op inst)).
  generalize (default [] (args inst)). intros l lits.
  assert (∀ (f : nat → bool) (l : list (option string)),
            a ∈ concat (imap (fun i x => if f i then [] else [x]) l) → a ∈ l)
    as Himap.
  { clear. intros f l. revert f.
    induction l as [|x l IH]; intros f; cbn [imap concat]; [done|].
    intros [Hx|Hin]%elem_of_app.
    - destruct (f 0); [by apply elem_of_nil in Hx|].
      apply list_elem_of_singleton in Hx as ->. apply list_elem_of_here.
    - apply list_elem_of_further, (IH (f ∘ S)), Hin. }
  apply (Himap (fun i => bool_decide (i ∈ lits))).
Qed.

Lemma name_args_are_used (i : SSAIR) (inst : SSAInstruction) (a : option string) :
  inst ∈ all_instructions i → a ∈ name_args inst → a ∈ used_names i.
Proof.
  intros Hinst Ha%name_args_are_args. unfold used_names, arg_names.
  apply elem_of_list_to_set, list_elem_of_bind. by exists inst.
Qed.

Lemma filter_defined_before_use (used : gset (option string))
    (insts : list SSAInstruction) :
  Forall (fun inst => ∀ a, a ∈ name_args inst → a ∈ used) insts →
  ∀ D D' : gset (option string),
    (∀ a, a ∈ D → a ∈ used → a ∈ D') →
    defined_before_use D insts = true →
    defined_before_use D' (filter (dce_keep used) insts) = true.
Proof.
  induction 1 as [|inst rest Hinst Hrest IH]; intros D D' HD; [done|].
  cbn [defined_before_use]. intros [Hargs Hafter]%andb_prop.
  rewrite filter_cons. destruct (decide (dce_keep used inst)) as [Hkeep|Hdrop].
  - cbn [defined_before_use]. apply andb_true_intro. split.
    + apply forallb_forall. intros a Ha. apply bool_decide_eq_true_2.
      rewrite forallb_forall in Hargs.
      apply HD; [|by apply Hinst, list_elem_of_In].
      apply (bool_decide_unpack _). rewrite (Hargs a Ha). exact I.
    + refine (IH _ _ _ Hafter). intros a.
      destruct (truthy (dest inst)); [|by apply HD].
      intros [Ha|Ha]%elem_of_union Hused.
      * by apply elem_of_union_l.
      * by apply elem_of_union_r, HD.
  - refine (IH _ _ _ Hafter). intros a.
    unfold dce_keep in Hdrop.
    destruct (truthy (dest inst)).
    + intros [Ha%elem_of_singleton|Ha]%elem_of_union Hused; [|by apply HD].
      subst a. exfalso. apply Hdrop.
      rewrite (bool_decide_eq_true_2 _ Hused). done.
    + by destruct Hdrop.
Qed.

Lemma well_scoped_one_block (i : SSAIR) :
  length (blocks i) = 1 →
  well_scoped i = defined_before_use ∅ (all_instructions i).
Proof.
  unfold well_scoped, all_instructions.
  destruct (blocks i) as [|kb [|kb' rest]]; try done. intros _.
  cbn [forallb]. rewrite bind_cons. cbn [mbind list_bind]. rewrite app_nil_r.
  apply andb_true_r.
Qed.

(** X24: for every tree the parser returns, the instructions the visitors
    of the builder emit read only names that an earlier instruction has
    defined, and so do the instructions that dead-code elimination keeps:
    the IR is well scoped when constantFolding starts. *)
Theorem ir_is_well_scoped_before_folding (fuel : nat) (source : string)
    (ast : ASTNode) :
  parse fuel source = Some ast →
  well_scoped (ir (after_visit ast)) = true
  ∧ well_scoped (ir (after_dce ast)) = true.
Proof.
  intros Hparse.
  assert (parsed_tree ast = true) as Hparsed.
  { revert Hparse. unfold parse, Parser.parse.
    destruct (Tokenizer.tokenize fuel _) as [tokens|] eqn:Htok; [|done].
    destruct (Parser.parseChildren fuel _) as [[children ts]|] eqn:Hch; [|done].
    intros [= <-]. apply tokenize_tag_tokens in Htok.
    by apply (proj1 (parse_functions_shape fuel)) in Hch as [Hc _]. }
  assert (one_block new_SSABuilder) as Hone by done.
  destruct (scoped_visit_tree ast Hparsed new_SSABuilder Hone)
    as ([Hkeys _] & new & Hall & Hnew & _).
  fold (after_visit ast) in Hkeys, Hall.
  assert (length (blocks (ir (after_visit ast))) = 1) as Hlen.
  { by rewrite <- (length_fmap fst), Hkeys. }
  assert (defined_before_use ∅ (all_instructions (ir (after_visit ast))) = true)
    as Hvisit.
  { rewrite Hall. by apply Hnew. }
  split; [by rewrite well_scoped_one_block|].
  unfold after_dce.
  destruct (deadCodeElimination_run (after_visit ast)) as (b2 & Hrun & Hall2).
  rewrite Hrun. cbn [snd].
  rewrite well_scoped_one_block, Hall2.
  - apply (filter_defined_before_use _ _) with (D := ∅); [|done|done].
    apply Forall_forall. intros inst Hinst a Ha.
    by apply (name_args_are_used _ inst).
  - injection Hrun as <-. cbn. by rewrite length_fmap.
Qed.

Lemma ir_is_well_scoped_before_folding_witness :
  well_scoped (ir (after_visit
    (program_of
       [mkASTNode Element (Some "p") (Some [("id", VString "x")])
          (Some [mkASTNode Expression None None None None (Some "y") (Some false)
                   (Some {| start := Build_Position 1 11;
                            end_ := Build_Position 1 11 |});
                 mkASTNode Component (Some "Card") (Some []) (Some []) None None None
                   (Some {| start := Build_Position 1 14;
                            end_ := Build_Position 1 14 |})])
          None None None (Some first_location)]))) = true
  ∧ well_scoped (ir (after_dce
    (program_of
       [mkASTNode Element (Some "p") (Some [("id", VString "x")])
          (Some [mkASTNode Expression None None None None (Some "y") (Some false)
                   (Some {| start := Build_Position 1 11;
                            end_ := Build_Position 1 11 |});
                 mkASTNode Component (Some "Card") (Some []) (Some []) None None None
                   (Some {| start := Build_Position 1 14;
                            end_ := Build_Position 1 14 |})])
          None None None (Some first_location)]))) = true.
Proof.
  apply (ir_is_well_scoped_before_folding 5 "<p id='x'>{y}<Card/></p>").
  vm_compute. reflexivity.
Defined.

(** * Scoping after constant folding *)

Lemma folded_name_mono (lo lo' : nat) (y : option string) :
  lo' ≤ lo → folded_name lo y → folded_name lo' y.
Proof. intros Hle (k & Hk & ->). exists k. split; [lia|done]. Qed.

Lemma fold_args_folded (a : list (option string)) :
  ∀ (c : gmap (option string) JSValue) (b : SSABuilder)
    (r : list (option string) * gmap (option string) JSValue) (b' : SSABuilder),
    fold_args a c b = (Normal r, b') →
    varCounter b ≤ varCounter b'
    ∧ Forall2 (fun x y => y = x ∨ folded_name (varCounter b) y) a r.1.
Proof.
  induction a as [|arg rest IH]; intros c b r b'; cbn [fold_args].
  - intros [= <- <-]. by split; [|constructor].
  - destruct (c !! arg) as [val|].
    + unfold bind at 1. rewrite newVar_run. unfold bind.
      destruct (fold_args rest _ _) as [[r1|e] b1] eqn:Hrest; [|done].
      intros [= <- <-]. apply IH in Hrest as [Hle Hrest].
      cbn [varCounter set_varCounter] in Hle, Hrest.
      split; [lia|]. cbn [fst]. constructor.
      * right. exists (varCounter b). by split.
      * eapply Forall2_impl; [exact Hrest|].
        intros x y [->|Hy]; [by left|right].
        eapply folded_name_mono; [|exact Hy]. lia.
    + unfold bind.
      destruct (fold_args rest _ _) as [[r1|e] b1] eqn:Hrest; [|done].
      intros [= <- <-]. apply IH in Hrest as [Hle Hrest].
      split; [done|]. cbn [fst]. constructor; [by left | done].
Qed.

Lemma fold_inst_folded (inst : SSAInstruction) (c : gmap (option string) JSValue)
    (b : SSABuilder) (r : SSAInstruction * gmap (option string) JSValue)
    (b' : SSABuilder) :
  fold_inst inst c b = (Normal r, b') →
  varCounter b ≤ varCounter b' ∧ folded_from (varCounter b) inst r.1.
Proof.
  unfold fold_inst. destruct (args inst) as [a|] eqn:Ha.
  - unfold bind. destruct (fold_args a c b) as [[r1|e] b1] eqn:Hargs; [|done].
    intros [= <- <-]. apply fold_args_folded in Hargs as [Hle Hargs].
    split; [done|]. split_and!; [done..|].
    cbn [fst set_args args]. by rewrite Ha.
  - intros [= <- <-]. split; [done|]. split_and!; [done..|].
    cbn [fst]. rewrite Ha. constructor.
Qed.

Lemma folded_from_mono (lo lo' : nat) (i i' : SSAInstruction) :
  lo' ≤ lo → folded_from lo i i' → folded_from lo' i i'.
Proof.
  intros Hle (Hop & Hdest & Hargs). split_and!; [done..|].
  eapply Forall2_impl; [exact Hargs|].
  intros x y [->|Hy]; [by left|right]. by eapply folded_name_mono.
Qed.

Lemma fold_insts_folded (insts : list SSAInstruction) :
  ∀ (c : gmap (option string) JSValue) (b : SSABuilder)
    (r : list SSAInstruction * gmap (option string) JSValue) (b' : SSABuilder),
    fold_insts insts c b = (Normal r, b') →
    varCounter b ≤ varCounter b' ∧ Forall2 (folded_from (varCounter b)) insts r.1.
Proof.
  induction insts as [|inst rest IH]; intros c b r b'; cbn [fold_insts].
  - intros [= <- <-]. by split; [|constructor].
  - unfold bind.
    destruct (fold_inst inst c b) as [[r1|e] b1] eqn:Hinst; [|done].
    destruct (fold_insts rest _ b1) as [[r2|e] b2] eqn:Hrest; [|done].
    intros [= <- <-]. apply fold_inst_folded in Hinst as [Hle1 Hinst].
    apply IH in Hrest as [Hle2 Hrest]. split; [lia|]. cbn [fst].
    constructor; [done|].
    eapply Forall2_impl; [exact Hrest|]. intros x y. by apply folded_from_mono.
Qed.

Lemma fold_blocks_folded (bs : list (nat * SSABasicBlock)) :
  ∀ (c : gmap (option string) JSValue) (b : SSABuilder)
    (r : list (nat * SSABasicBlock) * gmap (option string) JSValue)
    (b' : SSABuilder),
    fold_blocks bs c b = (Normal r, b') →
    varCounter b ≤ varCounter b'
    ∧ Forall2 (folded_from (varCounter b))
        (bs ≫= fun kb => instructions kb.2) (r.1 ≫= fun kb => instructions kb.2).
Proof.
  induction bs as [|kb rest IH]; intros c b r b'; cbn [fold_blocks].
  - intros [= <- <-]. by split; [|constructor].
  - unfold bind.
    destruct (fold_insts _ c b) as [[r1|e] b1] eqn:Hinsts; [|done].
    destruct (fold_blocks rest _ b1) as [[r2|e] b2] eqn:Hrest; [|done].
    intros [= <- <-]. apply fold_insts_folded in Hinsts as [Hle1 Hinsts].
    apply IH in Hrest as [Hle2 Hrest]. split; [lia|]. cbn [fst].
    rewrite !bind_cons. apply Forall2_app; [done|].
    eapply Forall2_impl; [exact Hrest|]. intros x y. by apply folded_from_mono.
Qed.

Lemma constantFolding_folded (b b' : SSABuilder) :
  constantFolding b = (Normal tt, b') →
  Forall2 (folded_from (varCounter b))
    (all_instructions (ir b)) (all_instructions (ir b')).
Proof.
  unfold constantFolding, bind, get.
  destruct (fold_blocks_run (blocks (ir b))
              (collect_constants (all_instructions (ir b))) b)
    as (bs' & c' & b1 & Hrun & Hir & _).
  rewrite Hrun. intros [= <-].
  apply fold_blocks_folded in Hrun as [_ Hfolded]. cbn [fst] in Hfolded.
  unfold all_instructions. by cbn [ir set_ir blocks set_blocks].
Qed.

Lemma name_args_folded (lo : nat) (i i' : SSAInstruction) :
  folded_from lo i i' →
  Forall2 (fun x y => y = x ∨ folded_name lo y) (name_args i) (name_args i').
Proof.
  intros (Hop & _ & Hargs). unfold name_args. rewrite Hop.
  generalize (literal_positions (op i)). intros lits.
  assert (∀ (f : nat → bool) (l l' : list (option string)),
            Forall2 (fun x y => y = x ∨ folded_name lo y) l l' →
            Forall2 (fun x y => y = x ∨ folded_name lo y)
              (concat (imap (fun k x => if f k then [] else [x]) l))
              (concat (imap (fun k x => if f k then [] else [x]) l'))) as Himap.
  { clear. intros f l l' Hl. revert f.
    induction Hl as [|x y l l' Hxy Hl IH]; intros f; cbn [imap concat];
      [constructor|].
    apply Forall2_app; [|apply (IH (f ∘ S))].
    destruct (f 0); [constructor|]. constructor; [exact Hxy | constructor]. }
  apply (Himap (fun k => bool_decide (k ∈ lits))), Hargs.
Qed.

Lemma folded_defined_or_folded (lo : nat) (all : list SSAInstruction)
    (l l' : list SSAInstruction) :
  (∀ y, folded_name lo y → y ∉ dest <$> all) →
  Forall2 (folded_from lo) l l' →
  ∀ D : gset (option string),
    defined_before_use D l = true → defined_or_folded all D l'.
Proof.
  intros Hall. induction 1 as [|i i' l l' Hi Hl IH]; intros D; [done|].
  cbn [defined_before_use defined_or_folded].
  intros [Hargs Hafter]%andb_prop. split.
  - rewrite forallb_forall in Hargs.
    pose proof (name_args_folded _ _ _ Hi) as Hnames.
    apply Forall_forall. intros y Hy.
    destruct (Forall2_elem_of_r _ _ _ _ Hnames Hy) as (x & Hx & [->|Hfold]).
    + left. apply list_elem_of_In, Hargs in Hx.
      apply (bool_decide_unpack _). rewrite Hx. exact I.
    + right. split; [|by apply Hall].
      destruct Hfold as (k & _ & ->). by exists k.
  - destruct Hi as (_ & -> & _). by apply IH.
Qed.

(** X25: in the IR buildSSA returns for a tree of the parser, every name
    an instruction reads is the destination of an earlier instruction of
    its block, or a name fold<k> of constantFolding, and no instruction of
    the IR defines such a name. *)
Theorem returned_ir_reads_defined_or_fold_names (fuel : nat) (source : string)
    (ast : ASTNode) (i : SSAIR) :
  parse fuel source = Some ast → buildSSA ast = Normal i →
  Forall (fun kb => defined_or_folded (all_instructions i) ∅ (instructions kb.2))
         (blocks i).
Proof.
  intros Hparse Hbuild.
  assert (parsed_tree ast = true) as Hparsed.
  { revert Hparse. unfold parse, Parser.parse.
    destruct (Tokenizer.tokenize fuel _) as [tokens|] eqn:Htok; [|done].
    destruct (Parser.parseChildren fuel _) as [[children ts]|] eqn:Hch; [|done].
    intros [= <-]. apply tokenize_tag_tokens in Htok.
    by apply (proj1 (parse_functions_shape fuel)) in Hch as [Hc _]. }
  assert (one_block new_SSABuilder) as Hone by done.
  destruct (scoped_visit_tree ast Hparsed new_SSABuilder Hone)
    as ([Hkeys _] & new & Hall & Hnew & _).
  destruct (mints_visitNode ast new_SSABuilder Hone)
    as (_ & _ & new' & Hall' & _ & Hminted).
  fold (after_visit ast) in Hkeys, Hall, Hall', Hminted.
  change (all_instructions (ir new_SSABuilder) ++ new') with new' in Hall'.
  rewrite <- Hall' in Hminted. clear new' Hall'.
  assert (defined_before_use ∅ (all_instructions (ir (after_visit ast))) = true)
    as Hvisit.
  { rewrite Hall. by apply Hnew. }
  pose proof (buildSSA_same _ _ Hbuild) as (Hsame & Hkeys' & _).
  rewrite Hkeys in Hkeys'.
  revert Hbuild. unfold buildSSA, build. unfold bind at 1.
  fold (after_visit ast).
  destruct (visitNode ast new_SSABuilder) as [[r|e] b1] eqn:Hrun1; [|done].
  assert (after_visit ast = b1) as Hb1 by (unfold after_visit; by rewrite Hrun1).
  rewrite <- Hb1. clear Hrun1 Hb1 b1.
  unfold optimize, bind, get.
  destruct (deadCodeElimination_run (after_visit ast)) as (b2 & Hrun2 & Hall2).
  destruct (constantFolding_run b2) as (b3 & Hrun3 & _).
  rewrite Hrun2, Hrun3. cbn [fst snd]. intros [= Hi].
  assert (all_instructions i = all_instructions (ir b3)) as Hall3 by by subst i.
  assert (varCounter b2 = varCounter (after_visit ast)) as Hcounter.
  { by injection Hrun2 as <-. }
  apply constantFolding_folded in Hrun3. rewrite Hcounter, Hall2, <- Hall3 in Hrun3.
  assert (defined_or_folded (all_instructions i) ∅ (all_instructions i)) as Hfinal.
  { eapply folded_defined_or_folded; [|exact Hrun3|].
    - intros y (k & Hk & ->) (inst & Hdest & Hin)%list_elem_of_fmap.
      assert ("fold" +:+ pretty k ∈ dest_list (all_instructions i)) as Hd.
      { apply list_elem_of_omap. by exists inst. }
      rewrite (dest_list_same _ _ Hsame) in Hd.
      eapply elem_of_sublist in Hd;
        [|apply omap_sublist, sublist_filter].
      eapply Forall_forall in Hminted; [|exact Hd].
      apply (minted_disjoint 0 (varCounter (after_visit ast)) (S k)
               ("fold" +:+ pretty k)); [done|].
      exists "fold", k. split_and!; [done..|lia].
    - apply (filter_defined_before_use _ _) with (D := ∅); [|done|done].
      apply Forall_forall. intros inst Hinst a Ha.
      by apply (name_args_are_used _ inst). }
  clear -Hfinal Hkeys'. unfold all_instructions in Hfinal at 2.
  destruct (blocks i) as [|kb [|kb' rest]]; try done.
  rewrite bind_cons in Hfinal. cbn [mbind list_bind] in Hfinal.
  rewrite app_nil_r in Hfinal. by repeat constructor.
Qed.

Lemma returned_ir_reads_defined_or_fold_names_witness :
  Forall (fun kb =>
            defined_or_folded
              (all_instructions
                 (optimized (program_of
                    [mkASTNode Element (Some "div") (Some [("id", VString "x")])
                       (Some []) None None None (Some first_location)])))
              ∅ (instructions kb.2))
    (blocks (optimized (program_of
               [mkASTNode Element (Some "div") (Some [("id", VString "x")])
                  (Some []) None None None (Some first_location)]))).
Proof.
  apply (returned_ir_reads_defined_or_fold_names 4 "<div id='x'></div>"
           (program_of
              [mkASTNode Element (Some "div") (Some [("id", VString "x")])
                 (Some []) None None None (Some first_location)]));
    vm_compute; reflexivity.
Defined.

(** * The short names are the plain numerals *)











(** * Input that ends inside a tag or an expression *)

(** ** Reading on to the end *)













(** ** A tag that the end of the input cuts off *)







(** ** An expression and a closing tag that the end of the input cuts off *)




(** ** The token list of a cut-off source *)













(** * Calls share no state *)

Lemma keeps_instances_refl (h : Instances) : keeps_instances h h.
Proof. by split_and!. Qed.

Lemma keeps_instances_trans (h1 h2 h3 : Instances) :
  keeps_instances h1 h2 → keeps_instances h2 h3 → keeps_instances h1 h3.
Proof.
  intros (Ht1 & Hp1 & Hb1 & Hg1) (Ht2 & Hp2 & Hb2 & Hg2).
  split_and!; by etrans.
Qed.

Lemma lookup_new {A} (l : list A) (x : A) : (l ++ [x]) !! length l = Some x.
Proof. by rewrite lookup_app_r, Nat.sub_diag by lia. Qed.

Lemma insert_new {A} (l : list A) (x y : A) : <[length l := y]> (l ++ [x]) = l ++ [y].
Proof. by rewrite insert_app_r_alt, Nat.sub_diag by lia. Qed.

Lemma prefix_new {A} (l : list A) (x : A) : l `prefix_of` l ++ [x].
Proof. by exists [x]. Qed.

Lemma parse_call_eq (fuel : nat) (source : string) (h : Instances) :
  parse_call fuel source h =
  match Tokenizer.tokenize_loop fuel (Tokenizer.new source) [] with
  | Some (tokens, st') =>
      match Parser.parseChildren fuel
              (tokens ++ [{| tok_type := tk_eof; tok_value := TStr EmptyString;
                             tok_loc := Tokenizer.getLocation st' |}]) with
      | Some (children, ts') =>
          Some (Normal {| node_type := Program; node_tag := None;
                          node_attributes := None; node_children := Some children;
                          node_value := None; node_expression := None;
                          node_isStatic := None; node_loc := None |},
                {| tokenizers := tokenizers h ++ [st'];
                   parsers := parsers h ++ [ts'];
                   builders := builders h; generators := generators h |})
      | None => None
      end
  | None => None
  end.
Proof.
  unfold parse_call, parser_parse, call_bind, new_parser, new_tokenizer,
    tokenizer_tokenize.
  cbn [tokenizers set_parsers set_tokenizers]. rewrite lookup_new.
  destruct (Tokenizer.tokenize_loop fuel (Tokenizer.new source) [])
    as [[tokens st']|]; [|done].
  unfold parser_set_tokens, parser_parseChildren.
  cbn [parsers tokenizers set_parsers set_tokenizers].
  rewrite !insert_new, lookup_new.
  destruct (Parser.parseChildren fuel _) as [[children ts']|]; [|done].
  unfold call_ret, set_parsers, set_tokenizers.
  cbn [parsers tokenizers builders generators]. by rewrite !insert_new.
Qed.

(** [parse] called in any program state: it returns what it returns on
    its own, and keeps the instances it finds. *)
Lemma parse_call_run (fuel : nat) (source : string) (h : Instances) :
  match parse fuel source with
  | Some ast =>
      ∃ h', parse_call fuel source h = Some (Normal ast, h') ∧ keeps_instances h h'
  | None => parse_call fuel source h = None
  end.
Proof.
  rewrite parse_call_eq. unfold parse, Parser.parse, Tokenizer.tokenize.
  destruct (Tokenizer.tokenize_loop fuel (Tokenizer.new source) [])
    as [[tokens st']|]; [|done].
  destruct (Parser.parseChildren fuel _) as [[children ts']|]; [|done].
  eexists. split; [done|].
  split_and!; cbn; [apply prefix_new | apply prefix_new | done | done].
Qed.

Lemma buildSSA_call_run (ast : ASTNode) (h : Instances) :
  ∃ h', buildSSA_call ast h = Some (buildSSA ast, h') ∧ keeps_instances h h'.
Proof.
  unfold buildSSA_call, call_bind, new_builder, on_builder.
  cbn [builders set_builders]. rewrite lookup_new.
  unfold set_builders. cbn [builders tokenizers parsers generators].
  rewrite insert_new. eexists. split; [done|].
  split_and!; cbn; [done | done | apply prefix_new | done].
Qed.

Lemma generateCode_call_run (ir : SSAIR) (o : PartialCodeGenOptions) (h : Instances) :
  ∃ h', generateCode_call ir o h = Some (generateCode ir o, h')
        ∧ keeps_instances h h'.
Proof.
  unfold generateCode_call, call_bind, new_generator, on_generator.
  cbn [generators set_generators]. rewrite lookup_new.
  unfold set_generators. cbn [builders tokenizers parsers generators].
  rewrite insert_new. eexists. split; [done|].
  split_and!; cbn; [done | done | done | apply prefix_new].
Qed.

(** [compileWithOptions] called in any program state. *)
Lemma compileWithOptions_call_run (fuel : nat) (source : string)
    (options : PartialCodeGenOptions) (h : Instances) :
  match compileWithOptions fuel source options with
  | Some r =>
      ∃ h', compileWithOptions_call fuel source options h = Some (r, h')
            ∧ keeps_instances h h'
  | None => compileWithOptions_call fuel source options h = None
  end.
Proof.
  assert (compileWithOptions_call fuel source options h =
          match parse_call fuel source h with
          | Some (Normal ast, h1) =>
              match buildSSA_call ast h1 with
              | Some (Normal ir, h2) => generateCode_call ir options h2
              | Some (Throw e, h2) => Some (Throw e, h2)
              | None => None
              end
          | Some (Throw e, h1) => Some (Throw e, h1)
          | None => None
          end) as -> by reflexivity.
  unfold compileWithOptions.
  pose proof (parse_call_run fuel source h) as Hparse.
  destruct (parse fuel source) as [ast|]; [|by rewrite Hparse].
  destruct Hparse as (h1 & -> & Hkeep1).
  destruct (buildSSA_call_run ast h1) as (h2 & -> & Hkeep2).
  destruct (buildSSA ast) as [ir|e].
  - destruct (generateCode_call_run ir options h2) as (h3 & -> & Hkeep3).
    eexists. split; [done|].
    eapply keeps_instances_trans; [exact Hkeep1|].
    by eapply keeps_instances_trans.
  - eexists. split; [done|]. by eapply keeps_instances_trans.
Qed.

Lemma compile_call_is_compileWithOptions_call (fuel : nat) (source : string) :
  compile_call fuel source =
  compileWithOptions_call fuel source
    {| opt_target := None; opt_minify := Some true; opt_inlineCache := Some true;
       opt_staticOptimization := Some true |}.
Proof. reflexivity. Qed.

(** One generator instance used for two calls of [generate] does not
    return the same string twice: it keeps its renaming map and its
    static cache.  What follows rests on [generateCode] making its own. *)
Lemma shared_generator_differs :
  ∃ g h1 r1 h2 r2,
    new_generator minify_on no_instances = Some (Normal g, h1)
    ∧ on_generator g (generate (single_block [static_alloc "c0" "x"])) h1
      = Some (r1, h2)
    ∧ on_generator g (generate (single_block [static_alloc "c0" "x"])) h2
      = Some (r2, instances_after
                    (on_generator g (generate (single_block [static_alloc "c0" "x"]))) h2)
    ∧ r1 ≠ r2.
Proof.
  eexists _, _, _, _, _. split_and!; [reflexivity | reflexivity | reflexivity |].
  vm_compute. intros [=].
Qed.

(** C7: compile and compileWithOptions are functions of their arguments
    alone.  Called on the same source and options in any two states of a
    program, whatever instances of the tokenizer, the parser, the builder
    and the generator exist then and whatever their state, two calls that
    return, return the same result (the same string, or the same
    exception), the result the function has on its own; each call leaves
    every instance it finds as it is and only adds the ones it makes; and
    a call that returns within some number of loop iterations returns the
    same within any larger number, in any state. *)
Theorem compile_deterministic (source : string) (options : PartialCodeGenOptions)
    (fuel1 fuel2 : nat) (h1 h2 h1' h2' : Instances) (r1 r2 : Completion string) :
  compileWithOptions_call fuel1 source options h1 = Some (r1, h1') →
  compileWithOptions_call fuel2 source options h2 = Some (r2, h2') →
  r1 = r2
  ∧ keeps_instances h1 h1' ∧ keeps_instances h2 h2'
  ∧ compileWithOptions fuel1 source options = Some r1
  ∧ (∀ fuel h, fuel1 ≤ fuel →
       ∃ h', compileWithOptions_call fuel source options h = Some (r1, h')
             ∧ keeps_instances h h')
  ∧ (∀ g1 g2 k1 k2 c1 c2,
       compile_call fuel1 source g1 = Some (c1, k1) →
       compile_call fuel2 source g2 = Some (c2, k2) →
       c1 = c2 ∧ keeps_instances g1 k1 ∧ keeps_instances g2 k2
       ∧ compile fuel1 source = Some c1).
Proof.
  assert (∀ o f h r h',
            compileWithOptions_call f source o h = Some (r, h') →
            compileWithOptions f source o = Some r ∧ keeps_instances h h') as Hrun.
  { intros o f h r h' Hcall.
    pose proof (compileWithOptions_call_run f source o h) as Hspec.
    destruct (compileWithOptions f source o) as [r'|]; [|congruence].
    destruct Hspec as (h'' & Hcall' & Hkeep).
    rewrite Hcall in Hcall'. by injection Hcall' as -> ->. }
  assert (∀ o f1 f2 x1 x2,
            compileWithOptions f1 source o = Some x1 →
            compileWithOptions f2 source o = Some x2 → x1 = x2) as Hdet.
  { intros o f1 f2 x1 x2 H1 H2.
    apply (compileWithOptions_mono _ (f1 `max` f2)) in H1; [|lia].
    apply (compileWithOptions_mono _ (f1 `max` f2)) in H2; [|lia].
    congruence. }
  intros [Hr1 Hk1]%Hrun [Hr2 Hk2]%Hrun. split_and!; [by eapply Hdet | done..| |].
  - intros fuel h Hle.
    pose proof (compileWithOptions_call_run fuel source options h) as Hspec.
    by rewrite (compileWithOptions_mono _ _ _ _ _ Hle Hr1) in Hspec.
  - intros g1 g2 k1 k2 c1 c2. rewrite !compile_call_is_compileWithOptions_call.
    intros [Hc1 Hg1]%Hrun [Hc2 Hg2]%Hrun.
    split_and!; [by eapply Hdet | done..].
Qed.

Lemma compile_deterministic_witness :
  keeps_instances no_instances
    (instances_after (compileWithOptions_call 5 "<div>{msg}</div>" minify_on)
       no_instances)
  ∧ keeps_instances
      (instances_after (compileWithOptions_call 5 "<div>{msg}</div>" minify_on)
         no_instances)
      (instances_after (compileWithOptions_call 9 "<div>{msg}</div>" minify_on)
         (instances_after (compileWithOptions_call 5 "<div>{msg}</div>" minify_on)
            no_instances))
  ∧ compileWithOptions 5 "<div>{msg}</div>" minify_on = Some (Normal compiled_div_msg)
  ∧ (∀ fuel h, 5 ≤ fuel →
       ∃ h', compileWithOptions_call fuel "<div>{msg}</div>" minify_on h
             = Some (Normal compiled_div_msg, h')
             ∧ keeps_instances h h')
  ∧ (∀ g1 g2 k1 k2 c1 c2,
       compile_call 5 "<div>{msg}</div>" g1 = Some (c1, k1) →
       compile_call 9 "<div>{msg}</div>" g2 = Some (c2, k2) →
       c1 = c2 ∧ keeps_instances g1 k1 ∧ keeps_instances g2 k2
       ∧ compile 5 "<div>{msg}</div>" = Some c1).
Proof.
  refine (proj2 (compile_deterministic "<div>{msg}</div>" minify_on 5 9
                   no_instances
                   (instances_after
                      (compileWithOptions_call 5 "<div>{msg}</div>" minify_on)
                      no_instances)
                   _ _ (Normal compiled_div_msg) (Normal compiled_div_msg) _ _)).
  - vm_compute. reflexivity.
  - vm_compute. reflexivity.
Defined.
